(** * Spotlight: viewer lifecycle, issue analysis, Huggingface data source

    A shallow embedding of

      - [renumics/spotlight/backend/types.py]   (module [Backend]),
      - [renumics/spotlight/viewer.py]          (module [ViewerPy]),
      - [renumics/spotlight_plugins/core/huggingface_datasource.py]
                                                (module [Huggingface]),

    followed by the properties of the lifecycle manager and of the
    single-flight issue analysis that hold, or fail, on that code. *)

From Stdlib Require Import ZArith.
From stdpp Require Import base option list strings pretty gmap.

Local Open Scope string_scope.
Local Open Scope list_scope.

(** ** Python exceptions that cross the modelled functions *)

Inductive PyExc : Type :=
  | KeyboardInterrupt
  | ViewerNotFoundError (msg : string)
  | RuntimeError (msg : string)
  | BindError
  | AssertionError
  | KeyError (key : string)
  | IndexError
  | TypeError
  | OverflowError
  | ArrowNotImplementedError.

(** The outcome of a call: it returns, or an exception leaves it. *)
Inductive Res (A : Type) : Type :=
  | Ok (a : A)
  | Raise (e : PyExc).
Arguments Ok {A} a.
Arguments Raise {A} e.

(* ===================================================================== *)
(** * backend/types.py *)
(* ===================================================================== *)

Module Backend.

(** [concurrent.futures.Future._state]. *)
Inductive FutureState : Type := PENDING | RUNNING | CANCELLED | FINISHED.

#[global] Instance FutureState_eq_dec : EqDecision FutureState.
Proof. solve_decision. Defined.

(** What [future.result()] does inside a done-callback: the value, the
    exception of the task, or [CancelledError]. *)
Inductive FutureResult (Issue Exn : Type) : Type :=
  | Returned (r : list Issue)
  | Raised (e : Exn)
  | CancelledError.
Arguments Returned {Issue Exn} r.
Arguments Raised {Issue Exn} e.
Arguments CancelledError {Issue Exn}.

Section App.

(** [DataSource], [ColumnTypeMapping], [DataIssue] and the exceptions of
    the analysis are declared outside the three files; they are parameters
    here, with the attribute [table.dtype] and the analysis [find_issues]. *)
Context {DataSource ColumnTypeMapping DataIssue Exn : Type}.
Variable dtype : DataSource → ColumnTypeMapping.
Variable find_issues : DataSource → ColumnTypeMapping → Exn + list DataIssue.

(** [IssuesUpdatedMessage]: [type] is the literal "issuesUpdated", [data]
    defaults to [None]. *)
Record IssuesUpdatedMessage : Type := {
  type : string;
  data : option (list DataIssue)
}.

Definition IssuesUpdatedMessage_new : IssuesUpdatedMessage :=
  {| type := "issuesUpdated"; data := None |}.

(** The websocket manager is seen through [broadcast] only: the messages it
    has been handed, in call order. *)
Record WebsocketManager : Type := { sent : list IssuesUpdatedMessage }.

Definition broadcast (wm : WebsocketManager) (m : IssuesUpdatedMessage)
  : WebsocketManager :=
  {| sent := sent wm ++ [m] |}.

(** A task of the task manager: its name, the arguments of [find_issues]
    and the state of its future. *)
Record Task : Type := {
  name : string;
  args : DataSource * ColumnTypeMapping;
  future : FutureState
}.

Definition set_future (t : Task) (s : FutureState) : Task :=
  {| name := name t; args := args t; future := s |}.

(** [SpotlightApp]: the attributes the issue update reads and writes.
    [task_manager] holds the identifiers of the tasks the manager retains. *)
Record SpotlightApp : Type := {
  _data_source : option DataSource;
  task_manager : list nat;
  websocket_manager : option WebsocketManager;
  issues : list DataIssue
}.

(** [SpotlightApp.__init__]. *)
Definition SpotlightApp_init : SpotlightApp :=
  {| _data_source := None; task_manager := [];
     websocket_manager := None; issues := [] |}.

Definition set_issues (a : SpotlightApp) (i : list DataIssue) : SpotlightApp :=
  {| _data_source := _data_source a; task_manager := task_manager a;
     websocket_manager := websocket_manager a; issues := i |}.

Definition set_data_source (a : SpotlightApp) (d : option DataSource)
  : SpotlightApp :=
  {| _data_source := d; task_manager := task_manager a;
     websocket_manager := websocket_manager a; issues := issues a |}.

Definition set_task_manager (a : SpotlightApp) (tm : list nat) : SpotlightApp :=
  {| _data_source := _data_source a; task_manager := tm;
     websocket_manager := websocket_manager a; issues := issues a |}.

Definition set_websocket_manager (a : SpotlightApp)
    (wm : option WebsocketManager) : SpotlightApp :=
  {| _data_source := _data_source a; task_manager := task_manager a;
     websocket_manager := wm; issues := issues a |}.

(** [if self.websocket_manager: self.websocket_manager.broadcast(
    IssuesUpdatedMessage())]. *)
Definition notify_issues_updated (a : SpotlightApp) : SpotlightApp :=
  match websocket_manager a with
  | Some wm =>
      set_websocket_manager a (Some (broadcast wm IssuesUpdatedMessage_new))
  | None => a
  end.

(** The messages broadcast so far through the application. *)
Definition broadcasts (a : SpotlightApp) : list IssuesUpdatedMessage :=
  match websocket_manager a with
  | Some wm => sent wm
  | None => []
  end.

(** [_on_issues_ready(future)], the closure over [self]: the new state of
    the application and the exception that leaves the callback, if any. *)
Definition _on_issues_ready (a : SpotlightApp)
    (result : FutureResult DataIssue Exn) : SpotlightApp * option Exn :=
  match result with
  | Returned r => (notify_issues_updated (set_issues a r), None)
  | CancelledError => (a, None)
  | Raised e => (a, Some e)
  end.

(** The process around the application: every future handed to the worker
    pool (a task's identifier is its index), and the exceptions that left a
    done-callback, which [concurrent.futures] logs. *)
Record AppWorld : Type := {
  app : SpotlightApp;
  pool : list Task;
  callback_errors : list Exn
}.

Definition AppWorld_init : AppWorld :=
  {| app := SpotlightApp_init; pool := []; callback_errors := [] |}.

(** [Future.cancel()]: a pending future becomes cancelled, a running or
    finished future is left alone. *)
Definition Future_cancel (t : Task) : Task :=
  match future t with
  | PENDING => set_future t CANCELLED
  | _ => t
  end.

(** [future.result()] as a done-callback sees it. *)
Definition Future_result (t : Task) : FutureResult DataIssue Exn :=
  match future t with
  | CANCELLED => CancelledError
  | _ =>
      match find_issues (fst (args t)) (snd (args t)) with
      | inr r => Returned r
      | inl e => Raised e
      end
  end.

(** The tasks [create_task] supersedes: those the manager retains under the
    name. *)
Definition superseded (tm : list nat) (nm : string) (i : nat) (t : Task)
  : bool :=
  bool_decide (i ∈ tm) && bool_decide (name t = nm).

(** The pool after [future.cancel()] on each superseded task. *)
Definition cancel_named (tm : list nat) (nm : string) (p : list Task)
  : list Task :=
  imap (λ i t, if superseded tm nm i t then Future_cancel t else t) p.

(** Whether the task with identifier [i] goes under the name. *)
Definition has_name (p : list Task) (nm : string) (i : nat) : bool :=
  match p !! i with
  | Some t => bool_decide (name t = nm)
  | None => true
  end.

(** The manager drops the superseded tasks, cancelled or not. *)
Definition retained_after_cancel (tm : list nat) (nm : string) (p : list Task)
  : list nat :=
  filter (λ i, has_name p nm i = false) tm.

(** The done-callbacks of the futures that [create_task] cancelled run inside
    the cancellation, each seeing [CancelledError]. *)
Definition cancelled_now (tm : list nat) (nm : string) (p : list Task)
  : list Task :=
  filter (λ t, future t = PENDING)
    (omap (λ i, match p !! i with
                | Some t => if bool_decide (name t = nm) then Some t else None
                | None => None
                end) tm).

Definition run_cancel_callbacks (a : SpotlightApp) (ts : list Task)
  : SpotlightApp :=
  foldl (λ a t, fst (_on_issues_ready a (Future_result (Future_cancel t))))
        a ts.

(** Modelled from the spec: [TaskManager.create_task] of
    [backend/tasks/task_manager.py], which is not among the three files.
    Section 4.1: a non-terminal task under the same name is cancelled first,
    best effort (the cancellation of a task that is already executing is
    ignored); one task per name is retained; the new task is handed to the
    worker pool and returned at once. *)
Definition create_task (w : AppWorld) (a : DataSource * ColumnTypeMapping)
    (nm : string) : AppWorld :=
  let tm := task_manager (app w) in
  let app1 := run_cancel_callbacks (app w) (cancelled_now tm nm (pool w)) in
  let p1 := cancel_named tm nm (pool w) in
  let tm1 := retained_after_cancel tm nm (pool w) in
  {| app := set_task_manager app1 (tm1 ++ [length p1]);
     pool := p1 ++ [{| name := nm; args := a; future := PENDING |}];
     callback_errors := callback_errors w |}.

(** [SpotlightApp._update_issues]. *)
Definition _update_issues (w : AppWorld) : AppWorld :=
  let table := _data_source (app w) in
  let app1 := notify_issues_updated (set_issues (app w) []) in
  let w1 := {| app := app1; pool := pool w;
               callback_errors := callback_errors w |} in
  match table with
  | None => w1
  | Some table => create_task w1 (table, dtype table) "update_issues"
  end.

(** The setter of [SpotlightApp.data_source]. *)
Definition data_source_setter (w : AppWorld)
    (new_data_source : option DataSource) : AppWorld :=
  _update_issues
    {| app := set_data_source (app w) new_data_source; pool := pool w;
       callback_errors := callback_errors w |}.

(** A worker of the pool takes a pending future. *)
Definition worker_start (w : AppWorld) (tid : nat) : AppWorld :=
  match pool w !! tid with
  | Some t =>
      match future t with
      | PENDING =>
          {| app := app w; pool := <[tid := set_future t RUNNING]> (pool w);
             callback_errors := callback_errors w |}
      | _ => w
      end
  | None => w
  end.

(** A running future finishes. Its done-callbacks run in the order they were
    added: the manager discards the task (section 3: completed tasks are not
    retained), then [_on_issues_ready] runs; [concurrent.futures] logs an
    exception that leaves a callback. *)
Definition worker_finish (w : AppWorld) (tid : nat) : AppWorld :=
  match pool w !! tid with
  | Some t =>
      match future t with
      | RUNNING =>
          let t' := set_future t FINISHED in
          let tm := filter (λ i, i ≠ tid) (task_manager (app w)) in
          let r := _on_issues_ready (set_task_manager (app w) tm)
                                    (Future_result t') in
          {| app := fst r; pool := <[tid := t']> (pool w);
             callback_errors :=
               match snd r with
               | Some e => callback_errors w ++ [e]
               | None => callback_errors w
               end |}
      | _ => w
      end
  | None => w
  end.

(** What can happen to one application. *)
Inductive Event : Type :=
  | SetDataSource (ds : option DataSource)
  | AttachWebsocketManager
  | WorkerStart (tid : nat)
  | WorkerFinish (tid : nat).

Definition step (w : AppWorld) (e : Event) : AppWorld :=
  match e with
  | SetDataSource ds => data_source_setter w ds
  | AttachWebsocketManager =>
      {| app := set_websocket_manager (app w) (Some {| sent := [] |});
         pool := pool w; callback_errors := callback_errors w |}
  | WorkerStart tid => worker_start w tid
  | WorkerFinish tid => worker_finish w tid
  end.

Definition run_events (es : list Event) : AppWorld :=
  foldl step AppWorld_init es.

(** The value the ordering rule of section 4.4 promises for [issues]: the
    analysis result of the last assigned dataset when its task has finished
    with a value, and the empty list while it is pending, and also when no
    dataset is set. *)
Definition last_analysis (w : AppWorld) : list DataIssue :=
  match _data_source (app w), last (pool w) with
  | Some _, Some t =>
      match future t, Future_result t with
      | FINISHED, Returned r => r
      | _, _ => []
      end
  | _, _ => []
  end.

End App.

End Backend.

(* ===================================================================== *)
(** * viewer.py *)
(* ===================================================================== *)

Module ViewerPy.

Local Open Scope Z_scope.

(** [Union[int, Literal["auto"]]], the port argument of [Viewer] and [show]. *)
Inductive PortArg : Type := auto | explicit (p : Z).

(** [Union[int, Literal["last"]]], the argument of the module's [close]. *)
Inductive CloseArg : Type := last_viewer | at_port (p : Z).

(** [Union[bool, Literal["auto"]]]. *)
Inductive BoolOrAuto : Type := auto_flag | flag (b : bool).

(** What [dataset_or_folder] can be once the file system has been asked:
    a path that is a directory, a path that is not, or a [DataFrame]. *)
Inductive DatasetOrFolder : Type :=
  | Folder (path : string)
  | DatasetFile (path : string)
  | DataFrame (df : nat).

Definition is_pathtype (d : DatasetOrFolder) : bool :=
  match d with
  | DataFrame _ => false
  | _ => true
  end.

Definition ColumnTypeMapping : Type := list (string * string).
Definition Layout : Type := string.
Definition DataIssue : Type := string.

(** The result of [create_datasource(source, dtype=...)]. *)
Record Datasource : Type := {
  source : DatasetOrFolder;
  source_dtype : option ColumnTypeMapping
}.

(** The argument of [Server.set_project_root]: the path, or its parent. *)
Inductive ProjectRoot : Type :=
  | RootAt (path : string)
  | ParentOf (path : string).

(** Modelled from the spec: the [Server] class of [renumics/spotlight/server.py]
    is not among the three files. Section 3 gives its state: host, port (0
    asks for any free port and is resolved when the listener is bound),
    running, the count of connected clients, the data source, the analysis
    flag and the custom issues. [server_id] is the identity of the object and
    [started] records that [start] bound the listener. *)
Record Server : Type := {
  server_id : nat;
  server_host : string;
  server_port : Z;
  started : bool;
  server_running : bool;
  connected_frontends : nat;
  analyze_issues : option bool;
  project_root : option ProjectRoot;
  datasource : option Datasource;
  custom_issues : list DataIssue;
  server_layout : option Layout;
  filebrowsing_allowed : bool
}.

(** [Server(host=..., port=...)]. *)
Definition Server_new (id : nat) (h : string) (p : Z) : Server :=
  {| server_id := id; server_host := h; server_port := p; started := false;
     server_running := false; connected_frontends := 0%nat;
     analyze_issues := None; project_root := None; datasource := None;
     custom_issues := []; server_layout := None;
     filebrowsing_allowed := false |}.

(** Modelled from the spec: [Server.start] of [renumics/spotlight/server.py].
    Section 4.3: it binds the listener, resolving port 0 to a free port, and
    fails with [BindError] when the port cannot be bound. [os] is the answer
    of the operating system: no port, or the free port it would hand out. *)
Definition Server_start (s : Server) (os : option Z) : Res Server :=
  match os with
  | None => Raise BindError
  | Some free =>
      Ok {| server_id := server_id s; server_host := server_host s;
            server_port := if decide (server_port s = 0) then free
                           else server_port s;
            started := true; server_running := true;
            connected_frontends := connected_frontends s;
            analyze_issues := analyze_issues s;
            project_root := project_root s; datasource := datasource s;
            custom_issues := custom_issues s;
            server_layout := server_layout s;
            filebrowsing_allowed := filebrowsing_allowed s |}
  end.

(** The [Viewer] object. *)
Record Viewer : Type := {
  _host : string;
  _requested_port : PortArg;
  _dataset_or_folder : option DatasetOrFolder;
  _dtype : option ColumnTypeMapping;
  _allow_filebrowsing : option bool;
  _server : option Server
}.

(** [Viewer.__init__]. *)
Definition Viewer_init (h : string) (p : PortArg) : Viewer :=
  {| _host := h; _requested_port := p; _dataset_or_folder := None;
     _dtype := None; _allow_filebrowsing := None; _server := None |}.

Definition set_server (v : Viewer) (s : option Server) : Viewer :=
  {| _host := _host v; _requested_port := _requested_port v;
     _dataset_or_folder := _dataset_or_folder v; _dtype := _dtype v;
     _allow_filebrowsing := _allow_filebrowsing v; _server := s |}.

(** The property [Viewer.host]. *)
Definition Viewer_host (v : Viewer) : string := _host v.

(** The property [Viewer.port]. *)
Definition Viewer_port (v : Viewer) : option Z :=
  match _server v with
  | None => None
  | Some s => Some (server_port s)
  end.

(** The property [Viewer.running]. *)
Definition Viewer_running (v : Viewer) : bool :=
  match _server v with
  | None => false
  | Some s => server_running s
  end.

(** The property [Viewer.df]. *)
Definition Viewer_df (v : Viewer) : option nat :=
  match _server v with
  | Some s =>
      match datasource s with
      | Some d =>
          match source d with
          | DataFrame df => Some df
          | _ => None
          end
      | None => None
      end
  | None => None
  end.

(** What the process does to the outside, in order. *)
Inductive Effect : Type :=
  | ServerStarted (sid : nat) (port : Z)
  | ServerStopped (sid : nat)
  | WaitedForStartup (sid : nat)
  | WaitedForDisconnect (sid : nat)
  | RefreshedFrontends (sid : nat)
  | LaunchedBrowser (host : string) (port : Z)
  | Printed (host : string) (port : option Z).

(** The state of the process: the [Viewer] objects by identity (creation
    order), the module's list [_VIEWERS], the number of [Server] objects
    made so far, and the effects. *)
Record World : Type := {
  heap : list Viewer;
  _VIEWERS : list nat;
  servers_made : nat;
  effects : list Effect
}.

Definition World_init : World :=
  {| heap := []; _VIEWERS := []; servers_made := 0%nat; effects := [] |}.

Definition put_viewer (w : World) (self : nat) (v : Viewer) : World :=
  {| heap := <[self := v]> (heap w); _VIEWERS := _VIEWERS w;
     servers_made := servers_made w; effects := effects w |}.

Definition emit (w : World) (e : Effect) : World :=
  {| heap := heap w; _VIEWERS := _VIEWERS w;
     servers_made := servers_made w; effects := effects w ++ [e] |}.

(** [viewers()]: a copy of [_VIEWERS]. *)
Definition viewers (w : World) : list nat := _VIEWERS w.

(** What the surroundings answer during one call: whether [__main__] has no
    [__file__], the working directory, the answer to binding the listener,
    and how the wait for the frontends ends. *)
Inductive WaitOutcome : Type := Disconnected | Interrupted.

Record Env : Type := {
  in_interactive_session : bool;
  cwd : string;
  os_port : option Z;
  wait_outcome : WaitOutcome
}.

(** [Viewer._init_server]. The server is assigned before it is started, so a
    failing [start] leaves it on the viewer. *)
Definition _init_server (w : World) (self : nat) (os : option Z)
  : World * Res unit :=
  match heap w !! self with
  | None => (w, Ok tt)
  | Some v =>
      match _server v with
      | Some _ => (w, Ok tt)
      | None =>
          let port := match _requested_port v with
                      | auto => 0
                      | explicit p => p
                      end in
          let s := Server_new (servers_made w) (_host v) port in
          let w1 := {| heap := <[self := set_server v (Some s)]> (heap w);
                       _VIEWERS := _VIEWERS w;
                       servers_made := S (servers_made w);
                       effects := effects w |} in
          match Server_start s os with
          | Raise e => (w1, Raise e)
          | Ok s' =>
              let w2 := emit (put_viewer w1 self (set_server v (Some s')))
                             (ServerStarted (server_id s') (server_port s')) in
              (if bool_decide (self ∈ _VIEWERS w2) then w2
               else {| heap := heap w2; _VIEWERS := _VIEWERS w2 ++ [self];
                       servers_made := servers_made w2;
                       effects := effects w2 |},
               Ok tt)
          end
      end
  end.

(** [list.remove]: the first occurrence goes. *)
Fixpoint remove_first (x : nat) (l : list nat) : list nat :=
  match l with
  | [] => []
  | y :: l' => if decide (x = y) then l' else y :: remove_first x l'
  end.

(** The last three statements of [Viewer.close]:
    [_VIEWERS.remove(self); self._server.stop(); self._server = None]. *)
Definition close_tail (w : World) (self : nat) (v : Viewer) (s : Server)
  : World :=
  {| heap := <[self := set_server v None]> (heap w);
     _VIEWERS := remove_first self (_VIEWERS w);
     servers_made := servers_made w;
     effects := effects w ++ [ServerStopped (server_id s)] |}.

(** [Viewer.close(wait=False)], the call the interrupt handler makes. *)
Definition Viewer_close_now (w : World) (self : nat) : World * Res unit :=
  match heap w !! self with
  | None => (w, Ok tt)
  | Some v =>
      if bool_decide (self ∈ _VIEWERS w) then
        match _server v with
        | None => (w, Ok tt)
        | Some s => (close_tail w self v s, Ok tt)
        end
      else (w, Ok tt)
  end.

(** [Viewer.close(wait)]. *)
Definition Viewer_close (w : World) (self : nat) (wait : bool)
    (o : WaitOutcome) : World * Res unit :=
  match heap w !! self with
  | None => (w, Ok tt)
  | Some v =>
      if bool_decide (self ∈ _VIEWERS w) then
        match _server v with
        | None => (w, Ok tt)
        | Some s =>
            if wait then
              let w1 := emit w (WaitedForDisconnect (server_id s)) in
              match o with
              | Interrupted =>
                  (fst (Viewer_close_now w1 self), Raise KeyboardInterrupt)
              | Disconnected => (close_tail w1 self v s, Ok tt)
              end
            else (close_tail w self v s, Ok tt)
        end
      else (w, Ok tt)
  end.

(** The setters the viewer calls on its server; each leaves the identity,
    the port and the listener alone. *)
Definition with_settings (s : Server) (a : option bool)
    (r : option ProjectRoot) (d : option Datasource) (c : list DataIssue)
    (l : option Layout) (f : bool) : Server :=
  {| server_id := server_id s; server_host := server_host s;
     server_port := server_port s; started := started s;
     server_running := server_running s;
     connected_frontends := connected_frontends s;
     analyze_issues := a; project_root := r; datasource := d;
     custom_issues := c; server_layout := l; filebrowsing_allowed := f |}.

Definition set_analyze_issues (s : Server) (b : bool) : Server :=
  with_settings s (Some b) (project_root s) (datasource s) (custom_issues s)
    (server_layout s) (filebrowsing_allowed s).

Definition set_project_root (s : Server) (r : ProjectRoot) : Server :=
  with_settings s (analyze_issues s) (Some r) (datasource s) (custom_issues s)
    (server_layout s) (filebrowsing_allowed s).

Definition set_datasource (s : Server) (d : option Datasource) : Server :=
  with_settings s (analyze_issues s) (project_root s) d (custom_issues s)
    (server_layout s) (filebrowsing_allowed s).

Definition set_custom_issues (s : Server) (c : list DataIssue) : Server :=
  with_settings s (analyze_issues s) (project_root s) (datasource s) c
    (server_layout s) (filebrowsing_allowed s).

Definition set_layout (s : Server) (l : Layout) : Server :=
  with_settings s (analyze_issues s) (project_root s) (datasource s)
    (custom_issues s) (Some l) (filebrowsing_allowed s).

Definition set_filebrowsing_allowed (s : Server) (f : bool) : Server :=
  with_settings s (analyze_issues s) (project_root s) (datasource s)
    (custom_issues s) (server_layout s) f.

(** The arguments of [Viewer.show]. *)
Record ShowArgs : Type := {
  dataset_or_folder : option DatasetOrFolder;
  layout : option Layout;
  no_browser : bool;
  allow_filebrowsing : BoolOrAuto;
  wait : BoolOrAuto;
  dtype : option ColumnTypeMapping;
  analyze : option bool;
  issues : option (list DataIssue)
}.

(** Lines 155 to 161 of [Viewer.show]: the dataset and the dtype are kept on
    the viewer; without a dataset the working directory is taken. *)
Definition remember_dataset (v : Viewer) (a : ShowArgs) (env : Env) : Viewer :=
  {| _host := _host v; _requested_port := _requested_port v;
     _dataset_or_folder :=
       match dataset_or_folder a, _dataset_or_folder v with
       | Some d, _ => Some d
       | None, None => Some (Folder (cwd env))
       | None, Some d => Some d
       end;
     _dtype := match dtype a with
               | Some t => Some t
               | None => _dtype v
               end;
     _allow_filebrowsing := _allow_filebrowsing v;
     _server := _server v |}.

(** Lines 175 to 189: project root and data source, for a new dataset or
    dtype. The second component tells whether [refresh] was called. *)
Definition apply_dataset (s : Server) (v : Viewer) (a : ShowArgs)
  : Server * bool :=
  match dataset_or_folder a, dtype a with
  | None, None => (s, false)
  | _, _ =>
      match _dataset_or_folder v with
      | Some (Folder path) =>
          (set_datasource (set_project_root s (RootAt path)) None, true)
      | Some (DatasetFile path) =>
          (set_datasource (set_project_root s (ParentOf path))
             (Some {| source := DatasetFile path; source_dtype := _dtype v |}),
           true)
      | Some (DataFrame df) =>
          (set_datasource s
             (Some {| source := DataFrame df; source_dtype := _dtype v |}),
           true)
      | None => (s, true)
      end
  end.

(** Lines 197 to 200: the value of [self._allow_filebrowsing] afterwards. *)
Definition resolve_filebrowsing (v : Viewer) (a : ShowArgs) : bool :=
  match allow_filebrowsing a, _allow_filebrowsing v with
  | flag b, _ => b
  | auto_flag, Some b => b
  | auto_flag, None =>
      match _dataset_or_folder v with
      | Some d => is_pathtype d
      | None => false
      end
  end.

(** Lines 172 to 202 on the server object. *)
Definition configure (s : Server) (v : Viewer) (a : ShowArgs) : Server * bool :=
  let s1 := match analyze a with
            | Some b => set_analyze_issues s b
            | None => s
            end in
  let '(s2, refreshed) := apply_dataset s1 v a in
  let s3 := match issues a with
            | Some c => set_custom_issues s2 c
            | None => s2
            end in
  let s4 := match layout a with
            | Some l => set_layout s3 l
            | None => s3
            end in
  (set_filebrowsing_allowed s4 (resolve_filebrowsing v a), refreshed).

Definition emit_all (w : World) (es : list Effect) : World :=
  {| heap := heap w; _VIEWERS := _VIEWERS w;
     servers_made := servers_made w; effects := effects w ++ es |}.

(** [Viewer.open_browser]: nothing without a port (also for port 0, which is
    false in a condition). *)
Definition open_browser (v : Viewer) : list Effect :=
  match Viewer_port v with
  | None => []
  | Some p => if decide (p = 0) then [] else [LaunchedBrowser (Viewer_host v) p]
  end.

(** [Viewer.show]. [wait_for_startup] is taken to return, as it does for a
    server whose [start] has returned. *)
Definition Viewer_show (w : World) (self : nat) (a : ShowArgs) (env : Env)
  : World * Res unit :=
  match heap w !! self with
  | None => (w, Ok tt)
  | Some v0 =>
      let w1 := put_viewer w self (remember_dataset v0 a env) in
      match _init_server w1 self (os_port env) with
      | (w2, Raise e) => (w2, Raise e)
      | (w2, Ok _) =>
          match heap w2 !! self with
          | None => (w2, Ok tt)
          | Some v =>
              match _server v with
              | None =>
                  (w2, Raise (RuntimeError "Failed to launch backend server"))
              | Some s =>
                  let wait := match wait a with
                              | auto_flag => negb (in_interactive_session env)
                              | flag b => b
                              end in
                  let '(s', refreshed) := configure s v a in
                  let v' :=
                    {| _host := _host v;
                       _requested_port := _requested_port v;
                       _dataset_or_folder := _dataset_or_folder v;
                       _dtype := _dtype v;
                       _allow_filebrowsing := Some (resolve_filebrowsing v a);
                       _server := Some s' |} in
                  let w3 :=
                    emit_all (put_viewer w2 self v')
                      ((if refreshed then [RefreshedFrontends (server_id s')]
                        else [])
                       ++ (if negb (in_interactive_session env) || wait
                           then [Printed (Viewer_host v') (Viewer_port v')]
                           else [])
                       ++ (if negb (no_browser a)
                              && bool_decide (connected_frontends s' = 0%nat)
                           then open_browser v' else [])
                       ++ [WaitedForStartup (server_id s')]) in
                  if wait then Viewer_close w3 self true (wait_outcome env)
                  else (w3, Ok tt)
              end
          end
      end
  end.

(** The scan of the module's [show]. The loop variable [viewer] is the
    variable the function goes on with: it keeps the last viewer the loop
    looked at when no port matches. *)
Fixpoint show_scan (h : list Viewer) (port : Z) (vs : list nat)
    (viewer : option nat) : option nat :=
  match vs with
  | [] => viewer
  | i :: vs' =>
      if bool_decide ((h !! i) ≫= Viewer_port = Some port) then Some i
      else show_scan h port vs' (Some i)
  end.

(** The module's [show]: the viewer it returns, and the outcome of
    [viewer.show]. *)
Definition show (w : World) (host : string) (port : PortArg) (a : ShowArgs)
    (env : Env) : World * (nat * Res unit) :=
  let viewer := match port with
                | auto => None
                | explicit p => show_scan (heap w) p (_VIEWERS w) None
                end in
  match viewer with
  | Some i =>
      let r := Viewer_show w i a env in (fst r, (i, snd r))
  | None =>
      let i := length (heap w) in
      let w1 := {| heap := heap w ++ [Viewer_init host port];
                   _VIEWERS := _VIEWERS w; servers_made := servers_made w;
                   effects := effects w |} in
      let r := Viewer_show w1 i a env in (fst r, (i, snd r))
  end.

(** The scan of the module's [close]: the first viewer at the port. *)
Fixpoint close_scan (h : list Viewer) (port : Z) (vs : list nat) : option nat :=
  match vs with
  | [] => None
  | i :: vs' =>
      if bool_decide ((h !! i) ≫= Viewer_port = Some port) then Some i
      else close_scan h port vs'
  end.

(** The module's [close]. *)
Definition close (w : World) (port : CloseArg) : World * Res unit :=
  match port with
  | last_viewer =>
      match last (_VIEWERS w) with
      | None => (w, Raise (ViewerNotFoundError "No active viewers found."))
      | Some i => Viewer_close w i false Disconnected
      end
  | at_port p =>
      match close_scan (heap w) p (_VIEWERS w) with
      | Some i => Viewer_close w i false Disconnected
      | None =>
          (w, Raise (ViewerNotFoundError
                       ("No viewer found at the port " +:+ pretty p +:+ ".")))
      end
  end.

(** A client connects to, or leaves, the server of a viewer. *)
Definition set_connected (s : Server) (n : nat) : Server :=
  {| server_id := server_id s; server_host := server_host s;
     server_port := server_port s; started := started s;
     server_running := server_running s; connected_frontends := n;
     analyze_issues := analyze_issues s; project_root := project_root s;
     datasource := datasource s; custom_issues := custom_issues s;
     server_layout := server_layout s;
     filebrowsing_allowed := filebrowsing_allowed s |}.

Definition frontends (w : World) (self : nat) (f : nat → nat) : World :=
  match heap w !! self with
  | Some v =>
      match _server v with
      | Some s =>
          put_viewer w self
            (set_server v (Some (set_connected s (f (connected_frontends s)))))
      | None => w
      end
  | None => w
  end.

(** The calls a program makes, with the answers of its surroundings. *)
Inductive Op : Type :=
  | NewViewer (host : string) (port : PortArg)
  | CallViewerShow (self : nat) (a : ShowArgs) (env : Env)
  | CallViewerClose (self : nat) (wait : bool) (o : WaitOutcome)
  | CallShow (host : string) (port : PortArg) (a : ShowArgs) (env : Env)
  | CallClose (port : CloseArg)
  | FrontendConnects (self : nat)
  | FrontendLeaves (self : nat).

Definition exec (w : World) (op : Op) : World :=
  match op with
  | NewViewer host port =>
      {| heap := heap w ++ [Viewer_init host port]; _VIEWERS := _VIEWERS w;
         servers_made := servers_made w; effects := effects w |}
  | CallViewerShow self a env => fst (Viewer_show w self a env)
  | CallViewerClose self wait o => fst (Viewer_close w self wait o)
  | CallShow host port a env => fst (show w host port a env)
  | CallClose port => fst (close w port)
  | FrontendConnects self => frontends w self S
  | FrontendLeaves self => frontends w self Nat.pred
  end.

Definition run (ops : list Op) : World := foldl exec World_init ops.

End ViewerPy.

(* ===================================================================== *)
(** * huggingface_datasource.py *)
(* ===================================================================== *)

Module Huggingface.

Local Open Scope Z_scope.

(** The features of a column, as far as [get_column_values] tells them
    apart. *)
Inductive Feature : Type :=
  | Value (hf_dtype : string)
  | ClassLabel (names : list string)
  | Sequence (feature : Feature) (length : Z)
  | Audio
  | Image
  | DictFeature (keys : list string)
  | OtherFeature.

(** A cell of an Arrow column: a scalar, a list, or the struct with the
    fields [bytes] and [path] of media columns. *)
Inductive ArrowValue : Type :=
  | Scalar (z : Z)
  | ListScalar (l : list Z)
  | FileStruct (bytes : option string) (path : option string).

(** The Python objects of the returned array. *)
Inductive PyObj : Type :=
  | PyNone
  | PyInt (z : Z)
  | PyList (l : list Z)
  | PyStr (s : string)
  | PyBytes (b : string).

(** [datasets.Dataset]: the Arrow table and the features, by column name. *)
Record Dataset : Type := {
  data : gmap string (list ArrowValue);
  features : gmap string Feature
}.

(** [Union[List[int], np.ndarray, slice]]: a slice, or the Python list of
    the integers of an index collection. *)
Inductive Indices : Type :=
  | IndexList (l : list Z)
  | Slice (start stop step : option Z).

(** [slice(None)]. *)
Definition full_slice : Indices := Slice None None None.

(** [indices == slice(None)]: slices compare by start, stop and step. *)
Definition is_full_slice (start stop step : option Z) : bool :=
  bool_decide (start = None) && bool_decide (stop = None)
  && bool_decide (step = None).

(** An integer that fits in the 64 bits of an Arrow index. *)
Definition fits_int64 (i : Z) : bool := (- 2 ^ 63 <=? i) && (i <? 2 ^ 63).

(** The rows at the indices of an Arrow index array: an index outside the
    column raises. *)
Fixpoint take_rows (col : list ArrowValue) (indices : list Z)
  : Res (list ArrowValue) :=
  match indices with
  | [] => Ok []
  | i :: rest =>
      if decide (i < 0) then Raise IndexError
      else
        match col !! Z.to_nat i with
        | None => Raise IndexError
        | Some x =>
            match take_rows col rest with
            | Ok xs => Ok (x :: xs)
            | Raise e => Raise e
            end
        end
  end.

(** [ChunkedArray.take(indices)] on a Python list of integers. The list is
    first made an Arrow array: an integer outside of 64 bits overflows, and
    the empty list becomes an array of type null, for which there is no
    take kernel. Then the rows are looked up. *)
Definition take (col : list ArrowValue) (indices : list Z)
  : Res (list ArrowValue) :=
  if forallb fits_int64 indices then
    match indices with
    | [] => Raise ArrowNotImplementedError
    | _ :: _ => take_rows col indices
    end
  else Raise OverflowError.

Definition to_numpy (v : ArrowValue) : PyObj :=
  match v with
  | Scalar z => PyInt z
  | ListScalar l => PyList l
  | FileStruct _ _ => PyNone
  end.

(** [value["bytes"].as_py()], and the path when there are no bytes. *)
Definition bytes_or_path (v : ArrowValue) : Res PyObj :=
  match v with
  | FileStruct (Some b) _ => Ok (PyBytes b)
  | FileStruct None (Some p) => Ok (PyStr p)
  | FileStruct None None => Ok PyNone
  | _ => Raise TypeError
  end.

Definition bytes_of (v : ArrowValue) : Res PyObj :=
  match v with
  | FileStruct (Some b) _ => Ok (PyBytes b)
  | FileStruct None _ => Ok PyNone
  | _ => Raise TypeError
  end.

Fixpoint map_res {A B : Type} (f : A → Res B) (l : list A) : Res (list B) :=
  match l with
  | [] => Ok []
  | x :: l' =>
      match f x with
      | Raise e => Raise e
      | Ok y =>
          match map_res f l' with
          | Ok ys => Ok (y :: ys)
          | Raise e => Raise e
          end
      end
  end.

(** The first half of [get_column_values]: the raw values. [assert False]
    raises [AssertionError]; the interpreter is taken to run with its
    assertions on. *)
Definition raw_values (d : Dataset) (column_name : string) (indices : Indices)
  : Res (list ArrowValue) :=
  match indices with
  | Slice start stop step =>
      if is_full_slice start stop step then
        match data d !! column_name with
        | Some col => Ok col
        | None => Raise (KeyError column_name)
        end
      else Raise AssertionError
  | IndexList l =>
      match data d !! column_name with
      | Some col => take col l
      | None => Raise (KeyError column_name)
      end
  end.

(** [HuggingfaceDataSource.get_column_values]. *)
Definition get_column_values (d : Dataset) (column_name : string)
    (indices : Indices) : Res (list PyObj) :=
  match raw_values d column_name indices with
  | Raise e => Raise e
  | Ok raw =>
      match features d !! column_name with
      | None => Raise (KeyError column_name)
      | Some Audio | Some Image => map_res bytes_or_path raw
      | Some (DictFeature _) => map_res bytes_of raw
      | Some _ => Ok (to_numpy <$> raw)
      end
  end.

End Huggingface.

(** ** The dtypes of a Huggingface data source *)

Module HuggingfaceDtypes.

Import Huggingface.

Local Open Scope Z_scope.

(** The dtypes of [renumics.spotlight.dtypes] the data source hands out. *)
Inductive DType : Type :=
  | bool_dtype
  | int_dtype
  | float_dtype
  | datetime_dtype
  | bytes_dtype
  | str_dtype
  | CategoryDType (categories : list string)
  | file_dtype
  | array_dtype
  | audio_dtype
  | image_dtype
  | embedding_dtype.

(** The outcome of [_get_intermediate_dtype]: a dtype, or the exception
    [UnsupportedFeature(feature)]. *)
Inductive DTypeResult : Type :=
  | Returns (d : DType)
  | UnsupportedFeature (feature : Feature).

(** [_guess_semantic_dtype]. *)
Definition _guess_semantic_dtype (feature : Feature) : option DType :=
  match feature with
  | Audio => Some audio_dtype
  | Image => Some image_dtype
  | Sequence (Value _) length =>
      if decide (length ≠ -1) then Some embedding_dtype else None
  | _ => None
  end.

(** The branch of [_get_intermediate_dtype] for a [datasets.Value]: the chain
    of comparisons on [hf_dtype], in the order of the source. *)
Definition value_dtype (hf_dtype : string) : option DType :=
  if decide (hf_dtype = "bool") then Some bool_dtype
  else if decide (hf_dtype = "int8") then Some int_dtype
  else if decide (hf_dtype = "int16") then Some int_dtype
  else if decide (hf_dtype = "int32") then Some int_dtype
  else if decide (hf_dtype = "int64") then Some int_dtype
  else if decide (hf_dtype = "float16") then Some float_dtype
  else if decide (hf_dtype = "float32") then Some float_dtype
  else if decide (hf_dtype = "float64") then Some float_dtype
  else if String.prefix "time32" hf_dtype then Some datetime_dtype
  else if String.prefix "time64" hf_dtype then Some datetime_dtype
  else if String.prefix "timestamp" hf_dtype then Some datetime_dtype
  else if String.prefix "date32" hf_dtype then Some datetime_dtype
  else if String.prefix "date64" hf_dtype then Some datetime_dtype
  else if String.prefix "duration" hf_dtype then Some float_dtype
  else if String.prefix "decimal" hf_dtype then Some float_dtype
  else if decide (hf_dtype = "binary") then Some bytes_dtype
  else if decide (hf_dtype = "large_binary") then Some bytes_dtype
  else if decide (hf_dtype = "string") then Some str_dtype
  else if decide (hf_dtype = "large_string") then Some str_dtype
  else None.

(** [_get_intermediate_dtype]. *)
Definition _get_intermediate_dtype (feature : Feature) : DTypeResult :=
  match feature with
  | Value hf_dtype =>
      match value_dtype hf_dtype with
      | Some d => Returns d
      | None => UnsupportedFeature feature
      end
  | ClassLabel names => Returns (CategoryDType names)
  | Audio => Returns file_dtype
  | Image => Returns file_dtype
  | Sequence (Value _) _ => Returns array_dtype
  | Sequence _ _ => UnsupportedFeature feature
  | DictFeature keys =>
      if bool_decide (List.length keys = 2%nat)
         && bool_decide ("bytes" ∈ keys) && bool_decide ("path" ∈ keys)
      then Returns file_dtype
      else UnsupportedFeature feature
  | OtherFeature => UnsupportedFeature feature
  end.

(** The two maps [HuggingfaceDataSource.__init__] builds, as the dicts are
    filled: column by column, in the order of [features.items()]. *)
Record DTypeMaps : Type := {
  _intermediate_dtypes : list (string * DType);
  _guessed_dtypes : list (string * DType)
}.

(** The dict comprehension of [__init__]: it stops at the first feature
    [_get_intermediate_dtype] does not support. *)
Fixpoint intermediate_dtypes_of (items : list (string * Feature))
  : list (string * DType) + Feature :=
  match items with
  | [] => inl []
  | (col, feat) :: rest =>
      match _get_intermediate_dtype feat with
      | UnsupportedFeature f => inr f
      | Returns d =>
          match intermediate_dtypes_of rest with
          | inl m => inl ((col, d) :: m)
          | inr f => inr f
          end
      end
  end.

(** The loop of [__init__] that keeps the guessed semantic dtypes. *)
Fixpoint guessed_dtypes_of (items : list (string * Feature))
  : list (string * DType) :=
  match items with
  | [] => []
  | (col, feat) :: rest =>
      match _guess_semantic_dtype feat with
      | Some d => (col, d) :: guessed_dtypes_of rest
      | None => guessed_dtypes_of rest
      end
  end.

(** [HuggingfaceDataSource.__init__] on the features of the dataset. *)
Definition HuggingfaceDataSource_init (items : list (string * Feature))
  : DTypeMaps + Feature :=
  match intermediate_dtypes_of items with
  | inr f => inr f
  | inl m =>
      inl {| _intermediate_dtypes := m;
             _guessed_dtypes := guessed_dtypes_of items |}
  end.

End HuggingfaceDtypes.

(* ===================================================================== *)
(** * Concrete programs and the statements of the specification *)
(* ===================================================================== *)

Module Scenarios.

Import Backend.

(** A data source is named by a string; its analysis fails for the table
    "broken" and reports one issue otherwise. *)
Definition table_dtype (table : string) : list (string * string) :=
  [("column", table)].

Definition analysis (table : string) (d : list (string * string))
  : string + list string :=
  if bool_decide (table = "broken") then inl "analysis failed"
  else inr ["issue of " +:+ table].

Definition run_app (es : list Event) : AppWorld :=
  run_events table_dtype analysis es.

(** Two assignments in a burst; the task of the first is already executing
    when the second arrives, and it finishes last. *)
Definition stale_burst : list (@Event string) :=
  [SetDataSource (Some "A"); WorkerStart 0; SetDataSource (Some "B");
   WorkerStart 1; WorkerFinish 1; WorkerFinish 0].

(** The same burst when the first task has not been taken by a worker. *)
Definition cancelled_burst : list (@Event string) :=
  [AttachWebsocketManager; SetDataSource (Some "A");
   SetDataSource (Some "B"); WorkerStart 0; WorkerStart 1; WorkerFinish 1;
   WorkerFinish 0].

(** The data source is cleared while the analysis of "A" is pending. *)
Definition cleared_while_pending : list (@Event string) :=
  [SetDataSource (Some "A"); SetDataSource None; WorkerStart 0;
   WorkerFinish 0].

Section Statements.

Context {DataSource ColumnTypeMapping DataIssue Exn : Type}.
Variable dtype : DataSource → ColumnTypeMapping.
Variable find_issues : DataSource → ColumnTypeMapping → Exn + list DataIssue.

Local Abbreviation AppWorld :=
  (@AppWorld DataSource ColumnTypeMapping DataIssue Exn).
Local Abbreviation SpotlightApp := (@SpotlightApp DataSource DataIssue).
Local Abbreviation Event := (@Event DataSource).

(** Section 4.4, ordering invariant, as the specification words it. *)
Definition ordering_as_specified (es : list Event) : Prop :=
  issues (app (run_events dtype find_issues es))
  = last_analysis find_issues (run_events dtype find_issues es).

(** A task that will not run any more. *)
Definition terminal (t : @Task DataSource ColumnTypeMapping) : Prop :=
  future t = CANCELLED ∨ future t = FINISHED.

(** An assignment at a quiet moment: no analysis is executing when a table is
    assigned, and none is outstanding when the source is cleared. *)
Definition quiet_for (w : AppWorld) (ds : option DataSource) : Prop :=
  match ds with
  | Some _ => Forall (λ t, future t ≠ RUNNING) (pool w)
  | None => Forall terminal (pool w)
  end.

Fixpoint orderly (w : AppWorld) (es : list Event) : Prop :=
  match es with
  | [] => True
  | e :: es' =>
      match e with
      | SetDataSource ds => quiet_for w ds
      | _ => True
      end
      ∧ orderly (step dtype find_issues w e) es'
  end.

(** What holds between the events of an orderly run: only the last task can
    be outstanding, it is then retained by the manager under the name
    "update_issues" with a data source set, and [issues] is the value the
    ordering rule promises. *)
Definition single_flight (w : AppWorld) : Prop :=
  (∀ i t, pool w !! i = Some t → (S i < length (pool w))%nat → terminal t)
  ∧ (∀ t, pool w !! pred (length (pool w)) = Some t → ¬ terminal t →
       is_Some (_data_source (app w))
       ∧ pred (length (pool w)) ∈ task_manager (app w)
       ∧ name t = "update_issues")
  ∧ issues (app w) = last_analysis find_issues w.



(** Section 4.4, steps 1 to 3, as the specification words them. *)
Definition assignment_as_specified (w : AppWorld) (ds : option DataSource)
  : Prop :=
  let w' := data_source_setter dtype find_issues w ds in
  issues (app w') = []
  ∧ broadcasts (app w') = broadcasts (app w) ++ [IssuesUpdatedMessage_new]
  ∧ (ds = None → pool w' = pool w)
  ∧ (∀ table, ds = Some table →
       ∃ p, length p = length (pool w)
            ∧ pool w' = p ++ [{| name := "update_issues";
                                 args := (table, dtype table);
                                 future := PENDING |}]).

End Statements.

End Scenarios.

Module ViewerScenarios.

Import ViewerPy.

Local Open Scope Z_scope.

(** The registry invariant of section 3: a viewer is listed at most once,
    and a listed viewer has a server that was started. *)
Definition registered_ok (w : World) (i : nat) : Prop :=
  ∃ v s, heap w !! i = Some v ∧ _server v = Some s ∧ started s = true.

Definition registry_invariant (w : World) : Prop :=
  NoDup (_VIEWERS w) ∧ Forall (registered_ok w) (_VIEWERS w).

(** [viewer.port] of the viewer with identity [i]. *)
Definition port_of (w : World) (i : nat) : option Z :=
  heap w !! i ≫= Viewer_port.

(** The server the viewer [i] owns. *)
Definition server_of (w : World) (i : nat) : option Server :=
  heap w !! i ≫= _server.

(** The open viewer that was created last: identities are handed out in
    creation order, so it is the greatest identity in the registry. *)
Definition most_recently_created (w : World) : option nat :=
  match _VIEWERS w with
  | [] => None
  | i :: l => Some (foldr Nat.max i l)
  end.

(** Section 6 on [closeViewer("last")], as the specification words it. *)
Definition close_last_as_specified (w : World) : Prop :=
  match most_recently_created w with
  | None =>
      close w last_viewer
      = (w, Raise (ViewerNotFoundError "No active viewers found."))
  | Some i =>
      snd (close w last_viewer) = Ok tt
      ∧ i ∉ viewers (fst (close w last_viewer))
  end.

(** Section 4.5 on the reuse of viewers by [open] with an explicit port, as
    the specification words it. *)
Definition open_as_specified (w : World) (host : string) (p : Z)
    (a : ShowArgs) (env : Env) : Prop :=
  let r := show w host (explicit p) a env in
  ((∃ i, i ∈ viewers w ∧ port_of w i = Some p) →
     fst (snd r) ∈ viewers w ∧ port_of w (fst (snd r)) = Some p
     ∧ length (heap (fst r)) = length (heap w))
  ∧ ((∀ i, i ∈ viewers w → port_of w i ≠ Some p) →
       fst (snd r) = length (heap w)
       ∧ length (heap (fst r)) = S (length (heap w))).

(** An interactive session in which the listener can be bound. *)
Definition session (free : Z) : Env :=
  {| in_interactive_session := true; cwd := "/work"; os_port := Some free;
     wait_outcome := Disconnected |}.

(** [show] without a dataset, without a browser and without waiting. *)
Definition plain : ShowArgs :=
  {| dataset_or_folder := None; layout := None; no_browser := true;
     allow_filebrowsing := auto_flag; wait := flag false; dtype := None;
     analyze := None; issues := None |}.

(** One viewer opened at port 5001. *)
Definition one_viewer : list Op :=
  [CallShow "127.0.0.1" (explicit 5001) plain (session 50000)].

(** Two viewers created in one order and shown in the other. *)
Definition shown_in_reverse : list Op :=
  [NewViewer "127.0.0.1" auto; NewViewer "127.0.0.1" auto;
   CallViewerShow 1 plain (session 50000);
   CallViewerShow 0 plain (session 50001)].

End ViewerScenarios.

Module HuggingfaceScenarios.

Import Huggingface.

Local Open Scope Z_scope.

(** A dataset with a column of integers and a column of images. *)
Definition two_columns : Dataset :=
  {| data := {[ "label" := [Scalar 3; Scalar 1; Scalar 4];
                "image" := [FileStruct None (Some "a.png");
                            FileStruct (Some "PNG") None] ]};
     features := {[ "label" := Value "int64"; "image" := Image ]} |}.

End HuggingfaceScenarios.

(** ** Runs, lifetimes and columns: what the further properties speak of *)

Module BackendRuns.
Import Backend.

(** The tables a run assigns, in order. *)
Definition assigned {DataSource : Type} (es : list (@Event DataSource))
  : list DataSource :=
  omap (λ e, match e with
             | SetDataSource (Some table) => Some table
             | _ => None
             end) es.

End BackendRuns.

Module ViewerLifetime.
Import ViewerPy ViewerScenarios.
Local Open Scope Z_scope.

(** The servers the process has started, and those it has stopped, in the
    order of the effects. *)
Definition started_ids (es : list Effect) : list nat :=
  omap (λ e, match e with
             | ServerStarted sid _ => Some sid
             | _ => None
             end) es.

Definition stopped_ids (es : list Effect) : list nat :=
  omap (λ e, match e with
             | ServerStopped sid => Some sid
             | _ => None
             end) es.

(** The browsers the process has opened. *)
Definition launches (es : list Effect) : list (string * Z) :=
  omap (λ e, match e with
             | LaunchedBrowser host port => Some (host, port)
             | _ => None
             end) es.

(** The calls of [refresh_frontends]. *)
Definition refreshes (es : list Effect) : list nat :=
  omap (λ e, match e with
             | RefreshedFrontends sid => Some sid
             | _ => None
             end) es.

(** The identity of the server the viewer [i] owns. *)
Definition owner_id (w : World) (i : nat) : option nat :=
  server_id <$> server_of w i.

(** The servers that were started and are not stopped, in the order in
    which they were started. *)
Definition running_servers (es : list Effect) : list nat :=
  filter (λ sid, sid ∉ stopped_ids es) (started_ids es).

(** The servers of the listed viewers, in the order of the list. *)
Definition listed_servers (w : World) : list nat :=
  omap (owner_id w) (_VIEWERS w).

(** The list of viewers follows the order in which the servers that still
    run were started. *)
Definition in_start_order (w : World) : Prop :=
  listed_servers w = running_servers (effects w).

(** [wait] of [Viewer.show] once "auto" is resolved. *)
Definition resolved_wait (a : ShowArgs) (env : Env) : bool :=
  match wait a with
  | auto_flag => negb (in_interactive_session env)
  | flag b => b
  end.

(** The viewer [v] with server [s] when lines 172 to 202 of [Viewer.show]
    have run. *)
Definition shown_viewer (v : Viewer) (s : Server) (a : ShowArgs) : Viewer :=
  {| _host := _host v; _requested_port := _requested_port v;
     _dataset_or_folder := _dataset_or_folder v; _dtype := _dtype v;
     _allow_filebrowsing := Some (resolve_filebrowsing v a);
     _server := Some (fst (configure s v a)) |}.

(** The port [_init_server] asks the server for. *)
Definition requested (v : Viewer) : Z :=
  match _requested_port v with
  | auto => 0
  | explicit p => p
  end.

(** Lines 167 to 210 of [Viewer.show], for the viewer [v] whose server is
    [s]: the state when [wait_for_startup] has returned. *)
Definition show_body (w : World) (self : nat) (v : Viewer) (s : Server)
    (a : ShowArgs) (env : Env) : World :=
  let s' := fst (configure s v a) in
  let v' := shown_viewer v s a in
  emit_all (put_viewer w self v')
    ((if snd (configure s v a) then [RefreshedFrontends (server_id s')]
      else [])
     ++ (if negb (in_interactive_session env) || resolved_wait a env
         then [Printed (Viewer_host v') (Viewer_port v')]
         else [])
     ++ (if negb (no_browser a)
            && bool_decide (connected_frontends s' = 0%nat)
         then open_browser v' else [])
     ++ [WaitedForStartup (server_id s')]).

(** The lifetime of servers: identities are fresh, a server has one owner, a
    server is started and stopped at most once, only a started server that
    nobody owns any more is stopped, and a started server is stopped or
    owned by a listed viewer. *)
Record lifetime (w : World) : Prop := {
  owned_fresh : ∀ i sid, owner_id w i = Some sid → (sid < servers_made w)%nat;
  owned_once : ∀ i j sid,
    owner_id w i = Some sid → owner_id w j = Some sid → i = j;
  started_fresh : ∀ sid,
    sid ∈ started_ids (effects w) → (sid < servers_made w)%nat;
  started_once : NoDup (started_ids (effects w));
  stopped_once : NoDup (stopped_ids (effects w));
  stopped_started : ∀ sid,
    sid ∈ stopped_ids (effects w) →
    sid ∈ started_ids (effects w) ∧ ∀ i, owner_id w i ≠ Some sid;
  started_kept : ∀ sid,
    sid ∈ started_ids (effects w) →
    sid ∈ stopped_ids (effects w)
    ∨ ∃ i, i ∈ _VIEWERS w ∧ owner_id w i = Some sid;
  listed_started : ∀ i sid,
    i ∈ _VIEWERS w → owner_id w i = Some sid →
    sid ∈ started_ids (effects w)
}.

(** [show] with a browser, [show] that waits, and a session in which the
    listener cannot be bound. *)
Definition browsing : ShowArgs :=
  {| dataset_or_folder := Some (DataFrame 7); layout := None;
     no_browser := false; allow_filebrowsing := auto_flag;
     wait := flag false; dtype := None; analyze := None; issues := None |}.

Definition blocking : ShowArgs :=
  {| dataset_or_folder := None; layout := None; no_browser := true;
     allow_filebrowsing := auto_flag; wait := flag true; dtype := None;
     analyze := None; issues := None |}.

Definition busy : Env :=
  {| in_interactive_session := true; cwd := "/work"; os_port := None;
     wait_outcome := Disconnected |}.

(** Two viewers shown in the order of their creation; then the first is
    closed and shown again. *)
Definition shown_again : list Op :=
  [NewViewer "127.0.0.1" auto; NewViewer "127.0.0.1" auto;
   CallViewerShow 0 plain (session 50000);
   CallViewerShow 1 plain (session 50001);
   CallViewerClose 0 false Disconnected;
   CallViewerShow 0 plain (session 50002)].

(** The viewer of [one_viewer] and its server. *)
Definition first_viewer : Viewer :=
  default (Viewer_init "" auto) (heap (run one_viewer) !! 0%nat).

Definition first_server : Server :=
  default (Server_new 0 "" 0) (_server first_viewer).

End ViewerLifetime.

Module HuggingfaceColumns.
Import Huggingface HuggingfaceDtypes.
Local Open Scope Z_scope.

(** A feature whose column [get_column_values] converts cell by cell with
    [to_numpy]. *)
Definition plain (f : Feature) : Prop :=
  match f with
  | Audio | Image | DictFeature _ => False
  | _ => True
  end.

(** An index [take] accepts on a column. *)
Definition in_bounds (col : list ArrowValue) (i : Z) : Prop :=
  0 ≤ i ∧ (Z.to_nat i < length col)%nat.

(** A list of indices that becomes an Arrow array of integers: it is not
    empty and its integers fit in 64 bits. *)
Definition index_array (l : list Z) : Prop :=
  l ≠ [] ∧ Forall (λ i, - 2 ^ 63 ≤ i < 2 ^ 63) l.

(** A feature [_get_intermediate_dtype] has a dtype for. *)
Definition supported (f : Feature) : Prop :=
  ∃ d, _get_intermediate_dtype f = Returns d.

(** A cell of a media column. *)
Definition is_file (v : ArrowValue) : Prop :=
  ∃ b p, v = FileStruct b p.

(** What [get_column_values] returns for a cell of a media column: the
    bytes when there are any; without bytes the path for an [Audio] or
    [Image] feature, and [None] for a dict feature. *)
Definition media_value (f : Feature) (v : ArrowValue) : PyObj :=
  match v with
  | FileStruct (Some b) _ => PyBytes b
  | FileStruct None (Some p) =>
      match f with
      | DictFeature _ => PyNone
      | _ => PyStr p
      end
  | _ => PyNone
  end.

(** Columns of several kinds, one of them an unsigned integer. *)
Definition mixed_features : list (string * Feature) :=
  [("label", ClassLabel ["cat"; "dog"]); ("image", Image);
   ("embedding", Sequence (Value "float32") 4);
   ("tokens", Sequence (Value "int64") (-1));
   ("count", Value "uint8"); ("weird", OtherFeature)].
End HuggingfaceColumns.

(* ===================================================================== *)
(** * Properties of backend/types.py *)
(* ===================================================================== *)

Module BackendFacts.

Import Backend Scenarios.

Section Facts.

Context {DataSource ColumnTypeMapping DataIssue Exn : Type}.
Variable dtype : DataSource → ColumnTypeMapping.
Variable find_issues : DataSource → ColumnTypeMapping → Exn + list DataIssue.

Local Abbreviation Task := (@Task DataSource ColumnTypeMapping).
Local Abbreviation AppWorld :=
  (@AppWorld DataSource ColumnTypeMapping DataIssue Exn).
Local Abbreviation SpotlightApp := (@SpotlightApp DataSource DataIssue).

Lemma filter_none {A} (P : A → Prop) `{∀ x, Decision (P x)} (l : list A) :
  Forall (λ x, ¬ P x) l → filter P l = [].
Proof.
  induction 1 as [|x l Hx _ IH]; [done|].
  rewrite filter_cons. by case_decide.
Qed.

Lemma name_Future_cancel (t : Task) : name (Future_cancel t) = name t.
Proof. unfold Future_cancel. by destruct (future t). Qed.

Lemma cancel_named_length tm nm (p : list Task) :
  length (cancel_named tm nm p) = length p.
Proof. unfold cancel_named. by rewrite length_imap. Qed.

Lemma cancel_named_lookup_name tm nm (p : list Task) i t :
  cancel_named tm nm p !! i = Some t →
  ∃ t0, p !! i = Some t0 ∧ name t = name t0.
Proof.
  unfold cancel_named. rewrite list_lookup_imap.
  destruct (p !! i) as [t0|] eqn:E; simpl; [|done].
  intros [= <-]. exists t0. split; [done|].
  destruct (superseded tm nm i t0); [apply name_Future_cancel|done].
Qed.

(** A cancelled future hands [CancelledError] to its callback, which leaves
    the application alone. *)
Lemma cancelled_callback_noop (a : SpotlightApp) (t : Task) :
  future t = PENDING →
  _on_issues_ready a (Future_result find_issues (Future_cancel t)) = (a, None).
Proof.
  intros Ht. unfold Future_cancel, Future_result. rewrite Ht. done.
Qed.

Lemma run_cancel_callbacks_noop (a : SpotlightApp) tm nm (p : list Task) :
  run_cancel_callbacks find_issues a (cancelled_now tm nm p) = a.
Proof.
  unfold run_cancel_callbacks, cancelled_now.
  generalize (omap (λ i, match p !! i with
                         | Some t => if bool_decide (name t = nm)
                                     then Some t else None
                         | None => None
                         end) tm).
  intros ts. revert a. induction ts as [|t ts IH]; intros a; [done|].
  rewrite filter_cons. case_decide as Ht; [|apply IH].
  simpl. rewrite cancelled_callback_noop by done. apply IH.
Qed.

Lemma retained_not_named tm nm (p : list Task) (new : Task) :
  filter (λ i, has_name (cancel_named tm nm p ++ [new]) nm i = true)
         (retained_after_cancel tm nm p) = [].
Proof.
  apply filter_none, Forall_forall. intros i Hi.
  apply list_elem_of_filter in Hi as [Hi _].
  unfold has_name in *.
  destruct (p !! i) as [t0|] eqn:E; [|done].
  assert (i < length (cancel_named tm nm p))%nat as Hlt.
  { rewrite cancel_named_length. by eapply lookup_lt_Some. }
  rewrite lookup_app_l by done.
  destruct (cancel_named tm nm p !! i) as [t|] eqn:E'.
  - apply cancel_named_lookup_name in E' as (t1 & E1 & Hn).
    rewrite E in E1. injection E1 as <-. rewrite Hn.
    destruct (bool_decide (name t0 = nm)); [done|]. by intros [=].
  - apply lookup_ge_None in E'. lia.
Qed.

Lemma notify_keeps (a : SpotlightApp) :
  _data_source (notify_issues_updated a) = _data_source a
  ∧ task_manager (notify_issues_updated a) = task_manager a
  ∧ issues (notify_issues_updated a) = issues a.
Proof. unfold notify_issues_updated. by destruct (websocket_manager a). Qed.

(** C4, amended. An assignment to [data_source] stores the new source and
    empties [issues]; when a websocket manager is attached, one
    issues-updated message without data is broadcast at once; for the source
    [None] no task is scheduled; for a table exactly one task is added to the
    pool, named "update_issues", with the table and its dtype as arguments,
    and it is the only task of that name the manager then retains. *)
Theorem data_source_setter_contract (w : AppWorld) (ds : option DataSource) :
  let w' := data_source_setter dtype find_issues w ds in
  _data_source (app w') = ds
  ∧ issues (app w') = []
  ∧ (∀ wm, websocket_manager (app w) = Some wm →
       websocket_manager (app w')
       = Some (broadcast wm IssuesUpdatedMessage_new)
       ∧ broadcasts (app w')
         = broadcasts (app w)
           ++ [{| type := "issuesUpdated"; data := None |}])
  ∧ (websocket_manager (app w) = None → websocket_manager (app w') = None)
  ∧ (ds = None →
       pool w' = pool w ∧ task_manager (app w') = task_manager (app w))
  ∧ (∀ table, ds = Some table →
       pool w'
       = cancel_named (task_manager (app w)) "update_issues" (pool w)
         ++ [{| name := "update_issues"; args := (table, dtype table);
                future := PENDING |}]
       ∧ length (pool w') = S (length (pool w))
       ∧ filter (λ i, has_name (pool w') "update_issues" i = true)
                (task_manager (app w'))
         = [length (pool w)]).
Proof.
  unfold data_source_setter, _update_issues.
  set (a1 := notify_issues_updated
               (set_issues (set_data_source (app w) ds) [])).
  assert (_data_source a1 = ds ∧ task_manager a1 = task_manager (app w)
          ∧ issues a1 = []) as (Hsrc & Htm & Hiss).
  { unfold a1.
    by destruct (notify_keeps (set_issues (set_data_source (app w) ds) []))
      as (-> & -> & ->). }
  assert (∀ wm, websocket_manager (app w) = Some wm →
            websocket_manager a1
            = Some (broadcast wm IssuesUpdatedMessage_new)
            ∧ broadcasts a1
              = broadcasts (app w)
                ++ [{| type := "issuesUpdated"; data := None |}]) as Hsome.
  { intros wm Hwm. unfold a1, notify_issues_updated, broadcasts. simpl.
    by rewrite Hwm. }
  assert (websocket_manager (app w) = None → websocket_manager a1 = None)
    as Hnone.
  { intros Hwm. unfold a1, notify_issues_updated. simpl. by rewrite Hwm. }
  simpl. destruct ds as [table|]; simpl.
  - unfold create_task. simpl. rewrite run_cancel_callbacks_noop. simpl.
    fold a1. rewrite Htm.
    split_and!; try done.
    intros ? [= <-]. split_and!; [done| |].
    + rewrite length_app, cancel_named_length. simpl. lia.
    + rewrite filter_app, retained_not_named, cancel_named_length. simpl.
      rewrite filter_cons, filter_nil. unfold has_name.
      rewrite lookup_app_r by (rewrite cancel_named_length; lia).
      by rewrite cancel_named_length, Nat.sub_diag.
  - fold a1. split_and!; try done.
Qed.

(** ** Orderly runs *)

Lemma terminal_Future_cancel (t : Task) : terminal t → Future_cancel t = t.
Proof. unfold terminal, Future_cancel. by intros [-> | ->]. Qed.

Lemma last_analysis_lookup (w : AppWorld) :
  last_analysis find_issues w
  = match _data_source (app w), pool w !! pred (length (pool w)) with
    | Some _, Some t =>
        match future t, Future_result find_issues t with
        | FINISHED, Returned r => r
        | _, _ => []
        end
    | _, _ => []
    end.
Proof. unfold last_analysis. by rewrite last_lookup. Qed.

(** In an orderly state a task that is not terminal is the last one. *)
Lemma outstanding_is_last (w : AppWorld) (i : nat) (t : Task) :
  single_flight find_issues w → pool w !! i = Some t → ¬ terminal t →
  i = pred (length (pool w)).
Proof.
  intros (J1 & _ & _) Hi Hnt.
  pose proof (lookup_lt_Some _ _ _ Hi) as Hlt.
  destruct (decide (S i < length (pool w))%nat) as [Hlt'|Hge]; [|lia].
  destruct Hnt. by eapply J1.
Qed.

Lemma single_flight_init : single_flight find_issues
    (@AppWorld_init DataSource ColumnTypeMapping DataIssue Exn).
Proof. split_and!; [by intros i t H..|done]. Qed.

Lemma single_flight_clear (w : AppWorld) :
  single_flight find_issues w → quiet_for w None →
  single_flight find_issues (data_source_setter dtype find_issues w None).
Proof.
  intros (J1 & J2 & J3) Hq. unfold data_source_setter, _update_issues. simpl.
  split_and!.
  - done.
  - simpl. intros t Ht Hnt. destruct Hnt.
    eapply Forall_lookup_1 in Hq; done.
  - rewrite last_analysis_lookup. simpl.
    destruct (notify_keeps (set_issues (set_data_source (app w) None) []))
      as (-> & _ & ->). done.
Qed.


Lemma cancel_named_lookup tm nm (p : list Task) i :
  cancel_named tm nm p !! i
  = (λ t, if superseded tm nm i t then Future_cancel t else t) <$> p !! i.
Proof. unfold cancel_named. by rewrite list_lookup_imap. Qed.

Lemma single_flight_assign (w : AppWorld) (table : DataSource) :
  single_flight find_issues w → quiet_for w (Some table) →
  single_flight find_issues
    (data_source_setter dtype find_issues w (Some table)).
Proof.
  intros J Hq. pose proof J as (J1 & J2 & J3).
  unfold data_source_setter, _update_issues, create_task. simpl.
  rewrite run_cancel_callbacks_noop.
  destruct (notify_keeps (set_issues (set_data_source (app w) (Some table)) []))
    as (Hsrc & Htm & Hiss). simpl in Hsrc, Htm, Hiss.
  split_and!; simpl.
  - intros i t Hi Hlt. rewrite length_app, cancel_named_length in Hlt.
    simpl in Hlt. rewrite lookup_app_l in Hi
      by (rewrite cancel_named_length; lia).
    rewrite cancel_named_lookup in Hi.
    destruct (pool w !! i) as [t0|] eqn:Ht0; [|done].
    simpl in Hi. injection Hi as <-.
    destruct (decide (terminal t0)) as [Hterm|Hnt].
    { rewrite (terminal_Future_cancel t0 Hterm).
      by destruct (superseded _ _ _ _). }
    pose proof (outstanding_is_last w i t0 J Ht0 Hnt) as ->.
    destruct (J2 t0 Ht0 Hnt) as (_ & Hin & Hname).
    rewrite Htm. unfold superseded.
    rewrite !bool_decide_eq_true_2 by done. simpl.
    eapply Forall_lookup_1 in Hq; [|done]. simpl in Hq.
    unfold Future_cancel, terminal in *.
    destruct (future t0); [by left|done|tauto|tauto].
  - rewrite length_app, cancel_named_length. simpl.
    replace (pred (length (pool w) + 1)) with (length (pool w)) by lia.
    intros t Ht _. rewrite lookup_app_r in Ht
      by (rewrite cancel_named_length; lia).
    rewrite cancel_named_length, Nat.sub_diag in Ht. injection Ht as <-.
    rewrite Hsrc. split_and!; [by eexists| |done].
    apply elem_of_app. right. by apply list_elem_of_singleton.
  - rewrite Hiss. unfold last_analysis. simpl. by rewrite Hsrc, last_snoc.
Qed.


Lemma single_flight_start (w : AppWorld) (tid : nat) :
  single_flight find_issues w → single_flight find_issues (worker_start w tid).
Proof.
  intros J. pose proof J as (J1 & J2 & J3). unfold worker_start.
  destruct (pool w !! tid) as [t|] eqn:Ht; [|done].
  destruct (future t) eqn:Hf; try done.
  assert (¬ terminal t) as Hnt
    by (unfold terminal; rewrite Hf; intros [|]; done).
  pose proof (outstanding_is_last w tid t J Ht Hnt) as Hlast.
  pose proof (lookup_lt_Some _ _ _ Ht) as Hlt.
  split_and!; simpl; rewrite ?length_insert.
  - intros i t' Hi Hlt'. rewrite list_lookup_insert_ne in Hi by lia.
    by eapply J1.
  - rewrite <- Hlast. rewrite list_lookup_insert_eq by done.
    intros t' [= <-] _. destruct (J2 t) as (H1 & H2 & H3); [congruence|done|].
    rewrite Hlast. done.
  - rewrite J3, !last_analysis_lookup. simpl. rewrite length_insert.
    rewrite <- Hlast, Ht, list_lookup_insert_eq by done. simpl. rewrite Hf.
    by destruct (_data_source (app w)).
Qed.

Lemma single_flight_finish (w : AppWorld) (tid : nat) :
  single_flight find_issues w →
  single_flight find_issues (worker_finish find_issues w tid).
Proof.
  intros J. pose proof J as (J1 & J2 & J3). unfold worker_finish.
  destruct (pool w !! tid) as [t|] eqn:Ht; [|done].
  destruct (future t) eqn:Hf; try done.
  assert (¬ terminal t) as Hnt
    by (unfold terminal; rewrite Hf; intros [|]; done).
  pose proof (outstanding_is_last w tid t J Ht Hnt) as Hlast.
  pose proof (lookup_lt_Some _ _ _ Ht) as Hlt.
  destruct (J2 t) as ([src Hsrc] & _ & _); [congruence|done|].
  rewrite last_analysis_lookup, <- Hlast, Ht, Hf in J3.
  assert (issues (app w) = []) as Hnil
    by (rewrite J3; by destruct (_data_source (app w))).
  split_and!; simpl; rewrite ?length_insert.
  - intros i t' Hi Hlt'. rewrite list_lookup_insert_ne in Hi by lia.
    by eapply J1.
  - rewrite <- Hlast. rewrite list_lookup_insert_eq by done.
    intros t' [= <-] []. by right.
  - rewrite last_analysis_lookup. simpl. rewrite length_insert.
    rewrite <- Hlast, list_lookup_insert_eq by done. simpl.
    unfold Future_result. simpl.
    destruct (find_issues (args t).1 (args t).2) as [e|r]; simpl.
    + by rewrite Hsrc.
    + destruct (notify_keeps
                  (set_issues
                     (set_task_manager (app w)
                        (filter (λ i, i ≠ tid) (task_manager (app w)))) r))
        as (-> & _ & ->). simpl. by rewrite Hsrc.
Qed.

Lemma single_flight_step (w : AppWorld) (e : Event) :
  single_flight find_issues w →
  match e with
  | SetDataSource ds => quiet_for w ds
  | _ => True
  end →
  single_flight find_issues (step dtype find_issues w e).
Proof.
  intros J Hq. destruct e as [[table|]| |tid|tid]; simpl.
  - by apply single_flight_assign.
  - by apply single_flight_clear.
  - destruct J as (J1 & J2 & J3). split_and!; try done.
  - by apply single_flight_start.
  - by apply single_flight_finish.
Qed.

Lemma single_flight_run (w : AppWorld) (es : list Event) :
  single_flight find_issues w → orderly dtype find_issues w es →
  single_flight find_issues (foldl (step dtype find_issues) w es).
Proof.
  revert w. induction es as [|e es IH]; intros w J Ho; [done|].
  destruct Ho as [Hq Ho]. simpl. apply IH; [|done].
  by apply single_flight_step.
Qed.

(** X4. In a run where no analysis is executing when a table is assigned,
    and none is outstanding when the source is cleared, the ordering rule of
    section 4.4 holds at the end: [issues] is the result of the analysis of
    the last assigned table when that analysis has finished with a value and
    the source is still set, and is empty otherwise. *)
Lemma orderly_runs_are_ordered (es : list Event) :
  orderly dtype find_issues AppWorld_init es →
  ordering_as_specified dtype find_issues es.
Proof.
  intros Ho. unfold ordering_as_specified, run_events.
  by destruct (single_flight_run AppWorld_init es single_flight_init Ho)
    as (_ & _ & ?).
Qed.


End Facts.

(** The two clauses of [data_source_setter_contract] that have a premise,
    at an application with a websocket manager and the table "A". *)
Lemma data_source_setter_contract_witness :
  let w := run_app [AttachWebsocketManager] in
  let w' := data_source_setter table_dtype analysis w (Some "A") in
  websocket_manager (app w) = Some {| sent := [] |}
  ∧ broadcasts (app w') = [{| type := "issuesUpdated"; data := None |}]
  ∧ length (pool w') = 1%nat.
Proof.
  intros w w'.
  destruct (data_source_setter_contract table_dtype analysis w (Some "A"))
    as (_ & _ & Hsome & _ & _ & Htask).
  split; [reflexivity|]. split.
  - exact (proj2 (Hsome {| sent := [] |} eq_refl)).
  - exact (proj1 (proj2 (Htask "A" eq_refl))).
Defined.

(** C4 as the specification words it fails without a websocket manager:
    nothing is broadcast by the assignment. *)
Lemma assignment_without_manager_is_silent :
  ¬ assignment_as_specified table_dtype analysis AppWorld_init (Some "A").
Proof.
  unfold assignment_as_specified. intros (_ & Hb & _).
  vm_compute in Hb. discriminate Hb.
Qed.



(** C1 at the burst [stale_burst]: both tasks have finished, the data source
    is "B", and [issues] holds the analysis of "A", the superseded task that
    was already executing when "B" was assigned; the value the ordering rule
    promises is the analysis of "B". *)
Theorem stale_result_overwrites_issues :
  let w := run_app stale_burst in
  _data_source (app w) = Some "B"
  ∧ (future <$> pool w) = [FINISHED; FINISHED]
  ∧ issues (app w) = ["issue of A"]
  ∧ last_analysis analysis w = ["issue of B"]
  ∧ ¬ ordering_as_specified table_dtype analysis stale_burst.
Proof.
  split_and!; try reflexivity.
  unfold ordering_as_specified. intros H. vm_compute in H. discriminate H.
Qed.

(** Clearing the data source schedules nothing and cancels nothing: the
    pending analysis of "A" still runs and fills [issues]. *)
Lemma cleared_source_gets_stale_result :
  let w := run_app cleared_while_pending in
  _data_source (app w) = None
  ∧ (future <$> pool w) = [FINISHED]
  ∧ issues (app w) = ["issue of A"].
Proof. split_and!; reflexivity. Qed.

(** The same burst when the first task is still pending at the second
    assignment: it is cancelled and the rule holds. *)
Lemma cancelled_burst_is_ordered :
  let w := run_app cancelled_burst in
  (future <$> pool w) = [CANCELLED; FINISHED]
  ∧ issues (app w) = ["issue of B"]
  ∧ ordering_as_specified table_dtype analysis cancelled_burst.
Proof. split_and!; reflexivity. Qed.

(** That burst is orderly, so [orderly_runs_are_ordered] applies to it. *)
Lemma cancelled_burst_is_orderly :
  orderly table_dtype analysis AppWorld_init cancelled_burst
  ∧ issues (app (run_app cancelled_burst))
    = last_analysis analysis (run_app cancelled_burst).
Proof.
  assert (orderly table_dtype analysis AppWorld_init cancelled_burst) as Ho.
  { vm_compute. repeat split; repeat constructor; discriminate. }
  split; [exact Ho|].
  exact (orderly_runs_are_ordered table_dtype analysis cancelled_burst Ho).
Defined.

End BackendFacts.

(* ===================================================================== *)
(** * Properties of viewer.py *)
(* ===================================================================== *)

Module ViewerFacts.

Import ViewerPy ViewerScenarios.

Local Open Scope Z_scope.

(** ** The list [_VIEWERS] *)

Lemma elem_of_remove_first (x i : nat) (l : list nat) :
  i ∈ remove_first x l → i ∈ l.
Proof.
  induction l as [|y l IH]; simpl; [done|].
  destruct (decide (x = y)) as [_|_]; intros Hi.
  - apply elem_of_cons. by right.
  - apply elem_of_cons in Hi as [->|Hi]; apply elem_of_cons;
      [by left|right; by apply IH].
Qed.

Lemma remove_first_NoDup (x : nat) (l : list nat) :
  NoDup l → NoDup (remove_first x l) ∧ x ∉ remove_first x l.
Proof.
  induction l as [|y l IH]; simpl; intros Hl.
  - split; [done|apply not_elem_of_nil].
  - apply NoDup_cons in Hl as [Hy Hl]. case_decide as E.
    + subst. done.
    + destruct (IH Hl) as [IH1 IH2]. split.
      * apply NoDup_cons. split; [|done].
        intros Hin. by apply Hy, (elem_of_remove_first x).
      * apply not_elem_of_cons. done.
Qed.

Lemma remove_first_last (l : list nat) (x : nat) :
  x ∉ l → remove_first x (l ++ [x]) = l.
Proof.
  induction l as [|y l IH]; simpl; intros Hx.
  - by case_decide.
  - apply not_elem_of_cons in Hx as [Hxy Hx].
    case_decide; [done|]. by rewrite IH.
Qed.

(** ** Preservation of the registry invariant *)

Lemma registered_ok_heap (w w' : World) (i : nat) :
  heap w' !! i = heap w !! i → registered_ok w i → registered_ok w' i.
Proof. intros E (v & s & H1 & H2 & H3). exists v, s. by rewrite E. Qed.

Lemma inv_same_registry (w w' : World) :
  _VIEWERS w' = _VIEWERS w →
  (∀ i, i ∈ _VIEWERS w → registered_ok w i → registered_ok w' i) →
  registry_invariant w → registry_invariant w'.
Proof.
  intros E H [Hnd Hok]. split; rewrite E; [done|].
  apply Forall_forall. intros i Hi. apply H; [done|].
  by eapply Forall_forall in Hok.
Qed.

Lemma inv_emit_all (w : World) (es : list Effect) :
  registry_invariant w → registry_invariant (emit_all w es).
Proof.
  apply inv_same_registry; [reflexivity|]. intros i _.
  apply registered_ok_heap. reflexivity.
Qed.

Lemma inv_emit (w : World) (e : Effect) :
  registry_invariant w → registry_invariant (emit w e).
Proof.
  apply inv_same_registry; [reflexivity|]. intros i _.
  apply registered_ok_heap. reflexivity.
Qed.

Lemma inv_put (w : World) (self : nat) (v : Viewer) :
  registry_invariant w →
  (self ∈ _VIEWERS w → ∃ s, _server v = Some s ∧ started s = true) →
  registry_invariant (put_viewer w self v).
Proof.
  intros Hinv Hv. apply (inv_same_registry w); [reflexivity| |done].
  intros i Hi (v0 & s0 & H1 & H2 & H3).
  destruct (decide (self = i)) as [->|Hne].
  - destruct (Hv Hi) as (s & Hs & Hst). exists v, s. split; [|done].
    simpl. apply list_lookup_insert_eq. by eapply lookup_lt_Some.
  - exists v0, s0. simpl. by rewrite list_lookup_insert_ne.
Qed.

Lemma inv_new_viewer (w : World) (v : Viewer) :
  registry_invariant w →
  registry_invariant
    {| heap := heap w ++ [v]; _VIEWERS := _VIEWERS w;
       servers_made := servers_made w; effects := effects w |}.
Proof.
  apply inv_same_registry; [reflexivity|].
  intros i _ (v0 & s0 & H1 & H2 & H3). exists v0, s0. simpl.
  rewrite lookup_app_l; [done|]. by eapply lookup_lt_Some.
Qed.

Lemma registered_has_server (w : World) (self : nat) (v : Viewer) :
  registry_invariant w → self ∈ _VIEWERS w → heap w !! self = Some v →
  ∃ s, _server v = Some s ∧ started s = true.
Proof.
  intros [_ Hok] Hin Hv. eapply Forall_forall in Hok; [|done].
  destruct Hok as (v0 & s0 & H1 & H2 & H3).
  rewrite Hv in H1. injection H1 as <-. by exists s0.
Qed.

Lemma unregistered_without_server (w : World) (self : nat) (v : Viewer) :
  registry_invariant w → heap w !! self = Some v → _server v = None →
  self ∉ _VIEWERS w.
Proof.
  intros Hinv Hv Hs Hin.
  destruct (registered_has_server w self v Hinv Hin Hv) as (s & Hs' & _).
  congruence.
Qed.

Lemma inv_init_server (w : World) (self : nat) (os : option Z) :
  registry_invariant w → registry_invariant (fst (_init_server w self os)).
Proof.
  intros Hinv. unfold _init_server.
  destruct (heap w !! self) as [v|] eqn:Hv; [|done].
  destruct (_server v) as [s0|] eqn:Hs; [done|].
  pose proof (unregistered_without_server w self v Hinv Hv Hs) as Hnin.
  assert (self < length (heap w))%nat as Hlt by by eapply lookup_lt_Some.
  destruct os as [free|]; simpl.
  - rewrite bool_decide_eq_false_2 by done.
    destruct Hinv as [Hnd Hok]. split; simpl.
    + apply NoDup_app. split_and!; [done| |apply NoDup_singleton].
      intros i Hi ->%list_elem_of_singleton. done.
    + apply Forall_app. split.
      * apply Forall_forall. intros i Hi.
        eapply Forall_forall in Hok; [|done].
        destruct Hok as (v0 & s0 & H1 & H2 & H3). exists v0, s0. simpl.
        rewrite !list_lookup_insert_ne by congruence. done.
      * apply Forall_singleton. eexists _, _. simpl. split_and!.
        -- apply list_lookup_insert_eq. by rewrite length_insert.
        -- reflexivity.
        -- reflexivity.
  - apply (inv_same_registry w); [reflexivity| |done].
    intros i Hi (v0 & s0 & H1 & H2 & H3). exists v0, s0. simpl.
    rewrite list_lookup_insert_ne by congruence. done.
Qed.

(** The state after [close] has gone through its last three statements:
    the viewer has left the list, and the other viewers are untouched. *)
Lemma inv_close_tail (w : World) (self : nat) (v : Viewer) (s : Server) :
  registry_invariant w →
  registry_invariant (close_tail w self v s)
  ∧ self ∉ _VIEWERS (close_tail w self v s).
Proof.
  intros [Hnd Hok]. destruct (remove_first_NoDup self _ Hnd) as [Hnd' Hnin].
  split; [split|]; simpl; [done| |done].
  apply Forall_forall. intros i Hi.
  assert (i ≠ self) as Hne by (intros ->; done).
  apply elem_of_remove_first in Hi. eapply Forall_forall in Hok; [|done].
  destruct Hok as (v0 & s0 & H1 & H2 & H3). exists v0, s0. simpl.
  rewrite list_lookup_insert_ne by congruence. done.
Qed.

Lemma close_unregistered (w : World) (self : nat) (wait : bool)
    (o : WaitOutcome) :
  self ∉ _VIEWERS w → Viewer_close w self wait o = (w, Ok tt).
Proof.
  intros Hnin. unfold Viewer_close.
  destruct (heap w !! self); [|done].
  by rewrite bool_decide_eq_false_2.
Qed.

(** What [close] does to a registered viewer: it waits when asked to, goes
    through the last three statements, and the interrupt of the wait leaves
    the call afterwards. *)
Lemma close_registered (w : World) (self : nat) (wait : bool)
    (o : WaitOutcome) :
  registry_invariant w → self ∈ _VIEWERS w →
  ∃ v s, heap w !! self = Some v ∧ _server v = Some s ∧ started s = true
    ∧ Viewer_close w self wait o
      = (close_tail
           (if wait then emit w (WaitedForDisconnect (server_id s)) else w)
           self v s,
         match wait, o with
         | true, Interrupted => Raise KeyboardInterrupt
         | _, _ => Ok tt
         end).
Proof.
  intros Hinv Hin.
  pose proof Hinv as [_ Hok]. eapply Forall_forall in Hok; [|done].
  destruct Hok as (v & s & Hv & Hs & Hst). exists v, s.
  split_and!; [done..|].
  unfold Viewer_close, Viewer_close_now. simpl. rewrite Hv, Hs.
  rewrite bool_decide_eq_true_2 by done.
  destruct wait, o; reflexivity.
Qed.

Lemma inv_close (w : World) (self : nat) (wait : bool) (o : WaitOutcome) :
  registry_invariant w →
  registry_invariant (fst (Viewer_close w self wait o))
  ∧ self ∉ _VIEWERS (fst (Viewer_close w self wait o)).
Proof.
  intros Hinv. destruct (decide (self ∈ _VIEWERS w)) as [Hin|Hnin].
  - destruct (close_registered w self wait o Hinv Hin)
      as (v & s & _ & _ & _ & ->). simpl.
    apply inv_close_tail. destruct wait; [by apply inv_emit|done].
  - by rewrite close_unregistered.
Qed.

Lemma configure_keeps (s : Server) (v : Viewer) (a : ShowArgs) :
  server_id (fst (configure s v a)) = server_id s
  ∧ server_port (fst (configure s v a)) = server_port s
  ∧ started (fst (configure s v a)) = started s.
Proof.
  unfold configure, apply_dataset.
  destruct (analyze a), (dataset_or_folder a), (dtype a),
    (_dataset_or_folder v) as [[| |]|], (issues a), (layout a); done.
Qed.

Lemma inv_Viewer_show (w : World) (self : nat) (a : ShowArgs) (env : Env) :
  registry_invariant w → registry_invariant (fst (Viewer_show w self a env)).
Proof.
  intros Hinv. unfold Viewer_show.
  destruct (heap w !! self) as [v0|] eqn:Hv0; [|done].
  set (w1 := put_viewer w self (remember_dataset v0 a env)).
  assert (registry_invariant w1) as Hinv1.
  { apply inv_put; [done|]. intros Hin.
    by apply (registered_has_server w self v0). }
  pose proof (inv_init_server w1 self (os_port env) Hinv1) as Hinv2.
  destruct (_init_server w1 self (os_port env)) as [w2 [[]|e]]; [|done].
  simpl in Hinv2.
  destruct (heap w2 !! self) as [v|] eqn:Hv; [|done].
  destruct (_server v) as [s|] eqn:Hs; [|done].
  destruct (configure s v a) as [s' refreshed] eqn:Hc.
  match goal with
  | |- registry_invariant (fst (if ?b then _ else (?w3, _))) =>
      assert (registry_invariant w3) as Hinv3; [|destruct b; [|done]]
  end.
  - apply inv_emit_all, inv_put; [done|]. intros Hin.
    destruct (registered_has_server w2 self v Hinv2 Hin Hv) as (s0 & Hs0 & Hst).
    exists s'. split; [done|].
    destruct (configure_keeps s v a) as (_ & _ & Hk).
    rewrite Hc in Hk. simpl in Hk. congruence.
  - by apply inv_close.
Qed.

Lemma inv_show (w : World) host port (a : ShowArgs) (env : Env) :
  registry_invariant w → registry_invariant (fst (show w host port a env)).
Proof.
  intros Hinv. unfold show.
  destruct (match port with
            | auto => None
            | explicit p => show_scan (heap w) p (_VIEWERS w) None
            end); simpl.
  - by apply inv_Viewer_show.
  - by apply inv_Viewer_show, inv_new_viewer.
Qed.

Lemma inv_module_close (w : World) (port : CloseArg) :
  registry_invariant w → registry_invariant (fst (close w port)).
Proof.
  intros Hinv. unfold close. destruct port as [|p].
  - destruct (last (_VIEWERS w)); [by apply inv_close|done].
  - destruct (close_scan (heap w) p (_VIEWERS w)); [by apply inv_close|done].
Qed.

Lemma inv_frontends (w : World) (self : nat) (f : nat → nat) :
  registry_invariant w → registry_invariant (frontends w self f).
Proof.
  intros Hinv. unfold frontends.
  destruct (heap w !! self) as [v|] eqn:Hv; [|done].
  destruct (_server v) as [s|] eqn:Hs; [|done].
  apply inv_put; [done|]. intros Hin.
  destruct (registered_has_server w self v Hinv Hin Hv) as (s0 & Hs0 & Hst).
  eexists. split; [reflexivity|]. simpl. congruence.
Qed.

Lemma inv_exec (w : World) (op : Op) :
  registry_invariant w → registry_invariant (exec w op).
Proof.
  intros Hinv. destruct op; simpl.
  - by apply inv_new_viewer.
  - by apply inv_Viewer_show.
  - by apply inv_close.
  - by apply inv_show.
  - by apply inv_module_close.
  - by apply inv_frontends.
  - by apply inv_frontends.
Qed.

Lemma inv_init : registry_invariant World_init.
Proof. split; simpl; [apply NoDup_nil_2|apply Forall_nil_2]. Qed.

Lemma run_snoc (ops : list Op) (op : Op) :
  run (ops ++ [op]) = exec (run ops) op.
Proof. unfold run. by rewrite foldl_app. Qed.

Lemma inv_run (ops : list Op) : registry_invariant (run ops).
Proof.
  induction ops as [|op ops IH] using rev_ind; [apply inv_init|].
  rewrite run_snoc. by apply inv_exec.
Qed.

Lemma remove_first_other (x i : nat) (l : list nat) :
  i ≠ x → i ∈ l → i ∈ remove_first x l.
Proof.
  intros Hne. induction l as [|y l IH]; simpl; [done|].
  intros [->|Hi]%elem_of_cons.
  - destruct (decide (x = y)) as [E|_]; [congruence|].
    apply elem_of_cons. by left.
  - destruct (decide (x = y)) as [_|_]; [done|].
    apply elem_of_cons. right. by apply IH.
Qed.

Lemma server_of_close_tail (w : World) (self : nat) (v : Viewer) (s : Server) :
  heap w !! self = Some v → server_of (close_tail w self v s) self = None.
Proof.
  intros Hv. unfold server_of. simpl.
  rewrite list_lookup_insert_eq by by eapply lookup_lt_Some. done.
Qed.

(** ** The lifecycle of one viewer *)

(** C8. The registry invariant holds in every state a program can reach,
    and after every further [show] and [close] of a viewer: a viewer is
    listed at most once, a listed viewer has a server that was started, and
    when [close] is over the viewer is no longer listed. *)
Theorem registry_invariant_holds (ops : list Op) :
  let w := run ops in
  registry_invariant w
  ∧ (∀ self a env, registry_invariant (fst (Viewer_show w self a env)))
  ∧ (∀ self wait o,
       registry_invariant (fst (Viewer_close w self wait o))
       ∧ self ∉ viewers (fst (Viewer_close w self wait o))).
Proof.
  simpl. split_and!.
  - apply inv_run.
  - intros. apply inv_Viewer_show, inv_run.
  - intros. apply inv_close, inv_run.
Qed.

(** C5. [Viewer.close] changes nothing and returns when the viewer is not
    listed. For a listed viewer it removes the viewer from the list, stops
    its server once and drops it, so that [viewers()] no longer shows the
    viewer while the other viewers stay listed; a further [close] of the same
    viewer returns without an error and without any effect. *)
Theorem Viewer_close_contract (ops : list Op) (self : nat) (wait : bool)
    (o : WaitOutcome) :
  let w := run ops in
  let w' := fst (Viewer_close w self wait o) in
  (self ∉ viewers w → Viewer_close w self wait o = (w, Ok tt))
  ∧ (self ∈ viewers w →
       ∃ s, (server_of w self = Some s)
         ∧ (self ∉ viewers w')
         ∧ (∀ i, i ≠ self → i ∈ viewers w → i ∈ viewers w')
         ∧ server_of w' self = None
         ∧ effects w'
           = effects w
             ++ (if wait then [WaitedForDisconnect (server_id s)] else [])
             ++ [ServerStopped (server_id s)]
         ∧ ∀ wait' o', Viewer_close w' self wait' o' = (w', Ok tt)).
Proof.
  simpl. split; [apply close_unregistered|]. intros Hin.
  pose proof (inv_run ops) as Hinv.
  destruct (inv_close (run ops) self wait o Hinv) as [_ Hnin].
  destruct (close_registered (run ops) self wait o Hinv Hin)
    as (v & s & Hv & Hs & _ & Hc).
  exists s. rewrite Hc in *. simpl in *. split_and!.
  - unfold server_of. by rewrite Hv.
  - done.
  - intros i Hne Hi. apply remove_first_other; [done|]. by destruct wait.
  - apply server_of_close_tail. by destruct wait.
  - destruct wait; simpl; [by rewrite <- app_assoc|done].
  - intros. by apply close_unregistered.
Qed.

(** C7. When the wait of [close(wait=True)] on a listed viewer is
    interrupted, the viewer is removed from the list and its server is
    stopped and dropped, and only then [KeyboardInterrupt] leaves the call. *)
Theorem close_interrupted_forces_close (ops : list Op) (self : nat) :
  let w := run ops in
  self ∈ viewers w →
  ∃ s, server_of w self = Some s ∧ started s = true
    ∧ snd (Viewer_close w self true Interrupted) = Raise KeyboardInterrupt
    ∧ (self ∉ viewers (fst (Viewer_close w self true Interrupted)))
    ∧ server_of (fst (Viewer_close w self true Interrupted)) self = None
    ∧ effects (fst (Viewer_close w self true Interrupted))
      = effects w ++ [WaitedForDisconnect (server_id s);
                      ServerStopped (server_id s)].
Proof.
  simpl. intros Hin. pose proof (inv_run ops) as Hinv.
  destruct (inv_close (run ops) self true Interrupted Hinv) as [_ Hnin].
  destruct (close_registered (run ops) self true Interrupted Hinv Hin)
    as (v & s & Hv & Hs & Hst & Hc).
  exists s. rewrite Hc in *. simpl in *. split_and!; try done.
  - unfold server_of. by rewrite Hv.
  - by apply server_of_close_tail.
  - by rewrite <- app_assoc.
Qed.

(** C9. The property [port] is [None] exactly when the viewer owns no
    server, and the port of the server otherwise; [running] is false without
    a server. A new viewer owns none; a listed viewer owns one, and owns
    none again once [close] has run. *)
Theorem Viewer_port_contract :
  (∀ v : Viewer,
     (Viewer_port v = None ↔ _server v = None)
     ∧ (∀ s, _server v = Some s → Viewer_port v = Some (server_port s))
     ∧ (_server v = None → Viewer_running v = false))
  ∧ (∀ host port,
       _server (Viewer_init host port) = None
       ∧ Viewer_port (Viewer_init host port) = None
       ∧ Viewer_running (Viewer_init host port) = false)
  ∧ (∀ ops self wait o,
       self ∈ viewers (run ops) →
       is_Some (port_of (run ops) self)
       ∧ server_of (fst (Viewer_close (run ops) self wait o)) self = None
       ∧ port_of (fst (Viewer_close (run ops) self wait o)) self = None).
Proof.
  split_and!.
  - intros v. unfold Viewer_port, Viewer_running.
    destruct (_server v); split_and!; try done. by intros ? [= ->].
  - done.
  - intros ops self wait o Hin. pose proof (inv_run ops) as Hinv.
    destruct (close_registered (run ops) self wait o Hinv Hin)
      as (v & s & Hv & Hs & _ & Hc).
    rewrite Hc. simpl. unfold port_of, server_of. simpl.
    rewrite Hv. simpl. unfold Viewer_port at 1. rewrite Hs.
    split; [by eexists|].
    rewrite list_lookup_insert_eq; [done|].
    destruct wait; by eapply lookup_lt_Some.
Qed.

(** ** The functions of the module *)

Lemma close_scan_Some (h : list Viewer) (p : Z) (vs : list nat) (i : nat) :
  close_scan h p vs = Some i → i ∈ vs ∧ h !! i ≫= Viewer_port = Some p.
Proof.
  induction vs as [|j vs IH]; simpl; [done|].
  case_bool_decide as E.
  - intros [= <-]. split; [apply elem_of_cons; by left|done].
  - intros H. destruct (IH H) as [H1 H2]. split; [|done].
    apply elem_of_cons. by right.
Qed.

Lemma close_scan_None (h : list Viewer) (p : Z) (vs : list nat) :
  close_scan h p vs = None ↔ ∀ i, i ∈ vs → h !! i ≫= Viewer_port ≠ Some p.
Proof.
  induction vs as [|j vs IH]; simpl.
  - split; [|done]. intros _ i Hi. by apply elem_of_nil in Hi.
  - case_bool_decide as E.
    + split; [done|]. intros H.
      destruct (H j); [apply elem_of_cons; by left|done].
    + rewrite IH. split.
      * intros H i [->|Hi]%elem_of_cons; [done|by apply H].
      * intros H i Hi. apply H, elem_of_cons. by right.
Qed.

Lemma show_scan_miss (h : list Viewer) (p : Z) (vs : list nat)
    (viewer : option nat) :
  (∀ i, i ∈ vs → h !! i ≫= Viewer_port ≠ Some p) →
  show_scan h p vs viewer = match last vs with
                            | Some i => Some i
                            | None => viewer
                            end.
Proof.
  revert viewer. induction vs as [|j vs IH]; intros viewer Hmiss; [done|].
  simpl show_scan. rewrite bool_decide_eq_false_2.
  - rewrite IH.
    + rewrite last_cons. by destruct (last vs).
    + intros i Hi. apply Hmiss, elem_of_cons. by right.
  - apply Hmiss, elem_of_cons. by left.
Qed.

Lemma show_scan_hit (h : list Viewer) (p : Z) (vs : list nat)
    (viewer : option nat) :
  (∃ i, i ∈ vs ∧ h !! i ≫= Viewer_port = Some p) →
  ∃ i, show_scan h p vs viewer = Some i
       ∧ i ∈ vs ∧ h !! i ≫= Viewer_port = Some p.
Proof.
  revert viewer. induction vs as [|j vs IH]; intros viewer (i & Hi & Hp).
  - by apply elem_of_nil in Hi.
  - simpl. case_bool_decide as E.
    + exists j. split_and!; [done| |done]. apply elem_of_cons. by left.
    + apply elem_of_cons in Hi as [->|Hi]; [done|].
      destruct (IH (Some j)) as (k & Hk & Hin & Hkp); [by exists i|].
      exists k. split_and!; [done| |done]. apply elem_of_cons. by right.
Qed.

(** [show] with the port of a listed viewer calls [Viewer.show] on such a
    viewer and makes no new one. *)
Lemma show_reuses_matching_port (w : World) host (p : Z) (a : ShowArgs)
    (env : Env) :
  (∃ i, i ∈ viewers w ∧ port_of w i = Some p) →
  ∃ i, i ∈ viewers w ∧ port_of w i = Some p
       ∧ show w host (explicit p) a env
         = (fst (Viewer_show w i a env), (i, snd (Viewer_show w i a env))).
Proof.
  intros H. destruct (show_scan_hit (heap w) p (_VIEWERS w) None H)
    as (i & Hs & Hin & Hp).
  exists i. split_and!; [done..|]. unfold show. by rewrite Hs.
Qed.

(** [show] with the port "auto", or with an empty list of viewers, makes a
    new viewer and shows it. *)
Lemma show_creates (w : World) host (port : PortArg) (a : ShowArgs)
    (env : Env) :
  port = auto ∨ viewers w = [] →
  let w1 := {| heap := heap w ++ [Viewer_init host port];
               _VIEWERS := _VIEWERS w; servers_made := servers_made w;
               effects := effects w |} in
  show w host port a env
  = (fst (Viewer_show w1 (length (heap w)) a env),
     (length (heap w), snd (Viewer_show w1 (length (heap w)) a env))).
Proof.
  intros [->|Hnil]; [done|]. unfold show, viewers in *.
  destruct port; [done|]. by rewrite Hnil.
Qed.

(** [show] with a port that no listed viewer has, while some viewer is
    listed, calls [Viewer.show] on the viewer listed last. *)
Lemma show_miss_reuses_last (w : World) host (p : Z) (a : ShowArgs)
    (env : Env) (i : nat) :
  (∀ j, j ∈ viewers w → port_of w j ≠ Some p) →
  last (viewers w) = Some i →
  show w host (explicit p) a env
  = (fst (Viewer_show w i a env), (i, snd (Viewer_show w i a env))).
Proof.
  intros Hmiss Hlast. unfold show, viewers in *.
  rewrite (show_scan_miss _ _ _ None Hmiss). by rewrite Hlast.
Qed.

(** C3 at a state with one viewer at port 5001: [show] with the port 5002
    returns that viewer, still at port 5001, and makes no new viewer, where
    the comment in [show] and the specification ask for a new one. *)
Theorem show_port_miss_reuses_last_viewer :
  let w := run one_viewer in
  let r := show w "127.0.0.1" (explicit 5002) plain (session 50001) in
  viewers w = [0%nat] ∧ port_of w 0 = Some 5001
  ∧ fst (snd r) = 0%nat ∧ snd (snd r) = Ok tt
  ∧ length (heap (fst r)) = 1%nat
  ∧ viewers (fst r) = [0%nat]
  ∧ port_of (fst r) 0 = Some 5001
  ∧ ¬ open_as_specified w "127.0.0.1" 5002 plain (session 50001).
Proof.
  split_and!; try reflexivity.
  intros [_ Hnew]. destruct Hnew as [Hid _].
  - intros i Hi. apply list_elem_of_singleton in Hi as ->. by vm_compute.
  - vm_compute in Hid. discriminate Hid.
Qed.

(** ** The statements above at concrete programs *)

Lemma one_viewer_listed : 0%nat ∈ viewers (run one_viewer).
Proof. vm_compute. apply list_elem_of_here. Defined.

(** [Viewer_close_contract] at the one viewer of [one_viewer]. *)
Lemma Viewer_close_contract_witness :
  0%nat ∈ viewers (run one_viewer)
  ∧ (0%nat ∉ viewers (fst (Viewer_close (run one_viewer) 0 false Disconnected)))
  ∧ effects (fst (Viewer_close (run one_viewer) 0 false Disconnected))
    = effects (run one_viewer) ++ [ServerStopped 0].
Proof.
  split; [exact one_viewer_listed|].
  destruct (proj2 (Viewer_close_contract one_viewer 0 false Disconnected)
              one_viewer_listed) as (s & Hs & Hnin & _ & _ & He & _).
  split; [exact Hnin|].
  vm_compute in Hs. injection Hs as <-. exact He.
Defined.

(** [close_interrupted_forces_close] at the one viewer of [one_viewer]. *)
Lemma close_interrupted_forces_close_witness :
  0%nat ∈ viewers (run one_viewer)
  ∧ snd (Viewer_close (run one_viewer) 0 true Interrupted)
    = Raise KeyboardInterrupt
  ∧ (0%nat ∉ viewers (fst (Viewer_close (run one_viewer) 0 true Interrupted))).
Proof.
  split; [exact one_viewer_listed|].
  destruct (close_interrupted_forces_close one_viewer 0 one_viewer_listed)
    as (s & _ & _ & Hr & Hnin & _).
  split; [exact Hr | exact Hnin].
Defined.

(** [Viewer_port_contract] at the one viewer of [one_viewer]. *)
Lemma Viewer_port_contract_witness :
  0%nat ∈ viewers (run one_viewer)
  ∧ port_of (fst (Viewer_close (run one_viewer) 0 false Disconnected)) 0 = None.
Proof.
  split; [exact one_viewer_listed|].
  destruct Viewer_port_contract as (_ & _ & Hclose).
  exact (proj2 (proj2 (Hclose one_viewer 0%nat false Disconnected
                         one_viewer_listed))).
Defined.

(** C6 as the specification words it fails at [shown_in_reverse]: viewer 1
    was created last and is listed first; [close] with "last" closes viewer
    0, which was started last, and viewer 1 stays listed. *)
Lemma close_last_closes_last_started :
  viewers (run shown_in_reverse) = [1%nat; 0%nat]
  ∧ most_recently_created (run shown_in_reverse) = Some 1%nat
  ∧ viewers (fst (close (run shown_in_reverse) last_viewer)) = [1%nat]
  ∧ ¬ close_last_as_specified (run shown_in_reverse).
Proof.
  split_and!; [by vm_compute..|].
  unfold close_last_as_specified. intros H. vm_compute in H.
  destruct H as [_ Hnin]. apply Hnin, list_elem_of_here.
Qed.

End ViewerFacts.

(* ===================================================================== *)
(** * Properties of huggingface_datasource.py *)
(* ===================================================================== *)

Module HuggingfaceFacts.

Import Huggingface HuggingfaceScenarios.

Local Open Scope Z_scope.

Lemma is_full_slice_spec (start stop step : option Z) :
  is_full_slice start stop step = true ↔ Slice start stop step = full_slice.
Proof.
  unfold is_full_slice, full_slice. split.
  - intros H. apply andb_prop in H as [H H3]. apply andb_prop in H as [H1 H2].
    apply bool_decide_eq_true in H1, H2, H3. by subst.
  - intros [= -> -> ->]. done.
Qed.

Lemma take_rows_raises (col : list ArrowValue) (l : list Z) (e : PyExc) :
  take_rows col l = Raise e → e = IndexError.
Proof.
  induction l as [|i l IH]; simpl; [done|].
  case_decide; [by intros [= <-]|].
  destruct (col !! Z.to_nat i); [|by intros [= <-]].
  destruct (take_rows col l); [done|]. intros [= <-]. by apply IH.
Qed.

Lemma take_raises (col : list ArrowValue) (l : list Z) (e : PyExc) :
  take col l = Raise e →
  e = IndexError ∨ e = ArrowNotImplementedError ∨ e = OverflowError.
Proof.
  unfold take. destruct (forallb fits_int64 l).
  - destruct l as [|i l].
    + intros [= <-]. by right; left.
    + intros H. left. by eapply take_rows_raises.
  - intros [= <-]. by right; right.
Qed.

Lemma map_res_raises {A B} (f : A → Res B) (l : list A) (e : PyExc) :
  map_res f l = Raise e → ∃ x, x ∈ l ∧ f x = Raise e.
Proof.
  induction l as [|x l IH]; simpl; [done|].
  destruct (f x) as [y|e'] eqn:E.
  - destruct (map_res f l); [done|]. intros [= <-].
    destruct IH as (x' & Hin & Hx'); [done|].
    exists x'. split; [|done]. apply elem_of_cons. by right.
  - intros [= <-]. exists x. split; [|done]. apply elem_of_cons. by left.
Qed.

Lemma bytes_or_path_raises (v : ArrowValue) (e : PyExc) :
  bytes_or_path v = Raise e → e = TypeError.
Proof. destruct v as [| |[] []]; simpl; by intros [= <-]. Qed.

Lemma bytes_of_raises (v : ArrowValue) (e : PyExc) :
  bytes_of v = Raise e → e = TypeError.
Proof. destruct v as [| |[] ?]; simpl; by intros [= <-]. Qed.

(** Past the choice of the raw values no assertion is made. *)
Lemma convert_never_asserts (d : Dataset) (c : string) (raw : list ArrowValue) :
  match features d !! c with
  | None => Raise (KeyError c)
  | Some Audio | Some Image => map_res bytes_or_path raw
  | Some (DictFeature _) => map_res bytes_of raw
  | Some _ => Ok (to_numpy <$> raw)
  end ≠ Raise AssertionError.
Proof.
  destruct (features d !! c) as [[]|]; try done.
  - intros (x & _ & Hx)%map_res_raises. by apply bytes_or_path_raises in Hx.
  - intros (x & _ & Hx)%map_res_raises. by apply bytes_or_path_raises in Hx.
  - intros (x & _ & Hx)%map_res_raises. by apply bytes_of_raises in Hx.
Qed.

(** C10. For every dataset and column, [get_column_values] with a slice
    other than [slice(None)] fails the assertion and returns nothing. The
    full slice and a collection of indices never fail it: for a column of
    plain values the full slice returns the whole column, and the indices
    return the values taken at them. *)
Theorem get_column_values_slices (d : Dataset) (c : string) :
  (∀ start stop step,
     Slice start stop step ≠ full_slice →
     get_column_values d c (Slice start stop step) = Raise AssertionError)
  ∧ get_column_values d c full_slice ≠ Raise AssertionError
  ∧ (∀ l, get_column_values d c (IndexList l) ≠ Raise AssertionError)
  ∧ (∀ col t,
       data d !! c = Some col → features d !! c = Some (Value t) →
       get_column_values d c full_slice = Ok (to_numpy <$> col)
       ∧ ∀ l vals, take col l = Ok vals →
           get_column_values d c (IndexList l) = Ok (to_numpy <$> vals)).
Proof.
  split_and!.
  - intros start stop step Hne. unfold get_column_values, raw_values.
    destruct (is_full_slice start stop step) eqn:E; [|done].
    by apply is_full_slice_spec in E.
  - unfold get_column_values, raw_values, full_slice. simpl.
    destruct (data d !! c); [|done]. apply convert_never_asserts.
  - intros l. unfold get_column_values, raw_values.
    destruct (data d !! c) as [col|]; [|done].
    destruct (take col l) as [raw|e] eqn:E; [apply convert_never_asserts|].
    apply take_raises in E as [->|[->| ->]]; done.
  - intros col t Hcol Hfeat. unfold get_column_values, raw_values, full_slice.
    simpl. rewrite Hcol, Hfeat. split; [done|].
    intros l vals Hl. by rewrite Hl.
Qed.

(** [get_column_values_slices] at the slice [0:2] of the column "label". *)
Lemma get_column_values_slices_witness :
  Slice (Some 0) (Some 2) None ≠ full_slice
  ∧ get_column_values two_columns "label" (Slice (Some 0) (Some 2) None)
    = Raise AssertionError
  ∧ get_column_values two_columns "label" full_slice
    = Ok [PyInt 3; PyInt 1; PyInt 4].
Proof.
  assert (Slice (Some 0) (Some 2) None ≠ full_slice) as Hne by discriminate.
  destruct (get_column_values_slices two_columns "label")
    as (Hpart & _ & _ & Hfull).
  split; [exact Hne|]. split.
  - exact (Hpart (Some 0) (Some 2) None Hne).
  - exact (proj1 (Hfull [Scalar 3; Scalar 1; Scalar 4] "int64"
                    eq_refl eq_refl)).
Defined.

End HuggingfaceFacts.

(* ===================================================================== *)
(** * Further properties of backend/types.py *)
(* ===================================================================== *)

Module BackendMore.
Import Backend Scenarios BackendFacts BackendRuns.

Section Runs.

Context {DataSource ColumnTypeMapping DataIssue Exn : Type}.
Variable dtype : DataSource → ColumnTypeMapping.
Variable find_issues : DataSource → ColumnTypeMapping → Exn + list DataIssue.

Local Abbreviation Task := (@Task DataSource ColumnTypeMapping).
Local Abbreviation AppWorld :=
  (@AppWorld DataSource ColumnTypeMapping DataIssue Exn).
Local Abbreviation SpotlightApp := (@SpotlightApp DataSource DataIssue).
Local Abbreviation Event := (@Event DataSource).

Lemma run_events_snoc (es : list Event) (e : Event) :
  run_events dtype find_issues (es ++ [e])
  = step dtype find_issues (run_events dtype find_issues es) e.
Proof. unfold run_events. by rewrite foldl_app. Qed.

Lemma assigned_snoc (es : list Event) (e : Event) :
  assigned (es ++ [e])
  = assigned es ++ match e with
                   | SetDataSource (Some table) => [table]
                   | _ => []
                   end.
Proof.
  unfold assigned. rewrite omap_app. f_equal.
  by destruct e as [[]| | |].
Qed.

Lemma args_Future_cancel (t : Task) : args (Future_cancel t) = args t.
Proof. unfold Future_cancel. by destruct (future t). Qed.

Lemma cancel_named_args tm nm (p : list Task) :
  args <$> cancel_named tm nm p = args <$> p.
Proof.
  unfold cancel_named. apply list_eq. intros i.
  rewrite !list_lookup_fmap, list_lookup_imap.
  destruct (p !! i) as [t|]; simpl; [|done].
  destruct (superseded tm nm i t); [by rewrite args_Future_cancel|done].
Qed.

Lemma cancel_named_names tm nm (p : list Task) :
  name <$> cancel_named tm nm p = name <$> p.
Proof.
  unfold cancel_named. apply list_eq. intros i.
  rewrite !list_lookup_fmap, list_lookup_imap.
  destruct (p !! i) as [t|]; simpl; [|done].
  destruct (superseded tm nm i t); [by rewrite name_Future_cancel|done].
Qed.

Lemma insert_set_future (p : list Task) (tid : nat) (t : Task)
    (st : FutureState) :
  p !! tid = Some t →
  args <$> <[tid := set_future t st]> p = args <$> p
  ∧ name <$> <[tid := set_future t st]> p = name <$> p.
Proof.
  intros Ht. rewrite !list_fmap_insert. simpl.
  split; apply list_insert_id; by rewrite list_lookup_fmap, Ht.
Qed.

(** The tasks of the pool and the assignments of the run correspond. *)
Lemma pool_of_run (es : list Event) :
  args <$> pool (run_events dtype find_issues es)
  = (λ table, (table, dtype table)) <$> assigned es
  ∧ Forall (λ n, n = "update_issues")
           (name <$> pool (run_events dtype find_issues es)).
Proof.
  induction es as [|e es [IH1 IH2]] using rev_ind; [done|].
  rewrite run_events_snoc, assigned_snoc, fmap_app.
  set (w := run_events dtype find_issues es) in *.
  destruct e as [[table|]| |tid|tid]; simpl.
  - unfold data_source_setter, _update_issues, create_task. simpl.
    rewrite !fmap_app, cancel_named_args, cancel_named_names, IH1.
    split; [done|]. apply Forall_app. split; [done|by repeat constructor].
  - by rewrite app_nil_r.
  - by rewrite app_nil_r.
  - rewrite app_nil_r. unfold worker_start.
    destruct (pool w !! tid) as [t|] eqn:Ht; [|done].
    destruct (future t); try done. simpl.
    by destruct (insert_set_future (pool w) tid t RUNNING Ht) as [-> ->].
  - rewrite app_nil_r. unfold worker_finish.
    destruct (pool w !! tid) as [t|] eqn:Ht; [|done].
    destruct (future t); try done. simpl.
    by destruct (insert_set_future (pool w) tid t FINISHED Ht) as [-> ->].
Qed.

Lemma setter_clears (w : AppWorld) (ds : option DataSource) :
  issues (app (data_source_setter dtype find_issues w ds)) = []
  ∧ callback_errors (data_source_setter dtype find_issues w ds)
    = callback_errors w.
Proof.
  unfold data_source_setter, _update_issues, create_task.
  destruct (notify_keeps (set_issues (set_data_source (app w) ds) []))
    as (_ & _ & Hi).
  destruct ds; simpl; rewrite ?run_cancel_callbacks_noop; done.
Qed.

(** Where a value of [issues] and a logged error come from. *)
Lemma provenance_of_run (es : list Event) :
  (issues (app (run_events dtype find_issues es)) = []
   ∨ ∃ table, table ∈ assigned es
       ∧ find_issues table (dtype table)
         = inr (issues (app (run_events dtype find_issues es))))
  ∧ Forall (λ e, ∃ table, table ∈ assigned es
                   ∧ find_issues table (dtype table) = inl e)
           (callback_errors (run_events dtype find_issues es)).
Proof.
  induction es as [|e es [IH1 IH2]] using rev_ind.
  { split; [by left|constructor]. }
  assert (∀ table, table ∈ assigned es → table ∈ assigned (es ++ [e]))
    as Hmono.
  { intros table H. rewrite assigned_snoc. apply elem_of_app. by left. }
  assert (Forall (λ e0, ∃ table, table ∈ assigned (es ++ [e])
                          ∧ find_issues table (dtype table) = inl e0)
            (callback_errors (run_events dtype find_issues es))) as IH2'.
  { eapply Forall_impl; [exact IH2|]. intros e0 (table & H1 & H2). eauto. }
  assert (issues (app (run_events dtype find_issues es)) = []
          ∨ ∃ table, table ∈ assigned (es ++ [e])
              ∧ find_issues table (dtype table)
                = inr (issues (app (run_events dtype find_issues es))))
    as IH1'.
  { destruct IH1 as [|(table & H1 & H2)]; [by left|right; eauto]. }
  destruct (pool_of_run es) as [Hargs _].
  rewrite run_events_snoc.
  set (w := run_events dtype find_issues es) in *.
  destruct e as [ds| |tid|tid]; simpl.
  - destruct (setter_clears w ds) as [-> ->]. split; [by left|done].
  - done.
  - unfold worker_start. destruct (pool w !! tid) as [t|]; [|done].
    by destruct (future t).
  - unfold worker_finish. destruct (pool w !! tid) as [t|] eqn:Ht; [|done].
    destruct (future t); try done. simpl.
    assert (∃ table, table ∈ assigned (es ++ [WorkerFinish tid])
              ∧ args t = (table, dtype table)) as (table & Hin & Ha).
    { assert ((args <$> pool w) !! tid = Some (args t)) as H
        by by rewrite list_lookup_fmap, Ht.
      rewrite Hargs, list_lookup_fmap in H.
      destruct (assigned es !! tid) as [table|] eqn:E; [|done].
      exists table. split; [|by injection H].
      apply Hmono. by eapply list_elem_of_lookup_2. }
    unfold Future_result. simpl. rewrite Ha. simpl.
    destruct (find_issues table (dtype table)) as [err|r] eqn:Hf; simpl.
    + split; [done|]. apply Forall_app. split; [done|].
      constructor; [|constructor]. eauto.
    + split; [|done]. right. exists table. split; [done|].
      by destruct (notify_keeps
                     (set_issues
                        (set_task_manager (app w)
                           (filter (λ i, i ≠ tid) (task_manager (app w)))) r))
        as (_ & _ & ->).
Qed.

(** Every message the application has broadcast. *)
Lemma broadcasts_of_run (es : list Event) :
  Forall (λ m, m = IssuesUpdatedMessage_new)
         (broadcasts (app (run_events dtype find_issues es))).
Proof.
  assert (∀ a : SpotlightApp,
            Forall (λ m, m = IssuesUpdatedMessage_new) (broadcasts a) →
            Forall (λ m, m = IssuesUpdatedMessage_new)
                   (broadcasts (notify_issues_updated a))) as Hnotify.
  { intros a Ha. unfold notify_issues_updated, broadcasts in *.
    destruct (websocket_manager a) eqn:E; simpl; rewrite ?E; [|done].
    apply Forall_app. split; [done|by repeat constructor]. }
  induction es as [|e es IH] using rev_ind; [constructor|].
  rewrite run_events_snoc.
  set (w := run_events dtype find_issues es) in *.
  destruct e as [ds| |tid|tid]; simpl.
  - assert (broadcasts (app (data_source_setter dtype find_issues w ds))
            = broadcasts (notify_issues_updated
                            (set_issues (set_data_source (app w) ds) [])))
      as ->.
    { unfold data_source_setter, _update_issues, create_task.
      destruct ds; simpl; [|done].
      by rewrite run_cancel_callbacks_noop. }
    by apply Hnotify.
  - constructor.
  - unfold worker_start. destruct (pool w !! tid) as [t|]; [|done].
    by destruct (future t).
  - unfold worker_finish. destruct (pool w !! tid) as [t|]; [|done].
    destruct (future t); try done. simpl.
    unfold _on_issues_ready.
    destruct (Future_result find_issues (set_future t FINISHED)); simpl;
      try done.
    by apply Hnotify.
Qed.

(** X1. In every run the pool holds one task per assignment of a
    table, in the order of the assignments, each named "update_issues" and
    each with the table and the dtype of the table as arguments; the
    assignments of [None] add none. *)
Theorem one_task_per_assigned_table (es : list Event) :
  args <$> pool (run_events dtype find_issues es)
  = (λ table, (table, dtype table)) <$> assigned es
  ∧ length (pool (run_events dtype find_issues es)) = length (assigned es)
  ∧ ∀ t, t ∈ pool (run_events dtype find_issues es) →
         name t = "update_issues".
Proof.
  destruct (pool_of_run es) as [Hargs Hnames]. split_and!; [done| |].
  - by rewrite <- (length_fmap args), Hargs, length_fmap.
  - intros t Ht. rewrite Forall_forall in Hnames. apply Hnames.
    by apply list_elem_of_fmap_2.
Qed.

(** X2. In every run, with whatever interleaving of workers,
    [issues] is empty or is the whole result of the analysis of one table
    that was assigned, with its dtype; and every error logged for a callback
    is the exception of the analysis of an assigned table. *)
Theorem issues_come_from_one_assigned_table (es : list Event) :
  (issues (app (run_events dtype find_issues es)) = []
   ∨ ∃ table, table ∈ assigned es
       ∧ find_issues table (dtype table)
         = inr (issues (app (run_events dtype find_issues es))))
  ∧ ∀ e, e ∈ callback_errors (run_events dtype find_issues es) →
         ∃ table, table ∈ assigned es
           ∧ find_issues table (dtype table) = inl e.
Proof.
  destruct (provenance_of_run es) as [H1 H2]. split; [done|].
  intros e He. rewrite Forall_forall in H2. by apply H2.
Qed.

(** X3. Every message the application broadcasts, in any run, is
    the issues-updated message without data: the issues themselves are
    never sent. *)
Theorem broadcasts_carry_no_data (es : list Event) :
  ∀ m, m ∈ broadcasts (app (run_events dtype find_issues es)) →
       type m = "issuesUpdated" ∧ data m = None.
Proof.
  intros m Hm. pose proof (broadcasts_of_run es) as H.
  rewrite Forall_forall in H. by rewrite (H m Hm).
Qed.

End Runs.

(** [one_task_per_assigned_table] at [cancelled_burst]: two tables, two
    tasks. *)
Lemma one_task_per_assigned_table_witness :
  assigned cancelled_burst = ["A"; "B"]
  ∧ length (pool (run_app cancelled_burst)) = 2%nat.
Proof.
  split; [reflexivity|].
  exact (proj1 (proj2 (one_task_per_assigned_table table_dtype analysis
                         cancelled_burst))).
Defined.

(** [issues_come_from_one_assigned_table] at [stale_burst], where the
    issues are those of the table "A". *)
Lemma issues_come_from_one_assigned_table_witness :
  issues (app (run_app stale_burst)) = []
  ∨ ∃ table, table ∈ assigned stale_burst
      ∧ analysis table (table_dtype table)
        = inr (issues (app (run_app stale_burst))).
Proof.
  exact (proj1 (issues_come_from_one_assigned_table table_dtype analysis
                  stale_burst)).
Defined.

(** [broadcasts_carry_no_data] at the first message of [cancelled_burst]. *)
Lemma broadcasts_carry_no_data_witness :
  {| type := "issuesUpdated"; data := None |}
    ∈ broadcasts (app (run_app cancelled_burst))
  ∧ data (DataIssue := string) {| type := "issuesUpdated"; data := None |}
    = None.
Proof.
  assert ({| type := "issuesUpdated"; data := @None (list string) |}
            ∈ broadcasts (app (run_app cancelled_burst))) as Hin
    by (vm_compute; apply list_elem_of_here).
  split; [exact Hin|].
  exact (proj2 (broadcasts_carry_no_data table_dtype analysis cancelled_burst
                  _ Hin)).
Defined.

End BackendMore.

(* ===================================================================== *)
(** * Further properties of viewer.py *)
(* ===================================================================== *)

Module ViewerMore.
Import ViewerPy ViewerScenarios ViewerFacts ViewerLifetime.
Local Open Scope Z_scope.

Lemma lifetime_init : lifetime World_init.
Proof.
  split; simpl; try done; try apply NoDup_nil_2;
    try (intros ? H; by apply elem_of_nil in H).
Qed.

(** A step that changes no owner, no list and no start or stop. *)
Lemma lifetime_frame (w w' : World) :
  _VIEWERS w' = _VIEWERS w → servers_made w' = servers_made w →
  started_ids (effects w') = started_ids (effects w) →
  stopped_ids (effects w') = stopped_ids (effects w) →
  (∀ i, owner_id w' i = owner_id w i) →
  lifetime w → lifetime w'.
Proof.
  intros HV Hn Hs Ht Ho [].
  split; rewrite ?HV, ?Hn, ?Hs, ?Ht; try done.
  - intros i sid. rewrite Ho. eauto.
  - intros i j sid. rewrite !Ho. eauto.
  - intros sid Hsid. destruct (stopped_started0 sid Hsid) as [H1 H2].
    split; [done|]. intros i. rewrite Ho. apply H2.
  - intros sid Hsid. destruct (started_kept0 sid Hsid) as [|(i & Hi & Hown)];
      [by left|right]. exists i. by rewrite Ho.
  - intros i sid. rewrite Ho. eauto.
Qed.

(** The viewer [self] takes a new server. *)
Lemma lifetime_assign (w w' : World) (self : nat) :
  owner_id w self = None → self ∉ _VIEWERS w →
  _VIEWERS w' = _VIEWERS w → servers_made w' = S (servers_made w) →
  started_ids (effects w') = started_ids (effects w) →
  stopped_ids (effects w') = stopped_ids (effects w) →
  owner_id w' self = Some (servers_made w) →
  (∀ i, i ≠ self → owner_id w' i = owner_id w i) →
  lifetime w → lifetime w'.
Proof.
  intros Hnone Hnin HV Hn Hs Ht Hself Ho [].
  assert (∀ i sid, owner_id w' i = Some sid →
            (i = self ∧ sid = servers_made w)
            ∨ (i ≠ self ∧ owner_id w i = Some sid)) as Hcase.
  { intros i sid H. destruct (decide (i = self)) as [->|Hne].
    - left. split; [done|]. congruence.
    - right. split; [done|]. by rewrite <- Ho. }
  split; rewrite ?HV, ?Hn, ?Hs, ?Ht; try done.
  - intros i sid [[_ ->]|[_ H]]%Hcase; [lia|].
    apply owned_fresh0 in H. lia.
  - intros i j sid [[-> ->]|[Hi H1]]%Hcase [[-> E]|[Hj H2]]%Hcase; try done.
    + apply owned_fresh0 in H2. lia.
    + apply owned_fresh0 in H1. lia.
    + by eapply owned_once0.
  - intros sid H. apply started_fresh0 in H. lia.
  - intros sid Hsid. destruct (stopped_started0 sid Hsid) as [H1 H2].
    split; [done|]. intros i [[_ ->]|[_ H]]%Hcase.
    + apply started_fresh0 in H1. lia.
    + by apply (H2 i).
  - intros sid Hsid. destruct (started_kept0 sid Hsid) as [|(i & Hi & Hown)];
      [by left|right]. exists i. split; [done|]. rewrite Ho; [done|].
    intros ->. congruence.
  - intros i sid Hi [[-> ->]|[_ H]]%Hcase; [done|by eapply listed_started0].
Qed.

(** The server of the viewer [self] is started and the viewer is listed. *)
Lemma lifetime_start (w w' : World) (self sid : nat) :
  owner_id w self = Some sid → sid ∉ started_ids (effects w) →
  _VIEWERS w' = _VIEWERS w ++ [self] → servers_made w' = servers_made w →
  started_ids (effects w') = started_ids (effects w) ++ [sid] →
  stopped_ids (effects w') = stopped_ids (effects w) →
  (∀ i, owner_id w' i = owner_id w i) →
  lifetime w → lifetime w'.
Proof.
  intros Hown Hnew HV Hn Hs Ht Ho [].
  split; rewrite ?HV, ?Hn, ?Hs, ?Ht; try done.
  - intros i s. rewrite Ho. eauto.
  - intros i j s. rewrite !Ho. eauto.
  - intros s [H| ->%list_elem_of_singleton]%elem_of_app; [eauto|].
    by eapply owned_fresh0.
  - apply NoDup_app. split_and!; [done| |apply NoDup_singleton].
    intros s H ->%list_elem_of_singleton. done.
  - intros s Hs'. destruct (stopped_started0 s Hs') as [H1 H2].
    split; [apply elem_of_app; by left|]. intros i. rewrite Ho. apply H2.
  - intros s [H| ->%list_elem_of_singleton]%elem_of_app.
    + destruct (started_kept0 s H) as [|(i & Hi & Hi')]; [by left|right].
      exists i. rewrite Ho. split; [|done]. apply elem_of_app. by left.
    + right. exists self. rewrite Ho. split; [|done].
      apply elem_of_app. right. by apply list_elem_of_singleton.
  - intros i s [Hi| ->%list_elem_of_singleton]%elem_of_app; rewrite Ho;
      intros H; apply elem_of_app.
    + left. by eapply listed_started0.
    + right. apply list_elem_of_singleton. congruence.
Qed.

(** The server of the listed viewer [self] is stopped and dropped. *)
Lemma lifetime_stop (w w' : World) (self sid : nat) :
  owner_id w self = Some sid → self ∈ _VIEWERS w →
  _VIEWERS w' = remove_first self (_VIEWERS w) →
  servers_made w' = servers_made w →
  started_ids (effects w') = started_ids (effects w) →
  stopped_ids (effects w') = stopped_ids (effects w) ++ [sid] →
  owner_id w' self = None →
  (∀ i, i ≠ self → owner_id w' i = owner_id w i) →
  lifetime w → lifetime w'.
Proof.
  intros Hown Hin HV Hn Hs Ht Hself Ho [].
  assert (∀ i s, owner_id w' i = Some s → i ≠ self ∧ owner_id w i = Some s)
    as Hcase.
  { intros i s H. destruct (decide (i = self)) as [->|Hne]; [congruence|].
    split; [done|]. by rewrite <- Ho. }
  split; rewrite ?HV, ?Hn, ?Hs, ?Ht; try done.
  - intros i s [_ H]%Hcase. eauto.
  - intros i j s [_ H1]%Hcase [_ H2]%Hcase. eauto.
  - apply NoDup_app. split_and!; [done| |apply NoDup_singleton].
    intros s H ->%list_elem_of_singleton.
    by destruct (stopped_started0 sid H) as [_ H2]; destruct (H2 self).
  - intros s [H| ->%list_elem_of_singleton]%elem_of_app.
    + destruct (stopped_started0 s H) as [H1 H2]. split; [done|].
      intros i [_ Hi]%Hcase. by apply (H2 i).
    + split; [by eapply listed_started0|].
      intros i [Hne Hi]%Hcase. apply Hne. by eapply owned_once0.
  - intros s H. destruct (started_kept0 s H) as [H'|(i & Hi & Hi')].
    + left. apply elem_of_app. by left.
    + destruct (decide (i = self)) as [->|Hne].
      * left. apply elem_of_app. right. apply list_elem_of_singleton.
        congruence.
      * right. exists i. split; [by apply remove_first_other|].
        by rewrite Ho.
  - intros i s Hi [_ H]%Hcase. apply elem_of_remove_first in Hi.
    by eapply listed_started0.
Qed.


Lemma started_ids_app (es es' : list Effect) :
  started_ids (es ++ es') = started_ids es ++ started_ids es'.
Proof. apply omap_app. Qed.

Lemma stopped_ids_app (es es' : list Effect) :
  stopped_ids (es ++ es') = stopped_ids es ++ stopped_ids es'.
Proof. apply omap_app. Qed.

Lemma owner_id_put_ne (w : World) (self i : nat) (v : Viewer) :
  i ≠ self → owner_id (put_viewer w self v) i = owner_id w i.
Proof.
  intros Hne. unfold owner_id, server_of. simpl.
  by rewrite list_lookup_insert_ne.
Qed.

Lemma owner_id_put_eq (w : World) (self : nat) (v0 v : Viewer) :
  heap w !! self = Some v0 →
  owner_id (put_viewer w self v) self = server_id <$> _server v.
Proof.
  intros Hv0. unfold owner_id, server_of. simpl.
  rewrite list_lookup_insert_eq; [done|]. by eapply lookup_lt_Some.
Qed.

Lemma owner_id_lookup (w : World) (i : nat) (v : Viewer) :
  heap w !! i = Some v → owner_id w i = server_id <$> _server v.
Proof. intros H. unfold owner_id, server_of. by rewrite H. Qed.

Lemma lifetime_put_same (w : World) (self : nat) (v0 v : Viewer) :
  heap w !! self = Some v0 →
  server_id <$> _server v = server_id <$> _server v0 →
  lifetime w → lifetime (put_viewer w self v).
Proof.
  intros Hv0 Hid. apply lifetime_frame; try reflexivity.
  intros i. destruct (decide (i = self)) as [->|Hne].
  - by rewrite (owner_id_put_eq w self v0), (owner_id_lookup w self v0).
  - by apply owner_id_put_ne.
Qed.

Lemma lifetime_emit_all (w : World) (es : list Effect) :
  started_ids es = [] → stopped_ids es = [] →
  lifetime w → lifetime (emit_all w es).
Proof.
  intros Hs Ht. apply lifetime_frame; try reflexivity; simpl.
  - by rewrite started_ids_app, Hs, app_nil_r.
  - by rewrite stopped_ids_app, Ht, app_nil_r.
Qed.

Lemma lifetime_emit (w : World) (e : Effect) :
  started_ids [e] = [] → stopped_ids [e] = [] →
  lifetime w → lifetime (emit w e).
Proof. apply (lifetime_emit_all w [e]). Qed.

Lemma lifetime_new_viewer (w : World) (host : string) (port : PortArg) :
  lifetime w →
  lifetime {| heap := heap w ++ [Viewer_init host port];
              _VIEWERS := _VIEWERS w; servers_made := servers_made w;
              effects := effects w |}.
Proof.
  apply lifetime_frame; try reflexivity.
  intros i. unfold owner_id, server_of. simpl.
  destruct (decide (i < length (heap w))%nat) as [Hlt|Hge].
  - by rewrite lookup_app_l.
  - rewrite (lookup_ge_None_2 (heap w)) by lia.
    rewrite lookup_app_r by lia.
    by destruct (i - length (heap w))%nat as [|[|]].
Qed.

(** What [_init_server] does for a viewer without a server when the
    listener can be bound. *)
Lemma init_server_fresh (w : World) (self : nat) (v : Viewer) (free : Z) :
  heap w !! self = Some v → _server v = None → self ∉ _VIEWERS w →
  ∃ w2 s, _init_server w self (Some free) = (w2, Ok tt)
    ∧ heap w2 = <[self := set_server v (Some s)]> (heap w)
    ∧ _VIEWERS w2 = _VIEWERS w ++ [self]
    ∧ servers_made w2 = S (servers_made w)
    ∧ effects w2 = effects w ++ [ServerStarted (servers_made w) (server_port s)]
    ∧ Server_start
        (Server_new (servers_made w) (_host v)
           match _requested_port v with
           | auto => 0
           | explicit p => p
           end) (Some free) = Ok s.
Proof.
  intros Hv Hs Hnin. unfold _init_server. rewrite Hv, Hs. simpl.
  rewrite bool_decide_eq_false_2 by done.
  eexists _, _. split; [reflexivity|]. simpl.
  rewrite list_insert_insert_eq. split_and!; reflexivity.
Qed.

(** What [_init_server] does when the listener cannot be bound. *)
Lemma init_server_bind_error (w : World) (self : nat) (v : Viewer) :
  heap w !! self = Some v → _server v = None →
  _init_server w self None
  = ({| heap := <[self := set_server v
                   (Some (Server_new (servers_made w) (_host v)
                            match _requested_port v with
                            | auto => 0
                            | explicit p => p
                            end))]> (heap w);
        _VIEWERS := _VIEWERS w; servers_made := S (servers_made w);
        effects := effects w |}, Raise BindError).
Proof. intros Hv Hs. unfold _init_server. by rewrite Hv, Hs. Qed.

Lemma init_server_owned (w : World) (self : nat) (v : Viewer) (s : Server)
    (os : option Z) :
  heap w !! self = Some v → _server v = Some s →
  _init_server w self os = (w, Ok tt).
Proof. intros Hv Hs. unfold _init_server. by rewrite Hv, Hs. Qed.

Lemma lifetime_init_server (w : World) (self : nat) (os : option Z) :
  registry_invariant w → lifetime w →
  lifetime (fst (_init_server w self os)).
Proof.
  intros Hinv Hl.
  destruct (heap w !! self) as [v|] eqn:Hv;
    [|unfold _init_server; by rewrite Hv].
  destruct (_server v) as [s|] eqn:Hs;
    [by rewrite (init_server_owned w self v s)|].
  pose proof (unregistered_without_server w self v Hinv Hv Hs) as Hnin.
  assert (owner_id w self = None) as Hnone
    by by rewrite (owner_id_lookup w self v), Hs.
  assert (self < length (heap w))%nat as Hlt by by eapply lookup_lt_Some.
  set (w1 := fst (_init_server w self None)).
  assert (lifetime w1) as Hl1.
  { unfold w1. rewrite (init_server_bind_error w self v) by done. simpl.
    eapply (lifetime_assign w _ self); try done; simpl.
    - unfold owner_id, server_of. simpl.
      by rewrite list_lookup_insert_eq.
    - intros i Hne. unfold owner_id, server_of. simpl.
      by rewrite list_lookup_insert_ne. }
  destruct os as [free|]; [|done].
  destruct (init_server_fresh w self v free Hv Hs Hnin)
    as (w2 & s & -> & Hheap & HV & Hn & He & Hstart). simpl.
  assert (server_id s = servers_made w) as Hid.
  { simpl in Hstart. by injection Hstart as <-. }
  unfold w1 in Hl1. rewrite (init_server_bind_error w self v) in Hl1 by done.
  simpl in Hl1.
  eapply (lifetime_start _ w2 self (servers_made w)); [..|exact Hl1]; simpl.
  - unfold owner_id, server_of. simpl. by rewrite list_lookup_insert_eq.
  - intros Hin. apply (started_fresh w Hl) in Hin. lia.
  - done.
  - done.
  - by rewrite He, started_ids_app.
  - by rewrite He, stopped_ids_app, app_nil_r.
  - intros i. unfold owner_id, server_of. rewrite Hheap. simpl.
    destruct (decide (i = self)) as [->|Hne].
    + rewrite !list_lookup_insert_eq by done. simpl. by rewrite Hid.
    + by rewrite !list_lookup_insert_ne.
Qed.


Lemma lifetime_close_tail (w : World) (self : nat) (v : Viewer) (s : Server) :
  heap w !! self = Some v → _server v = Some s → self ∈ _VIEWERS w →
  lifetime w → lifetime (close_tail w self v s).
Proof.
  intros Hv Hs Hin.
  assert (self < length (heap w))%nat as Hlt by by eapply lookup_lt_Some.
  apply (lifetime_stop w _ self (server_id s)); simpl; try done.
  - by rewrite (owner_id_lookup w self v), Hs.
  - by rewrite started_ids_app, app_nil_r.
  - by rewrite stopped_ids_app.
  - unfold owner_id, server_of. simpl. by rewrite list_lookup_insert_eq.
  - intros i Hne. unfold owner_id, server_of. simpl.
    by rewrite list_lookup_insert_ne.
Qed.

Lemma lifetime_close (w : World) (self : nat) (wait : bool) (o : WaitOutcome) :
  registry_invariant w → lifetime w →
  lifetime (fst (Viewer_close w self wait o)).
Proof.
  intros Hinv Hl. destruct (decide (self ∈ _VIEWERS w)) as [Hin|Hnin].
  - destruct (close_registered w self wait o Hinv Hin)
      as (v & s & Hv & Hs & _ & ->). simpl.
    apply lifetime_close_tail; try done; destruct wait; try done.
    by apply lifetime_emit.
  - by rewrite close_unregistered.
Qed.

Lemma open_browser_quiet (v : Viewer) :
  started_ids (open_browser v) = [] ∧ stopped_ids (open_browser v) = [].
Proof.
  unfold open_browser. destruct (Viewer_port v); [|done]. by case_decide.
Qed.

(** [show_body] starts and stops nothing. *)
Lemma show_body_quiet (w : World) (self : nat) (v : Viewer) (s : Server)
    (a : ShowArgs) (env : Env) :
  ∃ es, effects (show_body w self v s a env) = effects w ++ es
    ∧ started_ids es = [] ∧ stopped_ids es = [].
Proof.
  unfold show_body. simpl. eexists. split; [reflexivity|].
  rewrite !started_ids_app, !stopped_ids_app.
  destruct (open_browser_quiet (shown_viewer v s a)) as [H1 H2].
  split; repeat (case_match; simpl); rewrite ?H1, ?H2; done.
Qed.

Lemma lifetime_show_body (w : World) (self : nat) (v : Viewer) (s : Server)
    (a : ShowArgs) (env : Env) :
  heap w !! self = Some v → _server v = Some s →
  lifetime w → lifetime (show_body w self v s a env).
Proof.
  intros Hv Hs Hl.
  destruct (show_body_quiet w self v s a env) as (es & He & H1 & H2).
  apply (lifetime_frame w); try reflexivity; [..|done].
  - by rewrite He, started_ids_app, H1, app_nil_r.
  - by rewrite He, stopped_ids_app, H2, app_nil_r.
  - intros i. unfold show_body.
    change (owner_id (emit_all ?w' ?es') i) with (owner_id w' i).
    destruct (decide (i = self)) as [->|Hne].
    + rewrite (owner_id_put_eq w self v), (owner_id_lookup w self v) by done.
      simpl. rewrite Hs. simpl. f_equal.
      by destruct (configure_keeps s v a) as (-> & _).
    + by apply owner_id_put_ne.
Qed.

Lemma inv_show_body (w : World) (self : nat) (v : Viewer) (s : Server)
    (a : ShowArgs) (env : Env) :
  heap w !! self = Some v → _server v = Some s →
  registry_invariant w → registry_invariant (show_body w self v s a env).
Proof.
  intros Hv Hs Hinv. unfold show_body. apply inv_emit_all, inv_put; [done|].
  intros Hin.
  destruct (registered_has_server w self v Hinv Hin Hv) as (s0 & Hs0 & Hst).
  eexists. split; [reflexivity|].
  destruct (configure_keeps s v a) as (_ & _ & ->). congruence.
Qed.

(** [Viewer.show] in three steps: the dataset is remembered, the server is
    made if there is none, and the body runs; then [close] when waiting. *)
Lemma Viewer_show_steps (w : World) (self : nat) (a : ShowArgs) (env : Env) :
  Viewer_show w self a env
  = match heap w !! self with
    | None => (w, Ok tt)
    | Some v0 =>
        let w1 := put_viewer w self (remember_dataset v0 a env) in
        match _init_server w1 self (os_port env) with
        | (w2, Raise e) => (w2, Raise e)
        | (w2, Ok _) =>
            match heap w2 !! self with
            | None => (w2, Ok tt)
            | Some v =>
                match _server v with
                | None =>
                    (w2, Raise (RuntimeError
                                  "Failed to launch backend server"))
                | Some s =>
                    if resolved_wait a env
                    then Viewer_close (show_body w2 self v s a env) self true
                           (wait_outcome env)
                    else (show_body w2 self v s a env, Ok tt)
                end
            end
        end
    end.
Proof.
  unfold Viewer_show. destruct (heap w !! self) as [v0|]; [|done].
  destruct (_init_server _ self (os_port env)) as [w2 [[]|e]]; [|done].
  destruct (heap w2 !! self) as [v|]; [|done].
  destruct (_server v) as [s|]; [|done].
  unfold show_body, shown_viewer, resolved_wait.
  destruct (configure s v a). reflexivity.
Qed.

Lemma lifetime_Viewer_show (w : World) (self : nat) (a : ShowArgs)
    (env : Env) :
  registry_invariant w → lifetime w →
  lifetime (fst (Viewer_show w self a env)).
Proof.
  intros Hinv Hl. rewrite Viewer_show_steps.
  destruct (heap w !! self) as [v0|] eqn:Hv0; [|done]. simpl.
  set (w1 := put_viewer w self (remember_dataset v0 a env)).
  assert (registry_invariant w1) as Hinv1.
  { apply inv_put; [done|]. intros Hin.
    by apply (registered_has_server w self v0). }
  assert (lifetime w1) as Hl1 by by apply (lifetime_put_same w self v0).
  pose proof (inv_init_server w1 self (os_port env) Hinv1) as Hinv2.
  pose proof (lifetime_init_server w1 self (os_port env) Hinv1 Hl1) as Hl2.
  destruct (_init_server w1 self (os_port env)) as [w2 [[]|e]]; [|done].
  simpl in Hinv2, Hl2.
  destruct (heap w2 !! self) as [v|] eqn:Hv; [|done].
  destruct (_server v) as [s|] eqn:Hs; [|done].
  pose proof (lifetime_show_body w2 self v s a env Hv Hs Hl2) as Hl3.
  destruct (resolved_wait a env); [|done].
  apply lifetime_close; [|done]. by apply inv_show_body.
Qed.

Lemma lifetime_show (w : World) host port (a : ShowArgs) (env : Env) :
  registry_invariant w → lifetime w →
  lifetime (fst (show w host port a env)).
Proof.
  intros Hinv Hl. unfold show.
  destruct (match port with
            | auto => None
            | explicit p => show_scan (heap w) p (_VIEWERS w) None
            end); simpl.
  - by apply lifetime_Viewer_show.
  - apply lifetime_Viewer_show;
      [by apply inv_new_viewer|by apply lifetime_new_viewer].
Qed.

Lemma lifetime_module_close (w : World) (port : CloseArg) :
  registry_invariant w → lifetime w → lifetime (fst (close w port)).
Proof.
  intros Hinv Hl. unfold close. destruct port as [|p].
  - destruct (last (_VIEWERS w)); [by apply lifetime_close|done].
  - destruct (close_scan (heap w) p (_VIEWERS w));
      [by apply lifetime_close|done].
Qed.

Lemma lifetime_frontends (w : World) (self : nat) (f : nat → nat) :
  lifetime w → lifetime (frontends w self f).
Proof.
  intros Hl. unfold frontends.
  destruct (heap w !! self) as [v|] eqn:Hv; [|done].
  destruct (_server v) as [s|] eqn:Hs; [|done].
  apply (lifetime_put_same w self v); [done| |done]. by rewrite Hs.
Qed.

Lemma lifetime_exec (w : World) (op : Op) :
  registry_invariant w → lifetime w → lifetime (exec w op).
Proof.
  intros Hinv Hl. destruct op; simpl.
  - by apply lifetime_new_viewer.
  - by apply lifetime_Viewer_show.
  - by apply lifetime_close.
  - by apply lifetime_show.
  - by apply lifetime_module_close.
  - by apply lifetime_frontends.
  - by apply lifetime_frontends.
Qed.

Lemma lifetime_run (ops : list Op) : lifetime (run ops).
Proof.
  induction ops as [|op ops IH] using rev_ind; [apply lifetime_init|].
  rewrite run_snoc. apply lifetime_exec; [apply inv_run|done].
Qed.

(** X5. In every state a program can reach: no server was
    started twice or stopped twice; every stopped server had been started;
    every server that was started is stopped or is owned by a listed
    viewer; the server of a listed viewer was started and is not stopped;
    and when no viewer is listed, every started server has been stopped. *)
Theorem server_lifetime_holds (ops : list Op) :
  let w := run ops in
  NoDup (started_ids (effects w))
  ∧ NoDup (stopped_ids (effects w))
  ∧ (∀ sid, sid ∈ stopped_ids (effects w) → sid ∈ started_ids (effects w))
  ∧ (∀ sid, sid ∈ started_ids (effects w) →
       sid ∈ stopped_ids (effects w)
       ∨ ∃ i, i ∈ viewers w ∧ owner_id w i = Some sid)
  ∧ (∀ i, i ∈ viewers w →
       ∃ sid, owner_id w i = Some sid
         ∧ sid ∈ started_ids (effects w)
         ∧ (sid ∉ stopped_ids (effects w)))
  ∧ (viewers w = [] →
       ∀ sid, sid ∈ started_ids (effects w) ↔ sid ∈ stopped_ids (effects w)).
Proof.
  simpl. pose proof (lifetime_run ops) as Hl. pose proof (inv_run ops) as Hinv.
  split_and!.
  - apply (started_once _ Hl).
  - apply (stopped_once _ Hl).
  - intros sid H. by apply (stopped_started _ Hl).
  - apply (started_kept _ Hl).
  - intros i Hi. destruct Hinv as [_ Hok].
    eapply Forall_forall in Hok; [|exact Hi].
    destruct Hok as (v & s & Hv & Hs & _).
    assert (owner_id (run ops) i = Some (server_id s)) as Hown
      by by rewrite (owner_id_lookup _ i v), Hs.
    exists (server_id s). split_and!; [done| |].
    + by eapply (listed_started _ Hl).
    + intros H. by destruct (proj2 (stopped_started _ Hl _ H) i).
  - intros Hnil sid. split.
    + intros H. destruct (started_kept _ Hl sid H) as [|(i & Hi & _)]; [done|].
      unfold viewers in Hnil. rewrite Hnil in Hi. by apply elem_of_nil in Hi.
    + intros H. by apply (stopped_started _ Hl).
Qed.

(** [Viewer.show] on a viewer that has a server. *)
Lemma Viewer_show_owned (w : World) (self : nat) (v0 : Viewer) (s : Server)
    (a : ShowArgs) (env : Env) :
  heap w !! self = Some v0 → _server v0 = Some s →
  Viewer_show w self a env
  = let v1 := remember_dataset v0 a env in
    let w3 := show_body (put_viewer w self v1) self v1 s a env in
    if resolved_wait a env
    then Viewer_close w3 self true (wait_outcome env)
    else (w3, Ok tt).
Proof.
  intros Hv0 Hs. rewrite Viewer_show_steps, Hv0. simpl.
  assert (heap (put_viewer w self (remember_dataset v0 a env)) !! self
          = Some (remember_dataset v0 a env)) as Hv1.
  { simpl. apply list_lookup_insert_eq. by eapply lookup_lt_Some. }
  rewrite (init_server_owned _ self _ s) by done.
  rewrite Hv1. simpl. by rewrite Hs.
Qed.

(** [Viewer.show] on a viewer without a server when the listener cannot be
    bound. *)
Lemma Viewer_show_bind_error (w : World) (self : nat) (v0 : Viewer)
    (a : ShowArgs) (env : Env) :
  heap w !! self = Some v0 → _server v0 = None → os_port env = None →
  Viewer_show w self a env
  = ({| heap := <[self := set_server (remember_dataset v0 a env)
                   (Some (Server_new (servers_made w) (_host v0)
                            (requested v0)))]> (heap w);
        _VIEWERS := _VIEWERS w; servers_made := S (servers_made w);
        effects := effects w |}, Raise BindError).
Proof.
  intros Hv0 Hs Hos. rewrite Viewer_show_steps, Hv0, Hos. simpl.
  rewrite (init_server_bind_error _ self (remember_dataset v0 a env)).
  - simpl. by rewrite list_insert_insert_eq.
  - simpl. apply list_lookup_insert_eq. by eapply lookup_lt_Some.
  - done.
Qed.

(** [Viewer.show] on a viewer without a server when the listener is bound. *)
Lemma Viewer_show_fresh (w : World) (self : nat) (v0 : Viewer)
    (a : ShowArgs) (env : Env) (free : Z) :
  heap w !! self = Some v0 → _server v0 = None → self ∉ _VIEWERS w →
  os_port env = Some free →
  ∃ s, Server_start (Server_new (servers_made w) (_host v0) (requested v0))
         (Some free) = Ok s
    ∧ Viewer_show w self a env
      = let v1 := set_server (remember_dataset v0 a env) (Some s) in
        let w2 := {| heap := <[self := v1]> (heap w);
                     _VIEWERS := _VIEWERS w ++ [self];
                     servers_made := S (servers_made w);
                     effects := effects w
                       ++ [ServerStarted (servers_made w) (server_port s)] |} in
        let w3 := show_body w2 self v1 s a env in
        if resolved_wait a env
        then Viewer_close w3 self true (wait_outcome env)
        else (w3, Ok tt).
Proof.
  intros Hv0 Hs Hnin Hos.
  assert (self < length (heap w))%nat as Hlt by by eapply lookup_lt_Some.
  rewrite Viewer_show_steps, Hv0, Hos. simpl.
  destruct (init_server_fresh
              (put_viewer w self (remember_dataset v0 a env)) self
              (remember_dataset v0 a env) free)
    as (w2 & s & -> & Hheap & HV & Hn & He & Hstart); try done.
  { simpl. by apply list_lookup_insert_eq. }
  exists s. split; [exact Hstart|].
  simpl in Hheap. rewrite list_insert_insert_eq in Hheap.
  destruct w2 as [h2 V2 n2 e2]. simpl in *. subst h2 V2 n2 e2.
  rewrite list_lookup_insert_eq by done. done.
Qed.

Lemma listed_in_heap (w : World) (i : nat) :
  registry_invariant w → i ∈ _VIEWERS w → (i < length (heap w))%nat.
Proof.
  intros [_ Hok] Hi. eapply Forall_forall in Hok; [|done].
  destruct Hok as (v & _ & Hv & _). by eapply lookup_lt_Some.
Qed.

Lemma configure_keeps_frontends (s : Server) (v : Viewer) (a : ShowArgs) :
  connected_frontends (fst (configure s v a)) = connected_frontends s
  ∧ server_host (fst (configure s v a)) = server_host s
  ∧ server_running (fst (configure s v a)) = server_running s.
Proof.
  unfold configure, apply_dataset.
  destruct (analyze a), (dataset_or_folder a), (dtype a),
    (_dataset_or_folder v) as [[| |]|], (issues a), (layout a); done.
Qed.

Lemma launches_app (es es' : list Effect) :
  launches (es ++ es') = launches es ++ launches es'.
Proof. apply omap_app. Qed.

Lemma refreshes_app (es es' : list Effect) :
  refreshes (es ++ es') = refreshes es ++ refreshes es'.
Proof. apply omap_app. Qed.

(** What [Viewer.close] adds to the effects: a wait and a stop at most. *)
Lemma close_effects (w : World) (self : nat) (wait : bool) (o : WaitOutcome) :
  ∃ es, effects (fst (Viewer_close w self wait o)) = effects w ++ es
    ∧ launches es = [] ∧ refreshes es = [] ∧ started_ids es = [].
Proof.
  unfold Viewer_close, Viewer_close_now.
  destruct (heap w !! self) as [v|] eqn:Hv;
    [|exists []; by rewrite app_nil_r].
  destruct (bool_decide (self ∈ _VIEWERS w)) eqn:Hin;
    [|exists []; by rewrite app_nil_r].
  destruct (_server v) as [s|] eqn:Hs; [|exists []; by rewrite app_nil_r].
  destruct wait; [destruct o|]; simpl; rewrite ?Hv, ?Hin, ?Hs; simpl;
    rewrite <- ?app_assoc; by eexists.
Qed.

Lemma close_keeps_size (w : World) (self : nat) (wait : bool)
    (o : WaitOutcome) :
  length (heap (fst (Viewer_close w self wait o))) = length (heap w)
  ∧ servers_made (fst (Viewer_close w self wait o)) = servers_made w.
Proof.
  unfold Viewer_close, Viewer_close_now.
  destruct (heap w !! self) as [v|] eqn:Hv; [|done].
  destruct (bool_decide (self ∈ _VIEWERS w)) eqn:Hin; [|done].
  destruct (_server v) as [s|] eqn:Hs; [|done].
  destruct wait; [destruct o|]; simpl; rewrite ?Hv, ?Hin, ?Hs; simpl;
    by rewrite length_insert.
Qed.

(** [Viewer.close] returns, or is left by the interrupt of its wait. *)
Lemma close_result (w : World) (self : nat) (wait : bool) (o : WaitOutcome) :
  snd (Viewer_close w self wait o) = Ok tt
  ∨ (snd (Viewer_close w self wait o) = Raise KeyboardInterrupt
     ∧ wait = true ∧ o = Interrupted).
Proof.
  unfold Viewer_close.
  destruct (heap w !! self) as [v|]; [|by left].
  destruct (bool_decide (self ∈ _VIEWERS w)); [|by left].
  destruct (_server v) as [s|]; [|by left].
  destruct wait; [destruct o|]; simpl; auto.
Qed.

Lemma close_now_listed (w : World) (self : nat) (v : Viewer) (s : Server)
    (o : WaitOutcome) :
  heap w !! self = Some v → _server v = Some s → self ∈ _VIEWERS w →
  Viewer_close w self false o = (close_tail w self v s, Ok tt).
Proof.
  intros Hv Hs Hin. unfold Viewer_close.
  by rewrite Hv, Hs, bool_decide_eq_true_2.
Qed.

(** The view of a state after [show] on a viewer that has a server. *)
Lemma reshow_view (w : World) (self : nat) (v0 : Viewer) (s : Server)
    (a : ShowArgs) (env : Env) :
  heap w !! self = Some v0 → _server v0 = Some s →
  length (heap (fst (Viewer_show w self a env))) = length (heap w)
  ∧ servers_made (fst (Viewer_show w self a env)) = servers_made w
  ∧ (resolved_wait a env = false →
       Viewer_show w self a env
       = (show_body (put_viewer w self (remember_dataset v0 a env)) self
            (remember_dataset v0 a env) s a env, Ok tt)
       ∧ _VIEWERS (fst (Viewer_show w self a env)) = _VIEWERS w
       ∧ heap (fst (Viewer_show w self a env))
         = <[self := shown_viewer (remember_dataset v0 a env) s a]> (heap w)).
Proof.
  intros Hv0 Hs. rewrite (Viewer_show_owned w self v0 s) by done. simpl.
  destruct (resolved_wait a env).
  - destruct (close_keeps_size
                (show_body (put_viewer w self (remember_dataset v0 a env))
                   self (remember_dataset v0 a env) s a env)
                self true (wait_outcome env)) as [-> ->].
    simpl. by rewrite !length_insert.
  - simpl. rewrite !length_insert, list_insert_insert_eq. done.
Qed.

(** X6. [Viewer.show] without waiting, on a listed viewer,
    returns and keeps the viewer's server: the list of viewers, the owner
    and the port of the server, and the other viewers are as before, and no
    server is made, started or stopped. *)
Theorem reshow_keeps_server (ops : list Op) (self : nat) (a : ShowArgs)
    (env : Env) :
  let w := run ops in
  let r := Viewer_show w self a env in
  self ∈ viewers w → resolved_wait a env = false →
  snd r = Ok tt
  ∧ viewers (fst r) = viewers w
  ∧ servers_made (fst r) = servers_made w
  ∧ owner_id (fst r) self = owner_id w self
  ∧ port_of (fst r) self = port_of w self
  ∧ started_ids (effects (fst r)) = started_ids (effects w)
  ∧ stopped_ids (effects (fst r)) = stopped_ids (effects w)
  ∧ ∀ i, i ≠ self → heap (fst r) !! i = heap w !! i.
Proof.
  simpl. intros Hin Hwait. pose proof (inv_run ops) as Hinv.
  pose proof Hinv as [_ Hok]. eapply Forall_forall in Hok; [|exact Hin].
  destruct Hok as (v0 & s & Hv0 & Hs & _).
  assert (self < length (heap (run ops)))%nat as Hlt
    by by eapply lookup_lt_Some.
  destruct (reshow_view (run ops) self v0 s a env Hv0 Hs)
    as (_ & Hn & Hrest).
  destruct (Hrest Hwait) as (Heq & HV & Hheap).
  destruct (show_body_quiet
              (put_viewer (run ops) self (remember_dataset v0 a env)) self
              (remember_dataset v0 a env) s a env) as (es & He & H1 & H2).
  destruct (configure_keeps s (remember_dataset v0 a env) a)
    as (Hid & Hport & _).
  split_and!; try done.
  - by rewrite Heq.
  - unfold owner_id, server_of. rewrite Hheap, Hv0.
    rewrite list_lookup_insert_eq by done. simpl. by rewrite Hs, Hid.
  - unfold port_of. rewrite Hheap, Hv0.
    rewrite list_lookup_insert_eq by done. simpl.
    unfold Viewer_port. simpl. by rewrite Hs, Hport.
  - rewrite Heq. simpl fst. rewrite He. simpl.
    by rewrite started_ids_app, H1, app_nil_r.
  - rewrite Heq. simpl fst. rewrite He. simpl.
    by rewrite stopped_ids_app, H2, app_nil_r.
  - intros i Hne. rewrite Hheap. by rewrite list_lookup_insert_ne.
Qed.

(** X7. The module's [show] with the port of a listed viewer returns a
    listed viewer at that port and makes neither a viewer nor a server; when
    it does not wait, the viewer stays listed at that port. *)
Theorem show_matching_port_reuses (ops : list Op) (host : string) (p : Z)
    (a : ShowArgs) (env : Env) :
  let w := run ops in
  let r := show w host (explicit p) a env in
  (∃ i, i ∈ viewers w ∧ port_of w i = Some p) →
  fst (snd r) ∈ viewers w
  ∧ port_of w (fst (snd r)) = Some p
  ∧ length (heap (fst r)) = length (heap w)
  ∧ servers_made (fst r) = servers_made w
  ∧ (resolved_wait a env = false →
       snd (snd r) = Ok tt ∧ viewers (fst r) = viewers w
       ∧ port_of (fst r) (fst (snd r)) = Some p).
Proof.
  simpl. intros Hex. pose proof (inv_run ops) as Hinv.
  destruct (show_reuses_matching_port (run ops) host p a env Hex)
    as (i & Hin & Hp & ->). simpl.
  pose proof Hinv as [_ Hok]. eapply Forall_forall in Hok; [|exact Hin].
  destruct Hok as (v0 & s & Hv0 & Hs & _).
  assert (i < length (heap (run ops)))%nat as Hlt by by eapply lookup_lt_Some.
  destruct (reshow_view (run ops) i v0 s a env Hv0 Hs) as (Hlen & Hn & Hrest).
  split_and!; try done.
  intros Hwait. destruct (Hrest Hwait) as (Heq & HV & Hheap).
  split_and!; [by rewrite Heq|done|].
  unfold port_of in *. rewrite Hheap, list_lookup_insert_eq by done.
  rewrite Hv0 in Hp. simpl in *. unfold Viewer_port in *. simpl.
  rewrite Hs in Hp.
  by destruct (configure_keeps s (remember_dataset v0 a env) a) as (_ & -> & _).
Qed.

(** X8. The module's [show] with the port "auto", without
    waiting and with a listener that can be bound, returns a new viewer,
    listed last, whose server has a new identity and the port the operating
    system handed out; [close] with "last" right after it stops that server
    and brings the list of viewers back to what it was. *)
Theorem show_auto_then_close_last (ops : list Op) (host : string)
    (a : ShowArgs) (env : Env) (free : Z) :
  let w := run ops in
  let r := show w host auto a env in
  let c := close (fst r) last_viewer in
  os_port env = Some free → resolved_wait a env = false →
  snd r = (length (heap w), Ok tt)
  ∧ (length (heap w) ∉ viewers w)
  ∧ viewers (fst r) = viewers w ++ [length (heap w)]
  ∧ owner_id (fst r) (length (heap w)) = Some (servers_made w)
  ∧ port_of (fst r) (length (heap w)) = Some free
  ∧ snd c = Ok tt
  ∧ viewers (fst c) = viewers w
  ∧ effects (fst c) = effects (fst r) ++ [ServerStopped (servers_made w)].
Proof.
  intros w r c Hos Hwait. pose proof (inv_run ops : registry_invariant w)
    as Hinv.
  set (i := length (heap w)).
  assert (i ∉ _VIEWERS w) as Hnin.
  { intros Hin. apply (listed_in_heap w i Hinv) in Hin. unfold i in Hin. lia. }
  set (w1 := {| heap := heap w ++ [Viewer_init host auto];
                _VIEWERS := _VIEWERS w; servers_made := servers_made w;
                effects := effects w |}).
  assert (heap w1 !! i = Some (Viewer_init host auto)) as Hv0.
  { simpl. rewrite lookup_app_r by (unfold i; lia).
    unfold i. by rewrite Nat.sub_diag. }
  destruct (Viewer_show_fresh w1 i (Viewer_init host auto) a env free)
    as (s & Hstart & Hshow); try done.
  rewrite Hwait in Hshow. simpl in Hstart. injection Hstart as <-.
  assert (r = (fst (Viewer_show w1 i a env), (i, snd (Viewer_show w1 i a env))))
    as Hr by reflexivity.
  rewrite Hshow in Hr. simpl in Hr.
  match type of Hr with
  | r = (show_body ?w2 _ ?v1 ?s1 _ _, _) =>
      remember (show_body w2 i v1 s1 a env) as w3 eqn:Hw3;
      assert (heap w3 !! i = Some (shown_viewer v1 s1 a)
              ∧ _VIEWERS w3 = _VIEWERS w ++ [i]) as (Hv3 & HV3);
      [|destruct (configure_keeps s1 v1 a) as (Hid & Hport & _)]
  end.
  { rewrite Hw3. split; [|reflexivity].
    unfold show_body. simpl.
    rewrite list_insert_insert_eq. apply list_lookup_insert_eq.
    rewrite length_app. simpl. unfold i. lia. }
  assert (i ∈ _VIEWERS w3) as Hin3.
  { rewrite HV3. apply elem_of_app. right. by apply list_elem_of_singleton. }
  pose proof (close_now_listed w3 i _ _ Disconnected Hv3 eq_refl Hin3)
    as Hclose.
  assert (c = Viewer_close w3 i false Disconnected) as Hc.
  { unfold c, close. rewrite Hr. simpl fst.
    by rewrite HV3, last_snoc. }
  rewrite Hc, Hclose, Hr. simpl.
  split_and!; try done.
  - unfold owner_id, server_of. rewrite Hv3. simpl. by rewrite Hid.
  - unfold port_of. rewrite Hv3. simpl. unfold Viewer_port. simpl.
    by rewrite Hport.
  - unfold viewers. rewrite HV3. by apply remove_first_last.
  - by rewrite Hid.
Qed.

(** [_init_server] raises only when the listener cannot be bound, and after
    it has returned the viewer has a server. *)
Lemma init_server_result (w w2 : World) (self : nat) (os : option Z)
    (res : Res unit) :
  _init_server w self os = (w2, res) →
  (res = Ok tt ∨ (res = Raise BindError ∧ os = None))
  ∧ _VIEWERS w ⊆ _VIEWERS w2
  ∧ (res = Raise BindError → _VIEWERS w2 = _VIEWERS w)
  ∧ (res = Ok tt → ∀ v0, heap w !! self = Some v0 →
       ∃ v s, heap w2 !! self = Some v ∧ _server v = Some s).
Proof.
  unfold _init_server.
  destruct (heap w !! self) as [v|] eqn:Hv.
  2:{ intros [= <- <-]. split_and!; try done. by left. }
  assert (self < length (heap w))%nat as Hlt by by eapply lookup_lt_Some.
  destruct (_server v) as [s|] eqn:Hs.
  { intros [= <- <-]. split_and!; try done; [by left|].
    intros _ v0 [= <-]. by exists v, s. }
  destruct os as [free|]; simpl.
  - intros [= <- <-]. split_and!; try done; [by left| |].
    + case_bool_decide; [done|]. simpl. intros i Hi.
      apply elem_of_app. by left.
    + intros _ v0 _.
      case_bool_decide; simpl;
        (eexists _, _; split;
         [apply list_lookup_insert_eq; by rewrite length_insert
         |reflexivity]).
  - intros [= <- <-]. split_and!; try done. right. done.
Qed.

(** X9. After [Viewer.show] with [wait] resolved to true the
    viewer is not listed, whatever happened: the call has returned after
    [close], or it was left by [KeyboardInterrupt] after the forced close,
    or the listener could not be bound and the viewer was never listed. *)
Theorem blocking_show_ends_closed (ops : list Op) (self : nat) (a : ShowArgs)
    (env : Env) :
  let w := run ops in
  let r := Viewer_show w self a env in
  resolved_wait a env = true →
  (self ∉ viewers (fst r))
  ∧ (snd r = Ok tt
     ∨ (snd r = Raise BindError ∧ os_port env = None)
     ∨ (snd r = Raise KeyboardInterrupt ∧ wait_outcome env = Interrupted)).
Proof.
  intros w r Hwait. pose proof (inv_run ops : registry_invariant w) as Hinv.
  unfold r. rewrite Viewer_show_steps, Hwait.
  destruct (heap w !! self) as [v0|] eqn:Hv0.
  2:{ split; [|by left]. intros Hin.
      apply (listed_in_heap w self Hinv) in Hin.
      apply lookup_ge_None in Hv0. lia. }
  simpl.
  set (w1 := put_viewer w self (remember_dataset v0 a env)).
  assert (registry_invariant w1) as Hinv1.
  { apply inv_put; [done|]. intros Hin.
    by apply (registered_has_server w self v0). }
  assert (heap w1 !! self = Some (remember_dataset v0 a env)) as Hv1.
  { simpl. apply list_lookup_insert_eq. by eapply lookup_lt_Some. }
  pose proof (inv_init_server w1 self (os_port env) Hinv1) as Hinv2.
  destruct (_init_server w1 self (os_port env)) as [w2 res] eqn:Hinit.
  destruct (init_server_result w1 w2 self (os_port env) res Hinit)
    as (Hres & _ & Hsame & Hsrv).
  simpl in Hinv2. destruct res as [[]|e].
  - destruct (Hsrv eq_refl _ Hv1) as (v & s & Hv & Hs). rewrite Hv, Hs.
    split.
    + apply inv_close. by apply inv_show_body.
    + destruct (close_result (show_body w2 self v s a env) self true
                  (wait_outcome env)) as [H|(H & _ & Ho)]; auto.
  - destruct Hres as [|[[= ->] Hos]]; [done|]. simpl. split; [|auto].
    unfold viewers. rewrite (Hsame eq_refl). simpl.
    destruct (decide (self ∈ _VIEWERS w)) as [Hin|]; [|done].
    destruct (registered_has_server w self v0 Hinv Hin Hv0) as (s & Hs & _).
    unfold _init_server in Hinit. rewrite Hv1 in Hinit. simpl in Hinit.
    rewrite Hs in Hinit. done.
Qed.

(** X10. When the server of a viewer cannot be started, the
    exception leaves [Viewer.show], nothing is listed, started or stopped,
    and the viewer keeps the server that did not start. From then on [close]
    does nothing for this viewer, and [_init_server] returns at once
    whatever the listener would now answer: it makes no other server,
    starts none and does not list the viewer. *)
Theorem bind_error_leaves_unstarted_server (ops : list Op) (self : nat)
    (v0 : Viewer) (a : ShowArgs) (env : Env) :
  let w := run ops in
  let r := Viewer_show w self a env in
  heap w !! self = Some v0 → _server v0 = None → os_port env = None →
  snd r = Raise BindError
  ∧ viewers (fst r) = viewers w
  ∧ (self ∉ viewers (fst r))
  ∧ effects (fst r) = effects w
  ∧ (∃ s, server_of (fst r) self = Some s ∧ started s = false)
  ∧ (∀ wait o, Viewer_close (fst r) self wait o = (fst r, Ok tt))
  ∧ (∀ os, _init_server (fst r) self os = (fst r, Ok tt)).
Proof.
  intros w r Hv0 Hs Hos. pose proof (inv_run ops : registry_invariant w)
    as Hinv.
  pose proof (unregistered_without_server w self v0 Hinv Hv0 Hs) as Hnin.
  assert (self < length (heap w))%nat as Hlt by by eapply lookup_lt_Some.
  unfold r. rewrite (Viewer_show_bind_error w self v0 a env Hv0 Hs Hos).
  simpl fst. simpl snd.
  set (s0 := Server_new (servers_made w) (_host v0) (requested v0)).
  set (v1 := set_server (remember_dataset v0 a env) (Some s0)).
  remember {| heap := <[self := v1]> (heap w); _VIEWERS := _VIEWERS w;
              servers_made := S (servers_made w); effects := effects w |}
    as wb eqn:Hwb.
  assert (heap wb !! self = Some v1) as Hv1
    by (rewrite Hwb; simpl; by apply list_lookup_insert_eq).
  assert (_VIEWERS wb = _VIEWERS w) as HV by by rewrite Hwb.
  assert (effects wb = effects w) as He by by rewrite Hwb.
  split_and!; try done.
  - unfold viewers. by rewrite HV.
  - exists s0. unfold server_of. by rewrite Hv1.
  - intros wait o. apply close_unregistered. by rewrite HV.
  - intros os. by apply (init_server_owned wb self v1 s0 os).
Qed.

(** X11. After [Viewer.show] the viewer remembers one setting
    for file browsing and its server has the same: an explicit argument
    wins; with "auto" a setting remembered from an earlier [show] is kept,
    whatever is shown now; only when nothing is remembered does "auto" mean
    that the dataset in effect is a path. *)
Theorem filebrowsing_auto_is_sticky (w : World) (self : nat) (v0 : Viewer)
    (s : Server) (a : ShowArgs) (env : Env) :
  heap w !! self = Some v0 → _server v0 = Some s →
  resolved_wait a env = false →
  ∃ v s' b, heap (fst (Viewer_show w self a env)) !! self = Some v
    ∧ _server v = Some s'
    ∧ _allow_filebrowsing v = Some b ∧ filebrowsing_allowed s' = b
    ∧ (∀ b', allow_filebrowsing a = flag b' → b = b')
    ∧ (∀ b', allow_filebrowsing a = auto_flag →
         _allow_filebrowsing v0 = Some b' → b = b')
    ∧ (allow_filebrowsing a = auto_flag → _allow_filebrowsing v0 = None →
         ∀ d, _dataset_or_folder v = Some d → b = is_pathtype d).
Proof.
  intros Hv0 Hs Hwait.
  assert (self < length (heap w))%nat as Hlt by by eapply lookup_lt_Some.
  destruct (reshow_view w self v0 s a env Hv0 Hs) as (_ & _ & Hre).
  destruct (Hre Hwait) as (_ & _ & ->).
  rewrite list_lookup_insert_eq by done.
  eexists _, _, _. split; [reflexivity|]. simpl.
  split_and!; try reflexivity.
  - unfold configure. by destruct (apply_dataset _ _ _).
  - intros b' Ha. unfold resolve_filebrowsing. by rewrite Ha.
  - intros b' Ha Hb. unfold resolve_filebrowsing. simpl. by rewrite Ha, Hb.
  - intros Ha Hb d Hd. unfold resolve_filebrowsing. simpl in *.
    by rewrite Ha, Hb, Hd.
Qed.

(** X12. [Viewer.show] on a viewer with a server opens the browser
    exactly when [no_browser] is false, no frontend is connected and the
    port of the server is not 0, and then once, at the host of the viewer
    and the port of the server; waiting and closing open none. *)
Theorem browser_opened_when_unattended (w : World) (self : nat)
    (v0 : Viewer) (s : Server) (a : ShowArgs) (env : Env) :
  heap w !! self = Some v0 → _server v0 = Some s →
  launches (effects (fst (Viewer_show w self a env)))
  = launches (effects w)
    ++ (if negb (no_browser a)
           && bool_decide (connected_frontends s = 0%nat)
           && negb (bool_decide (server_port s = 0))
        then [(_host v0, server_port s)] else []).
Proof.
  intros Hv0 Hs. rewrite (Viewer_show_owned w self v0 s) by done. simpl.
  set (v1 := remember_dataset v0 a env).
  assert (launches (effects (show_body (put_viewer w self v1) self v1 s a env))
          = launches (effects w)
            ++ (if negb (no_browser a)
                   && bool_decide (connected_frontends s = 0%nat)
                   && negb (bool_decide (server_port s = 0))
                then [(_host v0, server_port s)] else [])) as Hbody.
  { unfold show_body. simpl. rewrite !launches_app.
    destruct (configure_keeps s v1 a) as (_ & Hport & _).
    destruct (configure_keeps_frontends s v1 a) as (Hfront & _).
    rewrite Hfront. unfold open_browser, Viewer_port. simpl. rewrite Hport.
    f_equal.
    destruct (snd (configure s v1 a)), (negb (in_interactive_session env)
                                        || resolved_wait a env),
      (negb (no_browser a)), (bool_decide (connected_frontends s = 0%nat));
      simpl; try done; case_decide; simpl;
      rewrite ?bool_decide_eq_true_2, ?bool_decide_eq_false_2 by done; done. }
  destruct (resolved_wait a env); [|done].
  destruct (close_effects (show_body (put_viewer w self v1) self v1 s a env)
              self true (wait_outcome env)) as (es & -> & Hl & _).
  by rewrite launches_app, Hl, app_nil_r.
Qed.

Lemma show_body_refreshes (w : World) (self : nat) (v : Viewer) (s : Server)
    (a : ShowArgs) (env : Env) :
  refreshes (effects (show_body w self v s a env))
  = refreshes (effects w)
    ++ (if snd (configure s v a) then [server_id s] else []).
Proof.
  unfold show_body, emit_all. cbn [effects]. rewrite !refreshes_app.
  destruct (configure_keeps s v a) as (Hid & _).
  match goal with
  | |- context [refreshes (if ?b then [Printed ?h ?p] else [])] =>
      replace (refreshes (if b then [Printed h p] else [])) with (@nil nat)
        by (by destruct b)
  end.
  match goal with
  | |- context [refreshes (if ?b then open_browser ?v' else [])] =>
      replace (refreshes (if b then open_browser v' else [])) with (@nil nat)
  end.
  - simpl. rewrite app_nil_r. f_equal.
    destruct (snd (configure s v a)); simpl; by rewrite ?Hid.
  - destruct (_ && _); [|done]. unfold open_browser.
    destruct (Viewer_port (shown_viewer v s a)); [|done]. by case_decide.
Qed.

(** X13. [Viewer.show] without waiting, on a viewer with a server:
    without a dataset and a dtype the data source and the project root of
    the server stay as they are and no frontend is refreshed; with a folder
    the project root becomes the folder, the data source is cleared and the
    frontends are refreshed once; with a dtype only, the data source is made
    again from the remembered DataFrame with the new dtype. *)
Theorem show_dataset_settings (w : World) (self : nat) (v0 : Viewer)
    (s : Server) (a : ShowArgs) (env : Env) :
  heap w !! self = Some v0 → _server v0 = Some s →
  resolved_wait a env = false →
  ∃ v s', heap (fst (Viewer_show w self a env)) !! self = Some v
    ∧ _server v = Some s'
    ∧ (dataset_or_folder a = None → dtype a = None →
         datasource s' = datasource s ∧ project_root s' = project_root s
         ∧ _dataset_or_folder v
           = match _dataset_or_folder v0 with
             | Some d => Some d
             | None => Some (Folder (cwd env))
             end
         ∧ refreshes (effects (fst (Viewer_show w self a env)))
           = refreshes (effects w))
    ∧ (∀ path, dataset_or_folder a = Some (Folder path) →
         datasource s' = None ∧ project_root s' = Some (RootAt path)
         ∧ refreshes (effects (fst (Viewer_show w self a env)))
           = refreshes (effects w) ++ [server_id s])
    ∧ (∀ df t, dataset_or_folder a = None → dtype a = Some t →
         _dataset_or_folder v0 = Some (DataFrame df) →
         datasource s'
         = Some {| source := DataFrame df; source_dtype := Some t |}
         ∧ project_root s' = project_root s).
Proof.
  intros Hv0 Hs Hwait.
  assert (self < length (heap w))%nat as Hlt by by eapply lookup_lt_Some.
  destruct (reshow_view w self v0 s a env Hv0 Hs) as (_ & _ & Hre).
  destruct (Hre Hwait) as (Heq & _ & Hheap).
  rewrite Hheap, list_lookup_insert_eq by done.
  rewrite Heq. simpl fst. rewrite show_body_refreshes. simpl.
  eexists _, _. split; [reflexivity|]. split; [reflexivity|].
  destruct (configure_keeps s (remember_dataset v0 a env) a) as (Hid & _).
  unfold shown_viewer, configure, apply_dataset in *. simpl in *.
  split_and!.
  - intros -> ->. simpl.
    destruct (analyze a), (issues a), (layout a); simpl;
      rewrite ?app_nil_r; done.
  - intros path ->. simpl in *.
    destruct (analyze a), (dtype a), (issues a), (layout a); simpl in *;
      done.
  - intros df t -> -> ->. simpl.
    destruct (analyze a), (issues a), (layout a); simpl; done.
Qed.

(** ** The statements above at [one_viewer] *)

Lemma first_viewer_there :
  heap (run one_viewer) !! 0%nat = Some first_viewer
  ∧ _server first_viewer = Some first_server.
Proof. split; by vm_compute. Defined.

(** [server_lifetime_holds] at [one_viewer]: the server 0 is started, and
    the viewer 0 owns it. *)
Lemma server_lifetime_holds_witness :
  0%nat ∈ started_ids (effects (run one_viewer))
  ∧ (0%nat ∈ stopped_ids (effects (run one_viewer))
     ∨ ∃ i, i ∈ viewers (run one_viewer)
         ∧ owner_id (run one_viewer) i = Some 0%nat).
Proof.
  assert (0%nat ∈ started_ids (effects (run one_viewer))) as H
    by (vm_compute; apply list_elem_of_here).
  split; [exact H|].
  destruct (server_lifetime_holds one_viewer) as (_ & _ & _ & Hkept & _).
  exact (Hkept 0%nat H).
Defined.

(** [reshow_keeps_server] at the viewer of [one_viewer]. *)
Lemma reshow_keeps_server_witness :
  0%nat ∈ viewers (run one_viewer)
  ∧ resolved_wait plain (session 50001) = false
  ∧ viewers (fst (Viewer_show (run one_viewer) 0 plain (session 50001)))
    = viewers (run one_viewer)
  ∧ port_of (fst (Viewer_show (run one_viewer) 0 plain (session 50001))) 0
    = port_of (run one_viewer) 0.
Proof.
  split; [exact one_viewer_listed|]. split; [reflexivity|].
  destruct (reshow_keeps_server one_viewer 0 plain (session 50001)
              one_viewer_listed eq_refl) as (_ & HV & _ & _ & Hp & _).
  split; [exact HV|exact Hp].
Defined.

(** [show_matching_port_reuses] at the port 5001 of [one_viewer]. *)
Lemma show_matching_port_reuses_witness :
  port_of (run one_viewer) 0 = Some 5001
  ∧ length (heap (fst (show (run one_viewer) "127.0.0.1" (explicit 5001)
                         plain (session 50001))))
    = length (heap (run one_viewer)).
Proof.
  assert (port_of (run one_viewer) 0 = Some 5001) as Hp by by vm_compute.
  split; [exact Hp|].
  destruct (show_matching_port_reuses one_viewer "127.0.0.1" 5001 plain
              (session 50001)
              (ex_intro _ 0%nat (conj one_viewer_listed Hp)))
    as (_ & _ & Hlen & _).
  exact Hlen.
Defined.

(** [show_auto_then_close_last] after [one_viewer]. *)
Lemma show_auto_then_close_last_witness :
  os_port (session 50001) = Some 50001
  ∧ resolved_wait plain (session 50001) = false
  ∧ viewers (fst (close (fst (show (run one_viewer) "127.0.0.1" auto plain
                               (session 50001))) last_viewer))
    = viewers (run one_viewer).
Proof.
  split; [reflexivity|]. split; [reflexivity|].
  destruct (show_auto_then_close_last one_viewer "127.0.0.1" plain
              (session 50001) 50001 eq_refl eq_refl)
    as (_ & _ & _ & _ & _ & _ & H & _).
  exact H.
Defined.

(** [blocking_show_ends_closed] at the viewer of [one_viewer]. *)
Lemma blocking_show_ends_closed_witness :
  resolved_wait blocking (session 50001) = true
  ∧ (0%nat ∉ viewers (fst (Viewer_show (run one_viewer) 0 blocking
                             (session 50001)))).
Proof.
  split; [reflexivity|].
  exact (proj1 (blocking_show_ends_closed one_viewer 0 blocking
                  (session 50001) eq_refl)).
Defined.

(** [bind_error_leaves_unstarted_server] at a new viewer for port 5001. *)
Lemma bind_error_leaves_unstarted_server_witness :
  let w := run [NewViewer "127.0.0.1" (explicit 5001)] in
  let r := Viewer_show w 0 plain busy in
  heap w !! 0%nat = Some (Viewer_init "127.0.0.1" (explicit 5001))
  ∧ snd r = Raise BindError
  ∧ viewers (fst r) = []
  ∧ _init_server (fst r) 0 (Some 5001) = (fst r, Ok tt).
Proof.
  intros w r. split; [reflexivity|].
  destruct (bind_error_leaves_unstarted_server
              [NewViewer "127.0.0.1" (explicit 5001)] 0
              (Viewer_init "127.0.0.1" (explicit 5001)) plain busy
              eq_refl eq_refl eq_refl) as (Hr & Hv & _ & _ & _ & _ & Hnext).
  split; [exact Hr|]. split; [exact Hv|].
  exact (Hnext (Some 5001)).
Defined.

(** [filebrowsing_auto_is_sticky] at the viewer of [one_viewer], which
    remembers that file browsing is allowed, shown again with a DataFrame. *)
Lemma filebrowsing_auto_is_sticky_witness :
  _allow_filebrowsing first_viewer = Some true
  ∧ ∃ v s' b,
      heap (fst (Viewer_show (run one_viewer) 0 browsing (session 50001)))
        !! 0%nat = Some v
      ∧ _dataset_or_folder v = Some (DataFrame 7)
      ∧ _server v = Some s' ∧ filebrowsing_allowed s' = b ∧ b = true.
Proof.
  split; [reflexivity|].
  destruct (filebrowsing_auto_is_sticky (run one_viewer) 0 first_viewer
              first_server browsing (session 50001)
              (proj1 first_viewer_there) (proj2 first_viewer_there) eq_refl)
    as (v & s' & b & Hv & Hs & _ & Hb & _ & Hsticky & _).
  exists v, s', b. split; [exact Hv|]. split.
  - vm_compute in Hv. injection Hv as <-. reflexivity.
  - split; [exact Hs|]. split; [exact Hb|].
    exact (Hsticky true eq_refl eq_refl).
Defined.

(** [browser_opened_when_unattended] at the viewer of [one_viewer]. *)
Lemma browser_opened_when_unattended_witness :
  launches (effects (fst (Viewer_show (run one_viewer) 0 browsing
                            (session 50001))))
  = [("127.0.0.1", 5001)]
  ∧ launches (effects (fst (Viewer_show (run one_viewer) 0 plain
                              (session 50001)))) = [].
Proof.
  split.
  - exact (browser_opened_when_unattended (run one_viewer) 0 first_viewer
             first_server browsing (session 50001)
             (proj1 first_viewer_there) (proj2 first_viewer_there)).
  - exact (browser_opened_when_unattended (run one_viewer) 0 first_viewer
             first_server plain (session 50001)
             (proj1 first_viewer_there) (proj2 first_viewer_there)).
Defined.

(** [show_dataset_settings] at the viewer of [one_viewer], shown again
    without a dataset. *)
Lemma show_dataset_settings_witness :
  resolved_wait plain (session 50001) = false
  ∧ refreshes (effects (fst (Viewer_show (run one_viewer) 0 plain
                              (session 50001))))
    = refreshes (effects (run one_viewer)).
Proof.
  split; [reflexivity|].
  destruct (show_dataset_settings (run one_viewer) 0 first_viewer first_server
              plain (session 50001) (proj1 first_viewer_there)
              (proj2 first_viewer_there) eq_refl)
    as (v & s' & _ & _ & Hnone & _).
  exact (proj2 (proj2 (proj2 (Hnone eq_refl eq_refl)))).
Defined.

End ViewerMore.

(* ===================================================================== *)
(** * The order of the list of viewers, and the module's [close] *)
(* ===================================================================== *)

Module ViewerCloseFacts.
Import ViewerPy ViewerScenarios ViewerFacts ViewerLifetime ViewerMore.
Local Open Scope Z_scope.

Lemma omap_cons_eq {A B} (f : A → option B) (x : A) (l : list A) :
  omap f (x :: l) = match f x with
                    | Some y => y :: omap f l
                    | None => omap f l
                    end.
Proof. reflexivity. Qed.

Lemma omap_ext_in {A B} (f g : A → option B) (l : list A) :
  (∀ x, x ∈ l → f x = g x) → omap f l = omap g l.
Proof.
  induction l as [|x l IH]; intros H; [done|]. rewrite !omap_cons_eq.
  rewrite (H x) by (apply elem_of_cons; by left).
  rewrite IH; [done|]. intros y Hy. apply H, elem_of_cons. by right.
Qed.

Lemma running_servers_stop (es : list Effect) (sid : nat) :
  filter (λ x, x ∉ stopped_ids es ++ [sid]) (started_ids es)
  = filter (λ x, x ≠ sid) (running_servers es).
Proof.
  unfold running_servers. rewrite list_filter_filter.
  apply list_filter_iff. intros x. rewrite not_elem_of_app.
  rewrite list_elem_of_singleton. tauto.
Qed.

(** The servers of a list of viewers when one viewer drops its server. *)
Lemma omap_owner_drop (f g : nat → option nat) (self sid : nat)
    (l : list nat) :
  self ∉ l → (∀ j, j ∈ l → f j = Some sid → j = self) →
  (∀ i, i ≠ self → g i = f i) →
  omap g l = filter (λ x, x ≠ sid) (omap f l).
Proof.
  intros Hnin Hinj Hg. induction l as [|y l IH]; [done|].
  apply not_elem_of_cons in Hnin as [Hne Hnin]. rewrite !omap_cons_eq.
  rewrite Hg by done. rewrite IH; [|done|].
  - destruct (f y) as [s|] eqn:Hy; [|done].
    rewrite filter_cons_True; [done|]. intros ->.
    apply Hne. symmetry. apply Hinj; [apply elem_of_cons; by left|done].
  - intros j Hj. apply Hinj, elem_of_cons. by right.
Qed.

Lemma omap_owner_remove_first (f g : nat → option nat) (self sid : nat)
    (l : list nat) :
  NoDup l → f self = Some sid →
  (∀ j, j ∈ l → f j = Some sid → j = self) →
  (∀ i, i ≠ self → g i = f i) →
  omap g (remove_first self l) = filter (λ x, x ≠ sid) (omap f l).
Proof.
  intros Hnd Hself Hinj Hg. induction l as [|y l IH]; [done|].
  apply NoDup_cons in Hnd as [Hy Hnd]. simpl remove_first.
  destruct (decide (self = y)) as [<-|Hne].
  - rewrite omap_cons_eq, Hself.
    rewrite filter_cons_False by (intros H; by apply H).
    apply (omap_owner_drop f g self sid l); [done| |done].
    intros j Hj. apply Hinj, elem_of_cons. by right.
  - rewrite !omap_cons_eq. rewrite Hg by done. rewrite IH; [|done|].
    + destruct (f y) as [s|] eqn:Hfy; [|done].
      rewrite filter_cons_True; [done|]. intros ->.
      apply Hne. symmetry. apply Hinj; [apply elem_of_cons; by left|done].
    + intros j Hj. apply Hinj, elem_of_cons. by right.
Qed.

Lemma order_init : in_start_order World_init.
Proof. done. Qed.

Lemma order_frame (w w' : World) :
  _VIEWERS w' = _VIEWERS w →
  started_ids (effects w') = started_ids (effects w) →
  stopped_ids (effects w') = stopped_ids (effects w) →
  (∀ i, i ∈ _VIEWERS w → owner_id w' i = owner_id w i) →
  in_start_order w → in_start_order w'.
Proof.
  unfold in_start_order, listed_servers, running_servers.
  intros -> -> -> Ho <-. by apply omap_ext_in.
Qed.

Lemma order_start (w w' : World) (self sid : nat) :
  owner_id w self = Some sid → sid ∉ stopped_ids (effects w) →
  _VIEWERS w' = _VIEWERS w ++ [self] →
  started_ids (effects w') = started_ids (effects w) ++ [sid] →
  stopped_ids (effects w') = stopped_ids (effects w) →
  (∀ i, owner_id w' i = owner_id w i) →
  in_start_order w → in_start_order w'.
Proof.
  unfold in_start_order, listed_servers, running_servers.
  intros Hown Hnew -> -> -> Ho Hw.
  rewrite omap_app, filter_app, <- Hw. simpl. rewrite Ho, Hown. simpl.
  rewrite filter_cons_True, filter_nil by done.
  f_equal. apply omap_ext_in. intros i _. apply Ho.
Qed.

Lemma order_stop (w w' : World) (self sid : nat) :
  NoDup (_VIEWERS w) → lifetime w →
  owner_id w self = Some sid →
  _VIEWERS w' = remove_first self (_VIEWERS w) →
  started_ids (effects w') = started_ids (effects w) →
  stopped_ids (effects w') = stopped_ids (effects w) ++ [sid] →
  (∀ i, i ≠ self → owner_id w' i = owner_id w i) →
  in_start_order w → in_start_order w'.
Proof.
  unfold in_start_order, listed_servers.
  intros Hnd Hl Hown HV Hs Ht Ho Hw.
  unfold running_servers at 1. rewrite HV, Hs, Ht, running_servers_stop, <- Hw.
  apply omap_owner_remove_first; try done.
  intros j _ Hj. by eapply (owned_once w Hl).
Qed.

Lemma order_put_same (w : World) (self : nat) (v0 v : Viewer) :
  heap w !! self = Some v0 →
  server_id <$> _server v = server_id <$> _server v0 →
  in_start_order w → in_start_order (put_viewer w self v).
Proof.
  intros Hv0 Hid. apply order_frame; try reflexivity.
  intros i _. destruct (decide (i = self)) as [->|Hne].
  - by rewrite (owner_id_put_eq w self v0), (owner_id_lookup w self v0).
  - by apply owner_id_put_ne.
Qed.

Lemma order_emit_all (w : World) (es : list Effect) :
  started_ids es = [] → stopped_ids es = [] →
  in_start_order w → in_start_order (emit_all w es).
Proof.
  intros Hs Ht. apply order_frame; try reflexivity; simpl.
  - by rewrite started_ids_app, Hs, app_nil_r.
  - by rewrite stopped_ids_app, Ht, app_nil_r.
Qed.

Lemma order_emit (w : World) (e : Effect) :
  started_ids [e] = [] → stopped_ids [e] = [] →
  in_start_order w → in_start_order (emit w e).
Proof. apply (order_emit_all w [e]). Qed.

Lemma order_new_viewer (w : World) (host : string) (port : PortArg) :
  in_start_order w →
  in_start_order {| heap := heap w ++ [Viewer_init host port];
                    _VIEWERS := _VIEWERS w; servers_made := servers_made w;
                    effects := effects w |}.
Proof.
  apply order_frame; try reflexivity.
  intros i _. unfold owner_id, server_of. simpl.
  destruct (decide (i < length (heap w))%nat) as [Hlt|Hge].
  - by rewrite lookup_app_l.
  - rewrite (lookup_ge_None_2 (heap w)) by lia.
    rewrite lookup_app_r by lia.
    by destruct (i - length (heap w))%nat as [|[|]].
Qed.

Lemma order_init_server (w : World) (self : nat) (os : option Z) :
  registry_invariant w → lifetime w → in_start_order w →
  in_start_order (fst (_init_server w self os)).
Proof.
  intros Hinv Hl Hw.
  destruct (heap w !! self) as [v|] eqn:Hv;
    [|unfold _init_server; by rewrite Hv].
  destruct (_server v) as [s|] eqn:Hs;
    [by rewrite (init_server_owned w self v s)|].
  pose proof (unregistered_without_server w self v Hinv Hv Hs) as Hnin.
  assert (self < length (heap w))%nat as Hlt by by eapply lookup_lt_Some.
  set (w1 := fst (_init_server w self None)).
  assert (in_start_order w1) as Hw1.
  { unfold w1. rewrite (init_server_bind_error w self v) by done. simpl.
    eapply (order_frame w); try done; simpl.
    intros i Hi. unfold owner_id, server_of. simpl.
    rewrite list_lookup_insert_ne; [done|]. by intros ->. }
  destruct os as [free|]; [|done].
  destruct (init_server_fresh w self v free Hv Hs Hnin)
    as (w2 & s & -> & Hheap & HV & Hn & He & Hstart). simpl.
  assert (server_id s = servers_made w) as Hid.
  { simpl in Hstart. by injection Hstart as <-. }
  unfold w1 in Hw1. rewrite (init_server_bind_error w self v) in Hw1 by done.
  simpl in Hw1.
  eapply (order_start _ w2 self (servers_made w)); [..|exact Hw1]; simpl.
  - unfold owner_id, server_of. simpl. by rewrite list_lookup_insert_eq.
  - intros Hin. apply (stopped_started w Hl) in Hin as [Hin _].
    apply (started_fresh w Hl) in Hin. lia.
  - done.
  - by rewrite He, started_ids_app.
  - by rewrite He, stopped_ids_app, app_nil_r.
  - intros i. unfold owner_id, server_of. rewrite Hheap. simpl.
    destruct (decide (i = self)) as [->|Hne].
    + rewrite !list_lookup_insert_eq by done. simpl. by rewrite Hid.
    + by rewrite !list_lookup_insert_ne.
Qed.

Lemma order_close_tail (w : World) (self : nat) (v : Viewer) (s : Server) :
  heap w !! self = Some v → _server v = Some s →
  registry_invariant w → lifetime w →
  in_start_order w → in_start_order (close_tail w self v s).
Proof.
  intros Hv Hs [Hnd _] Hl.
  apply (order_stop w _ self (server_id s)); simpl; try done.
  - by rewrite (owner_id_lookup w self v), Hs.
  - by rewrite started_ids_app, app_nil_r.
  - by rewrite stopped_ids_app.
  - intros i Hne. unfold owner_id, server_of. simpl.
    by rewrite list_lookup_insert_ne.
Qed.

Lemma order_close (w : World) (self : nat) (wait : bool) (o : WaitOutcome) :
  registry_invariant w → lifetime w → in_start_order w →
  in_start_order (fst (Viewer_close w self wait o)).
Proof.
  intros Hinv Hl Hw. destruct (decide (self ∈ _VIEWERS w)) as [Hin|Hnin].
  - destruct (close_registered w self wait o Hinv Hin)
      as (v & s & Hv & Hs & _ & ->). simpl.
    destruct wait; [|by apply order_close_tail].
    apply order_close_tail;
      [done|done|by apply inv_emit|by apply lifetime_emit|by apply order_emit].
  - by rewrite close_unregistered.
Qed.

Lemma order_show_body (w : World) (self : nat) (v : Viewer) (s : Server)
    (a : ShowArgs) (env : Env) :
  heap w !! self = Some v → _server v = Some s →
  in_start_order w → in_start_order (show_body w self v s a env).
Proof.
  intros Hv Hs Hw.
  destruct (show_body_quiet w self v s a env) as (es & He & H1 & H2).
  apply (order_frame w); try reflexivity; [..|done].
  - by rewrite He, started_ids_app, H1, app_nil_r.
  - by rewrite He, stopped_ids_app, H2, app_nil_r.
  - intros i _. unfold show_body.
    change (owner_id (emit_all ?w' ?es') i) with (owner_id w' i).
    destruct (decide (i = self)) as [->|Hne].
    + rewrite (owner_id_put_eq w self v), (owner_id_lookup w self v) by done.
      simpl. rewrite Hs. simpl. f_equal.
      by destruct (configure_keeps s v a) as (-> & _).
    + by apply owner_id_put_ne.
Qed.

Lemma order_Viewer_show (w : World) (self : nat) (a : ShowArgs)
    (env : Env) :
  registry_invariant w → lifetime w → in_start_order w →
  in_start_order (fst (Viewer_show w self a env)).
Proof.
  intros Hinv Hl Hw. rewrite Viewer_show_steps.
  destruct (heap w !! self) as [v0|] eqn:Hv0; [|done]. simpl.
  set (w1 := put_viewer w self (remember_dataset v0 a env)).
  assert (registry_invariant w1) as Hinv1.
  { apply inv_put; [done|]. intros Hin.
    by apply (registered_has_server w self v0). }
  assert (lifetime w1) as Hl1 by by apply (lifetime_put_same w self v0).
  assert (in_start_order w1) as Hw1 by by apply (order_put_same w self v0).
  pose proof (inv_init_server w1 self (os_port env) Hinv1) as Hinv2.
  pose proof (lifetime_init_server w1 self (os_port env) Hinv1 Hl1) as Hl2.
  pose proof (order_init_server w1 self (os_port env) Hinv1 Hl1 Hw1) as Hw2.
  destruct (_init_server w1 self (os_port env)) as [w2 [[]|e]]; [|done].
  simpl in Hinv2, Hl2, Hw2.
  destruct (heap w2 !! self) as [v|] eqn:Hv; [|done].
  destruct (_server v) as [s|] eqn:Hs; [|done].
  pose proof (lifetime_show_body w2 self v s a env Hv Hs Hl2) as Hl3.
  pose proof (order_show_body w2 self v s a env Hv Hs Hw2) as Hw3.
  destruct (resolved_wait a env); [|done].
  apply order_close; [|done..]. by apply inv_show_body.
Qed.

Lemma order_show (w : World) host port (a : ShowArgs) (env : Env) :
  registry_invariant w → lifetime w → in_start_order w →
  in_start_order (fst (show w host port a env)).
Proof.
  intros Hinv Hl Hw. unfold show.
  destruct (match port with
            | auto => None
            | explicit p => show_scan (heap w) p (_VIEWERS w) None
            end); simpl.
  - by apply order_Viewer_show.
  - apply order_Viewer_show;
      [by apply inv_new_viewer|by apply lifetime_new_viewer
      |by apply order_new_viewer].
Qed.

Lemma order_module_close (w : World) (port : CloseArg) :
  registry_invariant w → lifetime w → in_start_order w →
  in_start_order (fst (close w port)).
Proof.
  intros Hinv Hl Hw. unfold close. destruct port as [|p].
  - destruct (last (_VIEWERS w)); [by apply order_close|done].
  - destruct (close_scan (heap w) p (_VIEWERS w));
      [by apply order_close|done].
Qed.

Lemma order_frontends (w : World) (self : nat) (f : nat → nat) :
  in_start_order w → in_start_order (frontends w self f).
Proof.
  intros Hw. unfold frontends.
  destruct (heap w !! self) as [v|] eqn:Hv; [|done].
  destruct (_server v) as [s|] eqn:Hs; [|done].
  apply (order_put_same w self v); [done| |done]. by rewrite Hs.
Qed.

Lemma order_exec (w : World) (op : Op) :
  registry_invariant w → lifetime w → in_start_order w →
  in_start_order (exec w op).
Proof.
  intros Hinv Hl Hw. destruct op; simpl.
  - by apply order_new_viewer.
  - by apply order_Viewer_show.
  - by apply order_close.
  - by apply order_show.
  - by apply order_module_close.
  - by apply order_frontends.
  - by apply order_frontends.
Qed.

Lemma order_run (ops : list Op) : in_start_order (run ops).
Proof.
  induction ops as [|op ops IH] using rev_ind; [apply order_init|].
  rewrite run_snoc. apply order_exec; [apply inv_run|apply lifetime_run|done].
Qed.

(** Every listed viewer owns a server, so the servers of the listed viewers
    stand one for one with the list. *)
Lemma listed_servers_owned (w : World) :
  registry_invariant w →
  Forall2 (λ i sid, owner_id w i = Some sid) (_VIEWERS w) (listed_servers w).
Proof.
  intros [_ Hall]. unfold listed_servers.
  induction Hall as [|i l (v & s & Hv & Hs & _) _ IH]; simpl; [constructor|].
  rewrite (owner_id_lookup w i v Hv), Hs. simpl.
  constructor; [|done]. by rewrite (owner_id_lookup w i v Hv), Hs.
Qed.

Lemma close_scan_split (h : list Viewer) (p : Z) (vs : list nat) (i : nat) :
  close_scan h p vs = Some i →
  ∃ pre post, vs = pre ++ i :: post
    ∧ h !! i ≫= Viewer_port = Some p
    ∧ ∀ j, j ∈ pre → h !! j ≫= Viewer_port ≠ Some p.
Proof.
  induction vs as [|j vs IH]; simpl; [done|].
  case_bool_decide as E.
  - intros [= ->]. exists [], vs. split_and!; [done..|].
    intros k Hk. by apply elem_of_nil in Hk.
  - intros (pre & post & -> & Hp & Hpre)%IH.
    exists (j :: pre), post. split_and!; [done..|].
    intros k [->|Hk]%elem_of_cons; [done|by apply Hpre].
Qed.

Lemma remove_first_middle (i : nat) (pre post : list nat) :
  i ∉ pre → remove_first i (pre ++ i :: post) = pre ++ post.
Proof.
  induction pre as [|j pre IH]; intros Hn; simpl.
  - by rewrite decide_True.
  - apply not_elem_of_cons in Hn as [Hne Hn].
    rewrite decide_False by done. by rewrite IH.
Qed.

(** C6, amended. In every state a program can reach, the list of viewers
    follows the order in which the servers that still run were started: the
    viewer at a position of the list owns the server at that position among
    the started and not stopped servers. The module's [close] with "last"
    raises [ViewerNotFoundError] when no viewer is listed, and otherwise
    closes the viewer listed last, which owns the server that was started
    most recently among those that still run: it leaves the list, its
    server is stopped and dropped; when it was the only listed viewer, a
    second [close] with "last" raises [ViewerNotFoundError]. With a port,
    [close] closes the first viewer of the list at that port, the viewers
    before and after it stay listed in their order; and it raises
    [ViewerNotFoundError] when no listed viewer is at that port. *)
Theorem module_close_contract (ops : list Op) :
  let w := run ops in
  Forall2 (λ i sid, owner_id w i = Some sid)
    (viewers w) (running_servers (effects w))
  ∧ (viewers w = [] →
     close w last_viewer
     = (w, Raise (ViewerNotFoundError "No active viewers found.")))
  ∧ (∀ i, last (viewers w) = Some i →
       ∃ s, server_of w i = Some s
         ∧ last (running_servers (effects w)) = Some (server_id s)
         ∧ snd (close w last_viewer) = Ok tt
         ∧ viewers w = viewers (fst (close w last_viewer)) ++ [i]
         ∧ (i ∉ viewers (fst (close w last_viewer)))
         ∧ server_of (fst (close w last_viewer)) i = None
         ∧ effects (fst (close w last_viewer))
           = effects w ++ [ServerStopped (server_id s)])
  ∧ (∀ i, viewers w = [i] →
       close (fst (close w last_viewer)) last_viewer
       = (fst (close w last_viewer),
          Raise (ViewerNotFoundError "No active viewers found.")))
  ∧ (∀ p, (∃ i, i ∈ viewers w ∧ port_of w i = Some p) →
       ∃ pre i post s,
         viewers w = pre ++ i :: post
         ∧ (∀ j, j ∈ pre → port_of w j ≠ Some p)
         ∧ port_of w i = Some p
         ∧ server_of w i = Some s
         ∧ snd (close w (at_port p)) = Ok tt
         ∧ viewers (fst (close w (at_port p))) = pre ++ post
         ∧ (i ∉ viewers (fst (close w (at_port p))))
         ∧ server_of (fst (close w (at_port p))) i = None
         ∧ effects (fst (close w (at_port p)))
           = effects w ++ [ServerStopped (server_id s)])
  ∧ (∀ p, (∀ i, i ∈ viewers w → port_of w i ≠ Some p) →
       close w (at_port p)
       = (w, Raise (ViewerNotFoundError
                      ("No viewer found at the port " +:+ pretty p +:+ ".")))).
Proof.
  simpl. pose proof (inv_run ops) as Hinv.
  pose proof (order_run ops) as Hord.
  pose proof (listed_servers_owned (run ops) Hinv) as Hown.
  rewrite Hord in Hown.
  assert (∀ i, last (viewers (run ops)) = Some i →
            ∃ s, server_of (run ops) i = Some s
              ∧ last (running_servers (effects (run ops)))
                = Some (server_id s)
              ∧ snd (close (run ops) last_viewer) = Ok tt
              ∧ viewers (run ops)
                = viewers (fst (close (run ops) last_viewer)) ++ [i]
              ∧ (i ∉ viewers (fst (close (run ops) last_viewer)))
              ∧ server_of (fst (close (run ops) last_viewer)) i = None
              ∧ effects (fst (close (run ops) last_viewer))
                = effects (run ops) ++ [ServerStopped (server_id s)])
    as Hlast.
  { intros i Hi. unfold close, viewers in *. rewrite Hi.
    assert (i ∈ _VIEWERS (run ops)) as Hin by by apply last_Some_elem_of.
    destruct (close_registered (run ops) i false Disconnected Hinv Hin)
      as (v & s & Hv & Hs & _ & ->).
    exists s. simpl. apply last_Some in Hi as [l Hl].
    assert (i ∉ l) as Hnin.
    { destruct Hinv as [Hnd _]. rewrite Hl in Hnd.
      apply NoDup_app in Hnd as (_ & Hd & _). intros Hil.
      apply (Hd i Hil), list_elem_of_singleton. done. }
    rewrite Hl, remove_first_last by done.
    split_and!; try done.
    - unfold server_of. by rewrite Hv.
    - rewrite Hl in Hown.
      apply Forall2_app_inv_l in Hown as (r1 & r2 & _ & H2 & ->).
      inversion H2 as [|? sid ? r3 H3 H4]; subst. inversion H4; subst.
      rewrite last_snoc.
      rewrite (owner_id_lookup (run ops) i v Hv), Hs in H3. simpl in H3.
      by injection H3 as ->.
    - by apply server_of_close_tail. }
  split_and!.
  - done.
  - unfold close, viewers. by intros ->.
  - done.
  - intros i Hone. destruct (Hlast i) as (s & _ & _ & _ & Hv & _).
    { by rewrite Hone. }
    rewrite Hone in Hv. destruct (viewers (fst (close (run ops) last_viewer)))
      as [|j l] eqn:E; [|by destruct l].
    unfold viewers in E. simpl in E. by rewrite E.
  - intros p Hex. unfold close.
    destruct (close_scan (heap (run ops)) p (_VIEWERS (run ops)))
      as [i|] eqn:Hscan.
    + apply close_scan_split in Hscan as (pre & post & HV & Hp & Hpre).
      assert (i ∈ _VIEWERS (run ops)) as Hin.
      { rewrite HV. apply elem_of_app. right. apply elem_of_cons. by left. }
      assert (i ∉ pre) as Hipre.
      { intros H. by apply (Hpre i H). }
      destruct (inv_close (run ops) i false Disconnected Hinv) as [_ Hnin].
      destruct (close_registered (run ops) i false Disconnected Hinv Hin)
        as (v & s & Hv & Hs & _ & Hc).
      exists pre, i, post, s. rewrite Hc in *. simpl in *.
      split_and!; try done.
      * unfold server_of. by rewrite Hv.
      * unfold viewers. simpl. rewrite HV. by apply remove_first_middle.
      * by apply server_of_close_tail.
    + destruct Hex as (i & Hin & Hp).
      by destruct (proj1 (close_scan_None _ _ _) Hscan i Hin).
  - intros p Hmiss. unfold close, viewers in *.
    by rewrite (proj2 (close_scan_None _ _ _) Hmiss).
Qed.

(** [module_close_contract] at [shown_again], where viewer 0 was closed and
    shown again after viewer 1 was shown: viewer 1 is listed first, and
    [close] with "last" closes viewer 0 and stops its server 2, the one
    started most recently; so does [close] with the port of viewer 0, which
    is not the first of the list. *)
Lemma module_close_contract_witness :
  let w := run shown_again in
  viewers w = [1%nat; 0%nat]
  ∧ running_servers (effects w) = [1%nat; 2%nat]
  ∧ last (viewers w) = Some 0%nat
  ∧ (∃ s, server_of w 0 = Some s
       ∧ last (running_servers (effects w)) = Some (server_id s)
       ∧ viewers w = viewers (fst (close w last_viewer)) ++ [0%nat]
       ∧ effects (fst (close w last_viewer))
         = effects w ++ [ServerStopped (server_id s)])
  ∧ (∃ i, i ∈ viewers w ∧ port_of w i = Some 50002)
  ∧ ∃ pre i post, viewers w = pre ++ i :: post
      ∧ (∀ j, j ∈ pre → port_of w j ≠ Some 50002)
      ∧ port_of w i = Some 50002
      ∧ viewers (fst (close w (at_port 50002))) = pre ++ post.
Proof.
  intros w.
  destruct (module_close_contract shown_again)
    as (_ & _ & Hlast & _ & Hport & _).
  assert (∃ i, i ∈ viewers w ∧ port_of w i = Some 50002) as Hex.
  { exists 0%nat. split; [|reflexivity].
    apply list_elem_of_further, list_elem_of_here. }
  split; [reflexivity|]. split; [reflexivity|]. split; [reflexivity|].
  split; [|split; [exact Hex|]].
  - destruct (Hlast 0%nat eq_refl) as (s & Hs & Hrun & _ & HV & _ & _ & He).
    exists s. split; [exact Hs|]. split; [exact Hrun|].
    split; [exact HV|exact He].
  - destruct (Hport 50002 Hex)
      as (pre & i & post & s & HV & Hpre & Hp & _ & _ & HV' & _).
    exists pre, i, post. split; [exact HV|]. split; [exact Hpre|].
    split; [exact Hp|exact HV'].
Defined.

End ViewerCloseFacts.

(* ===================================================================== *)
(** * Further properties of huggingface_datasource.py *)
(* ===================================================================== *)

Module HuggingfaceMore.
Import Huggingface HuggingfaceDtypes HuggingfaceScenarios HuggingfaceFacts
  HuggingfaceColumns.
Local Open Scope Z_scope.

Lemma take_index_array (col : list ArrowValue) (l : list Z) :
  index_array l → take col l = take_rows col l.
Proof.
  intros [Hne Hfit]. unfold take.
  assert (forallb fits_int64 l = true) as ->.
  { clear Hne. induction Hfit as [|i l Hi _ IH]; simpl; [done|].
    rewrite IH, andb_true_r. unfold fits_int64.
    apply andb_true_intro. split; [apply Z.leb_le|apply Z.ltb_lt]; lia. }
  by destruct l.
Qed.

Lemma take_rows_Ok (col : list ArrowValue) (l : list Z)
    (vals : list ArrowValue) :
  take_rows col l = Ok vals
  ↔ Forall2 (λ i v, 0 ≤ i ∧ col !! Z.to_nat i = Some v) l vals.
Proof.
  revert vals. induction l as [|i l IH]; intros vals; simpl.
  - split.
    + intros [= <-]. constructor.
    + intros H. by inversion H.
  - destruct (decide (i < 0)) as [Hneg|Hpos].
    { split; [done|]. intros H. inversion H; subst. lia. }
    destruct (col !! Z.to_nat i) as [x|] eqn:Hx.
    + destruct (take_rows col l) as [xs|e] eqn:Hl.
      * split.
        -- intros [= <-]. constructor; [split; [lia|done]|]. by apply IH.
        -- intros H. inversion H as [|? v ? vs [_ Hv] Hrest]; subst.
           apply IH in Hrest. injection Hrest as <-. congruence.
      * split; [done|]. intros H.
        inversion H as [|? v ? vs _ Hrest]; subst.
        apply IH in Hrest. done.
    + split; [done|]. intros H.
      inversion H as [|? v ? vs [_ Hv] _]; subst. congruence.
Qed.

Lemma take_rows_in_bounds (col : list ArrowValue) (l : list Z) :
  Forall (in_bounds col) l →
  ∃ vals, take_rows col l = Ok vals ∧ length vals = length l
    ∧ ∀ k i, l !! k = Some i → vals !! k = col !! Z.to_nat i.
Proof.
  induction 1 as [|i l [Hi Hlt] _ (vals & Hv & Hlen & Hk)]; simpl.
  - exists []. split_and!; [done..|]. by intros k i H.
  - destruct (decide (i < 0)); [lia|].
    destruct (lookup_lt_is_Some_2 col (Z.to_nat i) Hlt) as [x Hx].
    rewrite Hx, Hv. exists (x :: vals). split_and!; [done|simpl; lia|].
    intros [|k] j; simpl; [by intros [= <-]|apply Hk].
Qed.

Lemma take_rows_out_of_bounds (col : list ArrowValue) (l : list Z) :
  ¬ Forall (in_bounds col) l → take_rows col l = Raise IndexError.
Proof.
  induction l as [|i l IH]; intros Hn; simpl.
  - destruct Hn. constructor.
  - destruct (decide (i < 0)); [done|].
    destruct (col !! Z.to_nat i) as [x|] eqn:Hx; [|done].
    rewrite IH; [done|]. intros Hl. apply Hn. constructor; [|done].
    split; [lia|]. by eapply lookup_lt_Some.
Qed.

Lemma take_rows_all (col : list ArrowValue) :
  take_rows col (Z.of_nat <$> seq 0 (length col)) = Ok col.
Proof.
  apply take_rows_Ok. apply Forall2_same_length_lookup. split.
  - by rewrite length_fmap, length_seq.
  - intros k i v Hi Hv. rewrite list_lookup_fmap in Hi.
    destruct (seq 0 (length col) !! k) as [n|] eqn:Hn; [|done].
    apply lookup_seq in Hn as [-> _]. simpl in Hi. injection Hi as <-.
    split; [lia|]. by rewrite Nat2Z.id.
Qed.

Lemma all_indices_index_array (col : list ArrowValue) :
  col ≠ [] → Z.of_nat (length col) ≤ 2 ^ 63 →
  index_array (Z.of_nat <$> seq 0 (length col)).
Proof.
  intros Hne Hlen. split.
  - destruct col; [done|]. simpl. done.
  - apply Forall_fmap, Forall_forall. intros n Hn.
    apply elem_of_seq in Hn. simpl. lia.
Qed.

(** X14. With a collection of indices that is not empty and whose integers
    fit in 64 bits, [get_column_values] raises [IndexError] as soon as one
    index is negative or past the end of the column; otherwise, for a column
    of plain values, it returns one value per index, in the order of the
    indices, repeated indices included. *)
Theorem get_column_values_indices (d : Dataset) (c : string)
    (col : list ArrowValue) (l : list Z) :
  data d !! c = Some col → index_array l →
  (¬ Forall (in_bounds col) l →
     get_column_values d c (IndexList l) = Raise IndexError)
  ∧ (Forall (in_bounds col) l →
     ∀ f, features d !! c = Some f → plain f →
       ∃ out, get_column_values d c (IndexList l) = Ok out
         ∧ length out = length l
         ∧ ∀ k i, l !! k = Some i →
             out !! k = to_numpy <$> col !! Z.to_nat i).
Proof.
  intros Hcol Hl. unfold get_column_values, raw_values.
  rewrite Hcol, (take_index_array col l Hl). split.
  - intros Hn. by rewrite take_rows_out_of_bounds.
  - intros Hb f Hf Hplain.
    destruct (take_rows_in_bounds col l Hb) as (vals & -> & Hlen & Hk).
    rewrite Hf. exists (to_numpy <$> vals).
    split_and!.
    + by destruct f.
    + by rewrite length_fmap.
    + intros k i Hi. by rewrite list_lookup_fmap, (Hk k i Hi).
Qed.

Lemma convert_key_error (d : Dataset) (c k : string)
    (raw : list ArrowValue) :
  match features d !! c with
  | None => Raise (KeyError c)
  | Some Audio | Some Image => map_res bytes_or_path raw
  | Some (DictFeature _) => map_res bytes_of raw
  | Some _ => Ok (to_numpy <$> raw)
  end = Raise (KeyError k)
  ↔ k = c ∧ features d !! c = None.
Proof.
  destruct (features d !! c) as [f|].
  - split; [|by intros [_ ?]].
    destruct f; try done; intros (x & _ & Hx)%map_res_raises.
    + by apply bytes_or_path_raises in Hx.
    + by apply bytes_or_path_raises in Hx.
    + by apply bytes_of_raises in Hx.
  - split; [by intros [= ->]|by intros [-> _]].
Qed.

(** X15. [get_column_values] raises [KeyError] for the column it was asked
    for and for no other key. With the full slice it does so exactly when
    the table or the features lack the column. With a collection of indices
    it does so whenever the table lacks the column; and when the collection
    is not empty and its integers fit in 64 bits, exactly when the table
    lacks the column, or the features lack it and every index is in bounds
    (an index out of bounds is reported first). *)
Theorem get_column_values_key_error (d : Dataset) (c k : string) :
  (get_column_values d c full_slice = Raise (KeyError k)
   ↔ k = c ∧ (data d !! c = None ∨ features d !! c = None))
  ∧ (∀ l, data d !! c = None →
       get_column_values d c (IndexList l) = Raise (KeyError c))
  ∧ ∀ l, index_array l →
      (get_column_values d c (IndexList l) = Raise (KeyError k)
       ↔ k = c
         ∧ (data d !! c = None
            ∨ (features d !! c = None
               ∧ ∃ col, data d !! c = Some col
                   ∧ Forall (in_bounds col) l))).
Proof.
  unfold get_column_values, raw_values, full_slice. simpl. split_and!.
  - destruct (data d !! c) as [col|].
    + rewrite convert_key_error. split.
      * intros [-> H]. auto.
      * intros [-> [H|H]]; done.
    + split; [intros [= ->]; auto|by intros [-> _]].
  - intros l ->. done.
  - intros l Hl. destruct (data d !! c) as [col|].
    + rewrite (take_index_array col l Hl).
      destruct (decide (Forall (in_bounds col) l)) as [Hb|Hn].
      * destruct (take_rows_in_bounds col l Hb) as (vals & -> & _).
        rewrite convert_key_error. split.
        -- intros [-> H]. split; [done|]. right. split; [done|]. by exists col.
        -- intros [-> [H|[H _]]]; done.
      * rewrite take_rows_out_of_bounds by done. split; [done|].
        intros [_ [H|[_ (col0 & [= <-] & Hb)]]]; done.
    + split; [intros [= ->]; auto|by intros [-> _]].
Qed.

(** X16. For a column that has rows (and no more than 64 bits can count),
    the full slice returns what the collection of all the indices of the
    column, in order, returns. *)
Theorem full_slice_is_all_indices (d : Dataset) (c : string)
    (col : list ArrowValue) :
  data d !! c = Some col → col ≠ [] → Z.of_nat (length col) ≤ 2 ^ 63 →
  get_column_values d c full_slice
  = get_column_values d c (IndexList (Z.of_nat <$> seq 0 (length col))).
Proof.
  intros Hcol Hne Hlen. unfold get_column_values, raw_values, full_slice.
  simpl.
  by rewrite Hcol, (take_index_array col _ (all_indices_index_array col Hne Hlen)),
    take_rows_all.
Qed.

Lemma map_res_total {A B} (f : A → Res B) (g : A → B) (l : list A) :
  Forall (λ x, f x = Ok (g x)) l → map_res f l = Ok (g <$> l).
Proof.
  induction 1 as [|x l Hx _ IH]; simpl; [done|]. by rewrite Hx, IH.
Qed.

(** X17. For a column of an [Audio], [Image] or dict feature
    whose cells are structs of bytes and path, the full slice returns one
    object per cell: the bytes when the cell has bytes; without bytes, the
    path for [Audio] and [Image], and [None] for a dict feature, whose path
    is never read. *)
Theorem media_columns_prefer_bytes (d : Dataset) (c : string)
    (col : list ArrowValue) (f : Feature) :
  data d !! c = Some col → features d !! c = Some f → ¬ plain f →
  Forall is_file col →
  get_column_values d c full_slice = Ok (media_value f <$> col).
Proof.
  intros Hcol Hf Hmedia Hfile.
  unfold get_column_values, raw_values, full_slice. simpl.
  rewrite Hcol, Hf.
  destruct f; simpl in Hmedia; try tauto; apply map_res_total;
    (eapply Forall_impl; [exact Hfile|]);
    intros v (b & p & ->); by destruct b, p.
Qed.

(** X18. A feature with a guessed semantic dtype is a feature
    [_get_intermediate_dtype] supports: audio and image come with the
    intermediate dtype file, embedding with array; nothing else is guessed. *)
Theorem guessed_dtype_is_supported (f : Feature) (d : DType) :
  _guess_semantic_dtype f = Some d →
  (d = audio_dtype ∧ f = Audio ∧ _get_intermediate_dtype f = Returns file_dtype)
  ∨ (d = image_dtype ∧ f = Image
     ∧ _get_intermediate_dtype f = Returns file_dtype)
  ∨ (d = embedding_dtype
     ∧ (∃ t n, f = Sequence (Value t) n ∧ n ≠ -1)
     ∧ _get_intermediate_dtype f = Returns array_dtype).
Proof.
  destruct f as [t|names|inner n| | |keys|]; simpl; try done.
  - destruct inner; try done. case_decide; [|done].
    intros [= <-]. right. right. split_and!; [done| |done]. by eexists _, _.
  - intros [= <-]. by left.
  - intros [= <-]. right. by left.
Qed.

Lemma intermediate_dtypes_of_inl (items : list (string * Feature))
    (m : list (string * DType)) :
  intermediate_dtypes_of items = inl m →
  Forall2 (λ it e, fst e = fst it
                   ∧ _get_intermediate_dtype (snd it) = Returns (snd e))
          items m.
Proof.
  revert m. induction items as [|[col feat] items IH]; intros m; simpl.
  - intros [= <-]. constructor.
  - destruct (_get_intermediate_dtype feat) as [dt|] eqn:E; [|done].
    destruct (intermediate_dtypes_of items) as [m'|]; [|done].
    intros [= <-]. constructor; [done|]. by apply IH.
Qed.

Lemma intermediate_dtypes_of_inr (items : list (string * Feature))
    (f : Feature) :
  intermediate_dtypes_of items = inr f →
  ∃ pre col post, items = pre ++ (col, f) :: post
    ∧ Forall (λ it, supported (snd it)) pre ∧ ¬ supported f.
Proof.
  induction items as [|[col feat] items IH]; simpl; [done|].
  destruct (_get_intermediate_dtype feat) as [dt|g] eqn:E.
  - destruct (intermediate_dtypes_of items) as [m'|g]; [done|].
    intros [= <-]. destruct (IH eq_refl) as (pre & c' & post & -> & Hpre & Hn).
    exists ((col, feat) :: pre), c', post. split_and!; [done| |done].
    constructor; [by exists dt|done].
  - intros [= <-].
    assert (g = feat) as ->.
    { destruct feat as [t| |inner ?| | |keys|]; simpl in E; try done.
      - destruct (value_dtype t); congruence.
      - destruct inner; congruence.
      - destruct (_ && _); congruence.
      - congruence. }
    exists [], col, items. split_and!; [done|constructor|].
    intros [dt Hdt]. congruence.
Qed.

Lemma guessed_dtypes_sublist (items : list (string * Feature)) :
  fst <$> guessed_dtypes_of items `sublist_of` fst <$> items.
Proof.
  induction items as [|[col feat] items IH]; simpl; [done|].
  destruct (_guess_semantic_dtype feat); simpl.
  - by apply sublist_skip.
  - by apply sublist_cons.
Qed.

(** X19. [HuggingfaceDataSource.__init__] succeeds exactly when
    every feature of the dataset is supported. Then the intermediate dtypes
    have the columns of the dataset, in their order, each with the dtype of
    its feature, and the guessed dtypes cover a part of these columns, in
    the same order. Otherwise it raises [UnsupportedFeature] for the first
    feature in column order that is not supported. *)
Theorem HuggingfaceDataSource_init_spec (items : list (string * Feature)) :
  match HuggingfaceDataSource_init items with
  | inl maps =>
      Forall (λ it, supported (snd it)) items
      ∧ fst <$> _intermediate_dtypes maps = fst <$> items
      ∧ Forall2 (λ it e, _get_intermediate_dtype (snd it) = Returns (snd e))
                items (_intermediate_dtypes maps)
      ∧ fst <$> _guessed_dtypes maps `sublist_of` fst <$> items
  | inr f =>
      ∃ pre col post, items = pre ++ (col, f) :: post
        ∧ Forall (λ it, supported (snd it)) pre ∧ ¬ supported f
  end.
Proof.
  unfold HuggingfaceDataSource_init.
  destruct (intermediate_dtypes_of items) as [m|f] eqn:E.
  - apply intermediate_dtypes_of_inl in E. simpl. split_and!.
    + eapply Forall2_Forall_l; [exact E|]. apply Forall_true.
      intros e it [_ H]. by exists (snd e).
    + induction E as [|it e items m [He _] _ IH]; simpl; [done|].
      by f_equal.
    + eapply Forall2_impl; [exact E|]. by intros it e [_ H].
    + apply guessed_dtypes_sublist.
  - by apply intermediate_dtypes_of_inr.
Qed.

(** [get_column_values_indices] at the column "label": the indices 2, 0, 2
    are in bounds, the index 3 is not. *)
Lemma get_column_values_indices_witness :
  index_array [2; 0; 2] ∧ index_array [0; 3]
  ∧ Forall (in_bounds [Scalar 3; Scalar 1; Scalar 4]) [2; 0; 2]
  ∧ (∃ out, get_column_values two_columns "label" (IndexList [2; 0; 2])
            = Ok out ∧ length out = 3%nat)
  ∧ get_column_values two_columns "label" (IndexList [0; 3])
    = Raise IndexError.
Proof.
  assert (index_array [2; 0; 2]) as Hl1.
  { split; [discriminate|]. repeat constructor; lia. }
  assert (index_array [0; 3]) as Hl2.
  { split; [discriminate|]. repeat constructor; lia. }
  assert (Forall (in_bounds [Scalar 3; Scalar 1; Scalar 4]) [2; 0; 2]) as Hin.
  { repeat constructor; simpl; lia. }
  assert (¬ Forall (in_bounds [Scalar 3; Scalar 1; Scalar 4]) [0; 3]) as Hout.
  { intros H. inversion H as [|? ? _ H']; subst.
    inversion H' as [|? ? [_ Hlt] _]; subst. simpl in Hlt. lia. }
  destruct (get_column_values_indices two_columns "label"
              [Scalar 3; Scalar 1; Scalar 4] [2; 0; 2] eq_refl Hl1)
    as [_ Hok].
  destruct (get_column_values_indices two_columns "label"
              [Scalar 3; Scalar 1; Scalar 4] [0; 3] eq_refl Hl2)
    as [Herr _].
  split; [exact Hl1|]. split; [exact Hl2|]. split; [exact Hin|]. split.
  - destruct (Hok Hin (Value "int64") eq_refl I) as (out & H1 & H2 & _).
    exists out. split; [exact H1|exact H2].
  - exact (Herr Hout).
Defined.

(** [get_column_values_key_error] at a column the table lacks. *)
Lemma get_column_values_key_error_witness :
  data two_columns !! "caption" = None ∧ index_array [5]
  ∧ get_column_values two_columns "caption" (IndexList [5])
    = Raise (KeyError "caption").
Proof.
  assert (index_array [5]) as Hl.
  { split; [discriminate|]. repeat constructor; lia. }
  split; [reflexivity|]. split; [exact Hl|].
  destruct (get_column_values_key_error two_columns "caption" "caption")
    as (_ & _ & Hk).
  exact (proj2 (Hk [5] Hl) (conj eq_refl (or_introl eq_refl))).
Defined.

(** [full_slice_is_all_indices] at the column "label". *)
Lemma full_slice_is_all_indices_witness :
  data two_columns !! "label" = Some [Scalar 3; Scalar 1; Scalar 4]
  ∧ [Scalar 3; Scalar 1; Scalar 4] ≠ []
  ∧ Z.of_nat (length [Scalar 3; Scalar 1; Scalar 4]) ≤ 2 ^ 63
  ∧ get_column_values two_columns "label" full_slice
    = get_column_values two_columns "label" (IndexList [0; 1; 2]).
Proof.
  assert ([Scalar 3; Scalar 1; Scalar 4] ≠ []) as Hne by discriminate.
  assert (Z.of_nat (length [Scalar 3; Scalar 1; Scalar 4]) ≤ 2 ^ 63) as Hlen
    by (simpl; lia).
  split; [reflexivity|]. split; [exact Hne|]. split; [exact Hlen|].
  exact (full_slice_is_all_indices two_columns "label"
           [Scalar 3; Scalar 1; Scalar 4] eq_refl Hne Hlen).
Defined.

(** [media_columns_prefer_bytes] at the column "image": the first cell has
    a path only, the second has bytes. *)
Lemma media_columns_prefer_bytes_witness :
  Forall is_file [FileStruct None (Some "a.png"); FileStruct (Some "PNG") None]
  ∧ get_column_values two_columns "image" full_slice
    = Ok [PyStr "a.png"; PyBytes "PNG"].
Proof.
  assert (Forall is_file
            [FileStruct None (Some "a.png"); FileStruct (Some "PNG") None])
    as Hfile by (repeat constructor; by eexists _, _).
  split; [exact Hfile|].
  exact (media_columns_prefer_bytes two_columns "image" _ Image
           eq_refl eq_refl (λ H, H) Hfile).
Defined.

(** [guessed_dtype_is_supported] at a sequence of four floats. *)
Lemma guessed_dtype_is_supported_witness :
  _guess_semantic_dtype (Sequence (Value "float32") 4) = Some embedding_dtype
  ∧ _get_intermediate_dtype (Sequence (Value "float32") 4)
    = Returns array_dtype.
Proof.
  split; [reflexivity|].
  destruct (guessed_dtype_is_supported (Sequence (Value "float32") 4)
              embedding_dtype eq_refl)
    as [(H & _)|[(H & _)|(_ & _ & H)]]; [discriminate H|discriminate H|exact H].
Defined.

(** [HuggingfaceDataSource_init_spec] at [mixed_features]: the construction
    fails at the column of unsigned integers, before the column "weird". *)
Lemma HuggingfaceDataSource_init_spec_witness :
  HuggingfaceDataSource_init mixed_features = inr (Value "uint8")
  ∧ ∃ pre col post, mixed_features = pre ++ (col, Value "uint8") :: post
      ∧ Forall (λ it, supported (snd it)) pre ∧ ¬ supported (Value "uint8").
Proof.
  assert (HuggingfaceDataSource_init mixed_features = inr (Value "uint8"))
    as E by by vm_compute.
  split; [exact E|].
  pose proof (HuggingfaceDataSource_init_spec mixed_features) as H.
  rewrite E in H. exact H.
Defined.

(** The construction on the first four columns of [mixed_features]. *)
Lemma HuggingfaceDataSource_init_mixed :
  HuggingfaceDataSource_init (firstn 4 mixed_features)
    = inl {| _intermediate_dtypes :=
               [("label", CategoryDType ["cat"; "dog"]);
                ("image", file_dtype); ("embedding", array_dtype);
                ("tokens", array_dtype)];
             _guessed_dtypes :=
               [("image", image_dtype); ("embedding", embedding_dtype)] |}.
Proof. by vm_compute. Qed.

End HuggingfaceMore.
